(** * Asynchronous control-flow combinators of [src/asyncUtils/async-utils.ts]

    A shallow embedding of the retry family, the completion combinators,
    [memoizeAsync], [timeout], [debounceAsync], [throttleAsync],
    [circuitBreaker] and the collection operators, with the properties
    the specification states about them and further properties of the
    code.

    Conventions of the embedding.
    - A JavaScript value of type [any] is a [value]; numbers are the
      integers ([Z]) and [NaN], which is the fragment attempt counts,
      delays and the tests use.
    - A deferred result (promise) that has settled is an [outcome]:
      fulfilled with a value or rejected with a reason.
    - An operation is a callable of declared type [() => Promise<any>]:
      invoking it may change the world it runs in (a state [S]) and yields
      a deferred result.  [await op()] inside [try]/[catch] is explicit
      state passing with a case split on the outcome.
    - A callable of that type that is not [async] may also throw before it
      returns a promise.  Where the source awaits the call inside an
      [async] function, or makes it inside the executor of a promise
      ([timeout]), a throw ends as a rejection at once and the two are one
      [Rejected] outcome.  [race], [parallel], [batch] and [memoizeAsync]
      call the operation outside any [await]; their operations are
      [invocation]s, which return or throw. *)

From Stdlib Require Import ZArith Lia Ascii String.
From stdpp Require Import gmap strings list fin_maps pretty.

Set Warnings "-register-all".
Local Open Scope Z_scope.

(** ** Values and outcomes *)

Inductive value : Type :=
  | VUndefined
  | VNull
  | VBool (b : bool)
  | VNum (n : Z)
  | VNaN
  | VStr (s : string)
  | VArr (elems : list value)
  | VError (message : string).

Inductive outcome : Type :=
  | Resolved (v : value)
  | Rejected (reason : value).

Definition is_resolved (r : outcome) : bool :=
  match r with Resolved _ => true | Rejected _ => false end.

Definition is_rejected (r : outcome) : bool := negb (is_resolved r).

(** [new Error('Retry limit exceeded')] and [new Error('Circuit is open')]. *)
Definition retry_limit_exceeded : value := VError "Retry limit exceeded".
Definition circuit_is_open : value := VError "Circuit is open".

(** An operation over a world of type [S]. *)
Definition operation (S : Type) : Type := S -> outcome * S.

(** What a call [fn(...)] evaluates to where the source does not await it:
    the promise [fn] returned, or the error it threw before returning
    one. *)
Inductive invocation (P : Type) : Type :=
  | Returns (p : P)
  | Throws (error : value).

Arguments Returns {P}.
Arguments Throws {P}.

(** A function that always returns its promise (an [async] function, for
    one), as a function that may throw. *)
Definition returning {S P : Type} (fn : S -> P * S) : S -> invocation P * S :=
  fun s => (Returns (fst (fn s)), snd (fn s)).

Definition async {S P : Type} (f : list value -> S -> P * S)
  : list value -> S -> invocation P * S :=
  fun args => returning (f args).

(** ** Invocation sequences

    [after fn k s] is the world after [k] successive invocations of [fn]
    starting in [s]; [attempt fn s k] is the outcome of invocation number
    [k] (counting from zero). *)

Section Invocations.
Context {S : Type}.
Variable fn : operation S.

Fixpoint after (k : nat) (s : S) : S :=
  match k with
  | O => s
  | Datatypes.S k' => after k' (snd (fn s))
  end.

Definition attempt (s : S) (k : nat) : outcome := fst (fn (after k s)).

(** The instrumented operation of the tests ([count++] in the body): a
    counter next to the world, incremented by every invocation. *)
Definition counted : operation (S * nat) :=
  fun sc => (fst (fn (fst sc)), (snd (fn (fst sc)), Datatypes.S (snd sc))).

End Invocations.

(** ** The retry family

    The loops run on JavaScript numbers; the embedding takes them in [Z].
    A loop is a [Fixpoint] on a fuel argument and answers [None] when the
    fuel runs out before the loop condition fails; the entry points give
    the loops enough fuel ([retry_total] and its siblings below). *)

Section RetryFamily.
Context {S : Type}.
Variable fn : operation S.

(** [for (let i = 0; i < retries; i++) { try { return await fn(); }
      catch (error) { if (i === retries - 1) throw error; } }]
    and, past the loop, the implicit [return undefined]. *)
Fixpoint retry_loop (retries : Z) (fuel : nat) (i : Z) (s : S)
  : option (outcome * S) :=
  if i <? retries then
    match fuel with
    | O => None
    | Datatypes.S fuel' =>
        match fn s with
        | (Resolved v, s') => Some (Resolved v, s')
        | (Rejected error, s') =>
            if i =? retries - 1 then Some (Rejected error, s')
            else retry_loop retries fuel' (i + 1) s'
        end
    end
  else Some (Resolved VUndefined, s).

Definition retry (retries : Z) (s : S) : option (outcome * S) :=
  retry_loop retries (Z.to_nat retries) 0 s.

(** The result of the delayed variants carries the list of delays handed
    to [setTimeout], in the order they were awaited. *)
Definition delayed_result : Type := outcome * S * list Z.

(** [while (retries < maxRetries) { try { return await asyncOperation(); }
      catch (error) { retries++; await sleep(delay); } }
    throw new Error('Retry limit exceeded');] *)
Fixpoint retryWithDelay_loop (maxRetries delay : Z) (fuel : nat)
    (retries : Z) (s : S) (slept : list Z) : option delayed_result :=
  if retries <? maxRetries then
    match fuel with
    | O => None
    | Datatypes.S fuel' =>
        match fn s with
        | (Resolved v, s') => Some (Resolved v, s', slept)
        | (Rejected _, s') =>
            retryWithDelay_loop maxRetries delay fuel' (retries + 1) s'
              (slept ++ [delay])
        end
    end
  else Some (Rejected retry_limit_exceeded, s, slept).

Definition retryWithDelay (maxRetries delay : Z) (s : S)
  : option delayed_result :=
  retryWithDelay_loop maxRetries delay (Z.to_nat maxRetries) 0 s [].

(** As above with [let delay = baseDelay] and, after each sleep,
    [delay = Math.min(delay * 2, maxDelay)]. *)
Fixpoint retryWithBackoff_loop (maxRetries maxDelay : Z) (fuel : nat)
    (retries delay : Z) (s : S) (slept : list Z) : option delayed_result :=
  if retries <? maxRetries then
    match fuel with
    | O => None
    | Datatypes.S fuel' =>
        match fn s with
        | (Resolved v, s') => Some (Resolved v, s', slept)
        | (Rejected _, s') =>
            retryWithBackoff_loop maxRetries maxDelay fuel' (retries + 1)
              (Z.min (delay * 2) maxDelay) s' (slept ++ [delay])
        end
    end
  else Some (Rejected retry_limit_exceeded, s, slept).

Definition retryWithBackoff (maxRetries baseDelay maxDelay : Z) (s : S)
  : option delayed_result :=
  retryWithBackoff_loop maxRetries maxDelay (Z.to_nat maxRetries) 0
    baseDelay s [].

End RetryFamily.

(** An operation that fails on every invocation, and the operation of the
    tests that counts its invocations and succeeds from the third on. *)
Definition always_fails (msg : string) : operation nat :=
  fun c => (Rejected (VError msg), Datatypes.S c).

Definition succeeds_on_third : operation nat :=
  fun count =>
    let count := Datatypes.S count in
    if (count <? 3)%nat then (Rejected (VError "Failed"), count)
    else (Resolved (VNum (Z.of_nat count)), count).

(** The delays [retryWithBackoff] awaits after [n] failures when its
    [delay] variable holds [delay]: the current one, then the doubled and
    capped ones. *)
Fixpoint backoff_delays (maxDelay delay : Z) (n : nat) : list Z :=
  match n with
  | O => []
  | Datatypes.S n' =>
      delay :: backoff_delays maxDelay (Z.min (delay * 2) maxDelay) n'
  end.

(** ** memoizeAsync

    [const cache = new Map<string, Promise<any>>()] is a [gmap] from the
    serialized arguments to the deferred result stored under them.  A
    stored promise is one object with one eventual outcome, shared by all
    the calls that receive it; it is represented by that outcome.
    [JSON.stringify] is a parameter of the wrapper: the properties below
    hold for every serialization. *)

Section MemoizeAsync.
Context {S : Type}.
Variable stringify : list value -> string.
Variable fn : list value -> S -> invocation outcome * S.

Definition memo_state : Type := gmap string outcome * S.

(** [memoizeAsync(fn)] allocates the empty cache ... *)
Definition memoizeAsync (s : S) : memo_state := (∅, s).

(** ... and returns the wrapper
    [async (...args) => { const key = JSON.stringify(args);
       if (!cache.has(key)) { cache.set(key, fn(...args)); }
       return cache.get(key); }].
    The argument [fn(...args)] is evaluated before [cache.set] is called:
    when [fn] throws, nothing is stored and the wrapper, an [async]
    function, rejects with the error.  [cache.get] of an absent key is
    [undefined]. *)
Definition memoized (args : list value) (st : memo_state)
  : outcome * memo_state :=
  let key := stringify args in
  let '(stored, s') :=
    match fst st !! key with
    | Some _ => (Returns (fst st), snd st)
    | None =>
        match fn args (snd st) with
        | (Returns promise, s') => (Returns (<[key := promise]> (fst st)), s')
        | (Throws error, s') => (Throws error, s')
        end
    end in
  match stored with
  | Returns cache =>
      (match cache !! key with
       | Some promise => promise
       | None => Resolved VUndefined
       end, (cache, s'))
  | Throws error => (Rejected error, (fst st, s'))
  end.

(** A sequence of calls of the wrapper, with the outcomes in call order. *)
Fixpoint memoized_calls (calls : list (list value)) (st : memo_state)
  : list outcome * memo_state :=
  match calls with
  | [] => ([], st)
  | args :: rest =>
      let '(r, st1) := memoized args st in
      let '(rs, st2) := memoized_calls rest st1 in
      (r :: rs, st2)
  end.

End MemoizeAsync.

(** [JSON.stringify] on the embedded values.  Integers print in decimal;
    strings are quoted, with the quote, the backslash and the control
    characters escaped; [undefined] inside an array prints as [null]; an
    [Error] has no enumerable property and prints as an empty object. *)
Definition hex_digit (n : N) : ascii :=
  ascii_of_N (if (n <? 10)%N then 48 + n else 87 + n)%N.

Definition json_escape_char (c : ascii) : string :=
  let n := N_of_ascii c in
  if (n =? 34)%N then String "\" (String c EmptyString)
  else if (n =? 92)%N then String "\" (String "\" EmptyString)
  else if (n =? 8)%N then "\b"
  else if (n =? 9)%N then "\t"
  else if (n =? 10)%N then "\n"
  else if (n =? 12)%N then "\f"
  else if (n =? 13)%N then "\r"
  else if (n <? 32)%N then
    "\u00" +:+ String (hex_digit (n / 16))
                 (String (hex_digit (n mod 16)) EmptyString)
  else String c EmptyString.

Fixpoint json_escape (s : string) : string :=
  match s with
  | EmptyString => EmptyString
  | String c rest => json_escape_char c +:+ json_escape rest
  end.

Definition json_quote : string := String (ascii_of_N 34) EmptyString.

Fixpoint json_join (parts : list string) : string :=
  match parts with
  | [] => EmptyString
  | [p] => p
  | p :: rest => p +:+ "," +:+ json_join rest
  end.

Fixpoint json_of_value (v : value) : string :=
  match v with
  | VUndefined | VNull => "null"
  | VBool true => "true"
  | VBool false => "false"
  | VNum n => pretty n
  | VNaN => "null"
  | VStr s => json_quote +:+ json_escape s +:+ json_quote
  | VArr elems => "[" +:+ json_join (map json_of_value elems) +:+ "]"
  | VError _ => "{}"
  end.

Definition JSON_stringify (args : list value) : string :=
  json_of_value (VArr args).

(** The operation of the memoization test,
    [async (x: number) => { count++; return x * 2; }].  The product is
    embedded for a numeric first argument, as the declared parameter type
    requires; without one it is [NaN]. *)
Definition doubling : list value -> operation nat :=
  fun args count =>
    (Resolved (match args with VNum x :: _ => VNum (x * 2) | _ => VNaN end),
     Datatypes.S count).

(** An operation that counts its invocations and rejects each of them with
    its first argument as the reason,
    [async (x) => { count++; throw x; }], and the same function without
    [async], which throws instead of returning a rejected promise. *)
Definition rejecting : list value -> operation nat :=
  fun args count =>
    (Rejected (match args with v :: _ => v | [] => VUndefined end),
     Datatypes.S count).

Definition throwing : list value -> nat -> invocation outcome * nat :=
  fun args count =>
    (Throws (match args with v :: _ => v | [] => VUndefined end),
     Datatypes.S count).

(** The instrumented function of the tests, for a function that may
    throw: next to the world, the number of its invocations and the number
    of those that threw. *)
Definition tallied {S : Type} (f : list value -> S -> invocation outcome * S)
  : list value -> S * (nat * nat) -> invocation outcome * (S * (nat * nat)) :=
  fun args st =>
    match f args (fst st) with
    | (Returns promise, s') =>
        (Returns promise, (s', (Datatypes.S (fst (snd st)), snd (snd st))))
    | (Throws error, s') =>
        (Throws error,
         (s', (Datatypes.S (fst (snd st)), Datatypes.S (snd (snd st)))))
    end.

(** ** batch

    The operations of a batch run concurrently.  A promise is embedded
    with the time it takes to settle, so that the completion order is a
    parameter of the model: an operation, when invoked, takes its effect
    on the world and returns a promise that settles that much later.  All
    the operations of a batch are invoked in the same turn of the loop. *)

Definition promise : Type := nat * outcome.

Definition timed_operation (S : Type) : Type := S -> promise * S.

(** An operation called outside any [await]: it returns its promise or
    throws. *)
Definition callable (S : Type) : Type := S -> invocation promise * S.

(** [Array.prototype.slice(start, end)]: negative indices count from the
    end, and both bounds are clamped to the array. *)
Definition relative_index (len k : Z) : Z :=
  if k <? 0 then Z.max (len + k) 0 else Z.min k len.

Definition slice {A : Type} (l : list A) (start finish : Z) : list A :=
  let len := Z.of_nat (length l) in
  let from := relative_index len start in
  let to := relative_index len finish in
  take (Z.to_nat (to - from)) (drop (Z.to_nat from) l).

(** [Array.prototype.flat()], depth 1: elements that are arrays are
    spliced in, the others are kept. *)
Definition flat (elems : list value) : list value :=
  concat (map (fun v => match v with VArr inner => inner | _ => [v] end) elems).

(** [Promise.all]: rejected with the reason of the promise that rejects
    first (the earliest in the array among those of one instant), or else
    fulfilled, when the last promise settles, with the array of the values
    in the order of the promises. *)
Fixpoint first_rejection (ps : list promise) : option promise :=
  match ps with
  | [] => None
  | (t, Rejected e) :: rest =>
      match first_rejection rest with
      | Some (t', r) => if (t' <? t)%nat then Some (t', r)
                        else Some (t, Rejected e)
      | None => Some (t, Rejected e)
      end
  | (_, Resolved _) :: rest => first_rejection rest
  end.

Definition fulfilled_value (p : promise) : value :=
  match snd p with Resolved v => v | Rejected _ => VUndefined end.

Definition Promise_all (ps : list promise) : promise :=
  match first_rejection ps with
  | Some rejected => rejected
  | None => (foldr Nat.max 0%nat (map fst ps),
             Resolved (VArr (map fulfilled_value ps)))
  end.

(** [p.then(f)] for a callback [f] that returns a plain value. *)
Definition then_ (p : promise) (f : value -> value) : promise :=
  match snd p with
  | Resolved v => (fst p, Resolved (f v))
  | Rejected e => p
  end.

(** [array => array.flat()], as a callback on values. *)
Definition flat_value (v : value) : value :=
  match v with VArr elems => VArr (flat elems) | _ => v end.

Section Batch.
Context {S : Type}.

(** [for (let i = 0; i < fns.length; i += batchSize)
       batches.push(fns.slice(i, i + batchSize));]
    The loop has no exit for [batchSize <= 0] on a non-empty array: the
    answer is then [None] whatever the fuel. *)
Fixpoint batches_loop {A : Type} (fns : list A) (batchSize : Z) (fuel : nat)
    (i : Z) (batches : list (list A)) : option (list (list A)) :=
  if i <? Z.of_nat (length fns) then
    match fuel with
    | O => None
    | Datatypes.S fuel' =>
        batches_loop fns batchSize fuel' (i + batchSize)
          (batches ++ [slice fns i (i + batchSize)])
    end
  else Some batches.

(** [batch.map(fn => fn())]: the operations are invoked one after the
    other, each returning its promise at once.  An operation that throws
    ends the [map]: the operations after it are not invoked and the throw
    goes on to the caller of [map]. *)
Fixpoint invoke_all (fns : list (callable S)) (s : S)
  : invocation (list promise) * S :=
  match fns with
  | [] => (Returns [], s)
  | fn :: rest =>
      match fn s with
      | (Throws error, s1) => (Throws error, s1)
      | (Returns p, s1) =>
          match invoke_all rest s1 with
          | (Throws error, s2) => (Throws error, s2)
          | (Returns ps, s2) => (Returns (p :: ps), s2)
          end
      end
  end.

(** [batches.map(batch => Promise.all(batch.map(fn => fn()))
                            .then(batchResults => batchResults.flat()))] *)
Fixpoint launch_batches (batches : list (list (callable S))) (s : S)
  : invocation (list promise) * S :=
  match batches with
  | [] => (Returns [], s)
  | batch :: rest =>
      match invoke_all batch s with
      | (Throws error, s1) => (Throws error, s1)
      | (Returns ps, s1) =>
          match launch_batches rest s1 with
          | (Throws error, s2) => (Throws error, s2)
          | (Returns qs, s2) =>
              (Returns (then_ (Promise_all ps) flat_value :: qs), s2)
          end
      end
  end.

(** [const results = await Promise.all(...); return results.flat();]
    [batch] is an [async] function: a throw inside it rejects the promise
    it returns, at once. *)
Definition batch (fns : list (callable S)) (batchSize : Z) (s : S)
  : option (promise * S) :=
  match batches_loop fns batchSize (length fns) 0 [] with
  | None => None
  | Some batches =>
      match launch_batches batches s with
      | (Throws error, s') => Some ((0%nat, Rejected error), s')
      | (Returns groups, s') =>
          Some (then_ (Promise_all groups) flat_value, s')
      end
  end.

End Batch.

(** An operation that resolves to [v] after [latency] milliseconds, one
    that rejects with [e], both logging their invocation in the world. *)
Definition resolves_to (name : string) (latency : nat) (v : value)
  : timed_operation (list string) :=
  fun log => ((latency, Resolved v), log ++ [name]).

Definition rejects_with (name : string) (latency : nat) (e : value)
  : timed_operation (list string) :=
  fun log => ((latency, Rejected e), log ++ [name]).

(** An operation that is not [async] and throws [e] when invoked. *)
Definition throws (name : string) (e : value) : callable (list string) :=
  fun log => (Throws e, log ++ [name]).

(** A promise that is fulfilled with a value that is not an array. *)
Definition plain_result (p : promise) : bool :=
  match snd p with
  | Resolved (VArr _) => false
  | Resolved _ => true
  | Rejected _ => false
  end.

(** ** circuitBreaker

    [circuitBreaker] declares [failures] and [circuitOpen], builds the
    guarded function over them and calls it on the spot ([async function
    () { ... }()]): what it returns is the promise of that one call.  The
    two variables are the state of a [breaker]; the guarded function is
    [breaker_body], which also reports the timeout it schedules. *)

Record breaker : Type := mkBreaker {
  failures : Z;
  circuitOpen : bool
}.

Section CircuitBreaker.
Context {S : Type}.
Variable asyncOperation : operation S.
Variable maxFailures : Z.
Variable cooldownPeriod : Z.

(** The result of one run of the guarded function: the outcome, the
    variables afterwards, the delays of the timeouts scheduled (each
    resets the two variables when it fires) and the world. *)
Definition breaker_result : Type := outcome * breaker * list Z * S.

(** [if (circuitOpen) throw new Error('Circuit is open');
     try { const result = await asyncOperation(); failures = 0; return result; }
     catch (error) { failures++;
       if (failures >= maxFailures) {
         circuitOpen = true; setTimeout(reset, cooldownPeriod); }
       throw error; }] *)
Definition breaker_body (b : breaker) (s : S) : breaker_result :=
  if circuitOpen b then (Rejected circuit_is_open, b, [], s)
  else
    match asyncOperation s with
    | (Resolved result, s') =>
        (Resolved result, mkBreaker 0 (circuitOpen b), [], s')
    | (Rejected error, s') =>
        let failures' := failures b + 1 in
        if failures' >=? maxFailures
        then (Rejected error, mkBreaker failures' true, [cooldownPeriod], s')
        else (Rejected error, mkBreaker failures' (circuitOpen b), [], s')
    end.

(** [let failures = 0; let circuitOpen = false; return async function ...();] *)
Definition circuitBreaker (s : S) : breaker_result :=
  breaker_body (mkBreaker 0 false) s.

(** Successive calls [circuitBreaker(asyncOperation, maxFailures,
    cooldownPeriod)], with the outcome of each. *)
Fixpoint circuitBreaker_calls (n : nat) (s : S) : list outcome * S :=
  match n with
  | O => ([], s)
  | Datatypes.S n' =>
      let '(r, _, _, s1) := circuitBreaker s in
      let '(rs, s2) := circuitBreaker_calls n' s1 in
      (r :: rs, s2)
  end.

End CircuitBreaker.

(** ** debounceAsync

    The wrapper lives in an event loop.  Its state holds the clock (in
    milliseconds), the variable [timer] of the closure, the timeouts that
    are scheduled and neither fired nor cleared, the invocations of [fn]
    a timer callback is awaiting, the promises handed to the callers, the
    rejections of the timer callbacks (nothing handles them) and the
    world of the operation.  The operation takes its effect when invoked
    and settles after the time it reports. *)

Inductive promise_state : Type :=
  | Pending
  | Fulfilled (v : value)
  | RejectedWith (reason : value).

(** A scheduled timeout: its handle, the time it is due, and what its
    callback closes over, the arguments of the call and the [resolve] of
    the promise of the call (promises are numbered in creation order). *)
Record timeout : Type := mkTimeout {
  handle : nat;
  due : nat;
  timeout_args : list value;
  timeout_promise : nat
}.

(** A timer callback suspended at [await fn(...args)]: when the awaited
    promise settles, its outcome, and the promise to resolve. *)
Record awaiting : Type := mkAwaiting {
  settles_at : nat;
  awaited : outcome;
  awaiting_promise : nat
}.

Record loop_state (S : Type) : Type := mkLoop {
  now : nat;
  timer : option nat;
  timeouts : list timeout;
  in_flight : list awaiting;
  promises : list promise_state;
  next_handle : nat;
  unhandled : list (nat * value);
  world : S
}.

Arguments mkLoop {S}.
Arguments now {S}.
Arguments timer {S}.
Arguments timeouts {S}.
Arguments in_flight {S}.
Arguments promises {S}.
Arguments next_handle {S}.
Arguments unhandled {S}.
Arguments world {S}.

(** What the event loop is given: a call of the debounced function, or
    one millisecond passing. *)
Inductive event : Type :=
  | Call (args : list value)
  | Tick.

(** [resolve(v)] on promise number [p]: only a pending promise changes. *)
Definition resolve_promise (p : nat) (v : value) (ps : list promise_state)
  : list promise_state :=
  match ps !! p with
  | Some Pending => <[p := Fulfilled v]> ps
  | _ => ps
  end.

(** [clearTimeout(h)]: a handle that already fired or was cleared is
    ignored. *)
Definition clearTimeout (h : nat) (ts : list timeout) : list timeout :=
  filter (fun t => handle t <> h) ts.

Section DebounceAsync.
Context {S : Type}.
Variable fn : list value -> timed_operation S.
Variable delay : nat.

(** [debounceAsync(fn, delay)]: [let timer = null], in a loop at time 0
    with nothing scheduled. *)
Definition debounceAsync (s : S) : loop_state S :=
  mkLoop 0 None [] [] [] 0 [] s.

(** The debounced function:
    [if (timer) clearTimeout(timer);
     return new Promise((resolve) => { timer = setTimeout(callback, delay); });]
    It returns the number of the new promise. *)
Definition debounced (args : list value) (st : loop_state S)
  : nat * loop_state S :=
  let scheduled :=
    match timer st with
    | Some h => clearTimeout h (timeouts st)
    | None => timeouts st
    end in
  let p := length (promises st) in
  let h := next_handle st in
  (p, mkLoop (now st) (Some h)
        (scheduled ++ [mkTimeout h (now st + delay) args p])
        (in_flight st) (promises st ++ [Pending])
        (Datatypes.S h) (unhandled st) (world st)).

(** The rest of the timer callback, once the awaited promise has settled:
    [resolve(<value>); timer = null;] when it is fulfilled; when it is
    rejected the [await] throws, the callback ends there and its own
    promise rejects unhandled. *)
Definition resume (a : awaiting) (st : loop_state S) : loop_state S :=
  match awaited a with
  | Resolved v =>
      mkLoop (now st) None (timeouts st) (in_flight st)
        (resolve_promise (awaiting_promise a) v (promises st))
        (next_handle st) (unhandled st) (world st)
  | Rejected e =>
      mkLoop (now st) (timer st) (timeouts st) (in_flight st) (promises st)
        (next_handle st) (unhandled st ++ [(awaiting_promise a, e)])
        (world st)
  end.

(** A timeout fires: the callback invokes [fn(...args)] and awaits it.  A
    promise that settles without delay resumes the callback in the same
    turn of the loop; otherwise the callback stays suspended. *)
Definition fire (t : timeout) (st : loop_state S) : loop_state S :=
  let '((latency, r), w) := fn (timeout_args t) (world st) in
  let st' :=
    mkLoop (now st) (timer st) (timeouts st) (in_flight st) (promises st)
      (next_handle st) (unhandled st) w in
  match latency with
  | O => resume (mkAwaiting (now st) r (timeout_promise t)) st'
  | Datatypes.S _ =>
      mkLoop (now st) (timer st) (timeouts st)
        (in_flight st ++ [mkAwaiting (now st + latency) r (timeout_promise t)])
        (promises st) (next_handle st) (unhandled st) w
  end.

(** One millisecond passes: the suspended callbacks whose awaited promise
    has settled resume, then the timeouts that are due fire, each in the
    order of the queue. *)
Definition tick (st : loop_state S) : loop_state S :=
  let t := Datatypes.S (now st) in
  let settled := filter (fun a => (settles_at a <= t)%nat) (in_flight st) in
  let suspended := filter (fun a => ~ (settles_at a <= t)%nat) (in_flight st) in
  let st1 :=
    foldl (fun acc a => resume a acc)
      (mkLoop t (timer st) (timeouts st) suspended (promises st)
         (next_handle st) (unhandled st) (world st))
      settled in
  let due_now := filter (fun x => (due x <= t)%nat) (timeouts st1) in
  let later := filter (fun x => ~ (due x <= t)%nat) (timeouts st1) in
  foldl (fun acc x => fire x acc)
    (mkLoop (now st1) (timer st1) later (in_flight st1) (promises st1)
       (next_handle st1) (unhandled st1) (world st1))
    due_now.

Definition step (e : event) (st : loop_state S) : loop_state S :=
  match e with
  | Call args => snd (debounced args st)
  | Tick => tick st
  end.

Definition run (events : list event) (st : loop_state S) : loop_state S :=
  foldl (fun acc e => step e acc) st events.

End DebounceAsync.

(** The operation of the debounce test, [count++; return count], settling
    at once; an operation that echoes its first argument after 30 ms; and
    one that rejects with its first argument after 30 ms. *)
Definition counting : list value -> timed_operation nat :=
  fun _ count =>
    ((0%nat, Resolved (VNum (Z.of_nat (Datatypes.S count)))),
     Datatypes.S count).

Definition first_arg (args : list value) : value :=
  match args with v :: _ => v | [] => VUndefined end.

Definition echo : list value -> timed_operation nat :=
  fun args count => ((30%nat, Resolved (first_arg args)), Datatypes.S count).

Definition failing : list value -> timed_operation nat :=
  fun args count => ((30%nat, Rejected (first_arg args)), Datatypes.S count).

(** The promises that something in the loop can still resolve: those of
    the scheduled timeouts and those of the suspended callbacks. *)
Definition owners {S : Type} (st : loop_state S) : list nat :=
  (timeout_promise <$> timeouts st) ++ (awaiting_promise <$> in_flight st).

(** The invariant of the loop.  [extra] lists the promises of the
    callbacks taken out of the queues and about to run; [orphans] is any
    list of promises known to be pending with nothing left to resolve
    them.  Every promise has at most one callback that can resolve it,
    such a promise is pending, and the orphans and the promises of the
    failed callbacks are pending and out of reach. *)
Definition loop_inv {S : Type} (orphans extra : list nat) (st : loop_state S)
  : Prop :=
  NoDup (extra ++ owners st) /\
  (forall p, p ∈ extra ++ owners st -> promises st !! p = Some Pending) /\
  (forall p, p ∈ orphans \/ p ∈ (fst <$> unhandled st) ->
     promises st !! p = Some Pending /\ p ∉ extra ++ owners st).

(** No promise of the loop is rejected. *)
Definition none_rejected (ps : list promise_state) : Prop :=
  forall p e, ps !! p <> Some (RejectedWith e).

(** A debounce cycle as a list of events: every call comes with the
    number of milliseconds that pass after it. *)
Definition cycle_events (calls : list (list value * nat)) : list event :=
  concat (map (fun c => Call (fst c) :: replicate (snd c) Tick) calls).

(** The time a timeout of [delay] milliseconds takes to fire: at least
    one turn of the loop. *)
Definition firing_time (delay : nat) : nat := Nat.max 1 delay.

(** Two shapes of the loop.  [quiet]: nothing is scheduled and no callback
    is suspended.  [armed]: [k + 1] calls of the current cycle were made
    on top of the promises [ps0], and the timeout of the last one, with
    handle [h], due at [d], is the only thing scheduled. *)
Definition quiet {S : Type} (T : nat) (tm : option nat)
    (ps : list promise_state) (h : nat) (un : list (nat * value)) (s : S)
  : loop_state S :=
  mkLoop T tm [] [] ps h un s.

Definition armed {S : Type} (ps0 : list promise_state)
    (un : list (nat * value)) (k h T d : nat) (a : list value) (s : S)
  : loop_state S :=
  mkLoop T (Some h) [mkTimeout h d a (length ps0 + k)] []
    (ps0 ++ replicate (Datatypes.S k) Pending) (Datatypes.S h) un s.

(** Two more shapes.  [waiting]: the only thing left is one callback
    suspended until [at_].  [concluded]: the quiet loop after that
    callback resumed on outcome [r] for promise [p]. *)
Definition waiting {S : Type} (T : nat) (tm : option nat) (at_ : nat)
    (r : outcome) (p : nat) (ps : list promise_state) (h : nat)
    (un : list (nat * value)) (s : S) : loop_state S :=
  mkLoop T tm [] [mkAwaiting at_ r p] ps h un s.

Definition concluded {S : Type} (r : outcome) (p T h : nat)
    (ps : list promise_state) (un : list (nat * value)) (s : S)
  : loop_state S :=
  match r with
  | Resolved v => quiet T None (resolve_promise p v ps) (Datatypes.S h) un s
  | Rejected e => quiet T (Some h) ps (Datatypes.S h) (un ++ [(p, e)]) s
  end.

(** How the promises of the loop evolve: a fulfilled promise keeps its
    value, and no rejected promise appears. *)
Definition settles_only (ps ps' : list promise_state) : Prop :=
  (forall p v, ps !! p = Some (Fulfilled v) -> ps' !! p = Some (Fulfilled v)) /\
  (none_rejected ps -> none_rejected ps').

(** ** sequentialRetry *)

Section SequentialRetry.
Context {S : Type}.
Variable asyncOperation : operation S.

(** [for (let i = 0; i < retries; i++) {
       try { return await asyncOperation(); }
       catch (error) { await sleep(delay); } }
     throw new Error('Retry limit exceeded');] *)
Fixpoint sequentialRetry_loop (retries delay : Z) (fuel : nat) (i : Z)
    (s : S) (slept : list Z) : option delayed_result :=
  if i <? retries then
    match fuel with
    | O => None
    | Datatypes.S fuel' =>
        match asyncOperation s with
        | (Resolved v, s') => Some (Resolved v, s', slept)
        | (Rejected _, s') =>
            sequentialRetry_loop retries delay fuel' (i + 1) s'
              (slept ++ [delay])
        end
    end
  else Some (Rejected retry_limit_exceeded, s, slept).

Definition sequentialRetry (retries delay : Z) (s : S)
  : option delayed_result :=
  sequentialRetry_loop retries delay (Z.to_nat retries) 0 s [].

End SequentialRetry.

(** ** sequence, parallel and race *)

Section Completion.
Context {S : Type}.

(** [let result; for (const fn of fns) { result = await fn(); }
     return result;]  A rejection leaves the loop and the function. *)
Fixpoint sequence_loop (fns : list (operation S)) (result : value) (s : S)
  : outcome * S :=
  match fns with
  | [] => (Resolved result, s)
  | fn :: rest =>
      match fn s with
      | (Resolved v, s') => sequence_loop rest v s'
      | (Rejected e, s') => (Rejected e, s')
      end
  end.

Definition sequence (fns : list (operation S)) (s : S) : outcome * S :=
  sequence_loop fns VUndefined s.

(** [Promise.all(fns.map(fn => fn()))].  [parallel] is not [async]: when
    an operation throws, [parallel] throws and returns no promise. *)
Definition parallel (fns : list (callable S)) (s : S)
  : invocation promise * S :=
  match invoke_all fns s with
  | (Throws error, s') => (Throws error, s')
  | (Returns ps, s') => (Returns (Promise_all ps), s')
  end.

(** [Promise.race]: settled as the promise that settles first (the
    earliest in the array among those of one instant); never settled for
    an empty array. *)
Fixpoint Promise_race (ps : list promise) : option promise :=
  match ps with
  | [] => None
  | p :: rest =>
      match Promise_race rest with
      | Some q => if (fst q <? fst p)%nat then Some q else Some p
      | None => Some p
      end
  end.

(** [Promise.race(fns.map(fn => fn()))].  [race] is not [async] either.
    The promise it returns settles as [Some p], or never ([None]). *)
Definition race (fns : list (callable S)) (s : S)
  : invocation (option promise) * S :=
  match invoke_all fns s with
  | (Throws error, s') => (Throws error, s')
  | (Returns ps, s') => (Returns (Promise_race ps), s')
  end.

End Completion.

(** ** The asynchronous collection operators

    A callback is handed the element, its index and the array itself: the
    array is the caller's object, and a callback may change it while the
    loop runs.  The array is therefore part of what a callback returns,
    and every loop reads [array.length] and [array[i]] from the current
    array.  A loop over an array that keeps growing does not end: the
    loops take fuel, and answer [None] when it runs out. *)

(** [ToBoolean]: what [if (x)] tests. *)
Definition truthy (v : value) : bool :=
  match v with
  | VUndefined | VNull | VNaN => false
  | VBool b => b
  | VNum n => negb (n =? 0)
  | VStr EmptyString => false
  | VStr (String _ _) => true
  | VArr _ | VError _ => true
  end.

Definition callback (S : Type) : Type :=
  value -> nat -> list value -> S -> outcome * (list value * S).

Definition reducer (S : Type) : Type :=
  value -> value -> nat -> list value -> S -> outcome * (list value * S).

(** [array[i]], which is [undefined] out of range. *)
Definition element (array : list value) (i : nat) : value :=
  default VUndefined (array !! i).

Definition loop_result (S : Type) : Type := outcome * (list value * S).

Section CollectionOperators.
Context {S : Type}.

(** [for (i = 0; i < array.length; i++) {
       const mappedValue = await asyncMapper(array[i], i, array);
       result.push(mappedValue); }
     return result;] *)
Fixpoint mapAsync_loop (asyncMapper : callback S) (fuel i : nat)
    (array result : list value) (s : S) : option (loop_result S) :=
  match array !! i with
  | None => Some (Resolved (VArr result), (array, s))
  | Some x =>
      match fuel with
      | O => None
      | Datatypes.S fuel' =>
          match asyncMapper x i array s with
          | (Resolved mappedValue, (array', s')) =>
              mapAsync_loop asyncMapper fuel' (Datatypes.S i) array'
                (result ++ [mappedValue]) s'
          | (Rejected e, st') => Some (Rejected e, st')
          end
      end
  end.

Definition mapAsync (fuel : nat) (array : list value)
    (asyncMapper : callback S) (s : S) : option (loop_result S) :=
  mapAsync_loop asyncMapper fuel 0 array [] s.

(** [const isInclude = await asyncPredicate(array[i], i, array);
     if (isInclude) { result.push(array[i]); }] *)
Fixpoint filterAsync_loop (asyncPredicate : callback S) (fuel i : nat)
    (array result : list value) (s : S) : option (loop_result S) :=
  match array !! i with
  | None => Some (Resolved (VArr result), (array, s))
  | Some x =>
      match fuel with
      | O => None
      | Datatypes.S fuel' =>
          match asyncPredicate x i array s with
          | (Resolved isInclude, (array', s')) =>
              filterAsync_loop asyncPredicate fuel' (Datatypes.S i) array'
                (if truthy isInclude then result ++ [element array' i]
                 else result) s'
          | (Rejected e, st') => Some (Rejected e, st')
          end
      end
  end.

Definition filterAsync (fuel : nat) (array : list value)
    (asyncPredicate : callback S) (s : S) : option (loop_result S) :=
  filterAsync_loop asyncPredicate fuel 0 array [] s.

(** [accumulator = await asyncReducer(accumulator, array[i], i, array);] *)
Fixpoint reduceAsync_loop (asyncReducer : reducer S) (fuel i : nat)
    (array : list value) (accumulator : value) (s : S)
  : option (loop_result S) :=
  match array !! i with
  | None => Some (Resolved accumulator, (array, s))
  | Some x =>
      match fuel with
      | O => None
      | Datatypes.S fuel' =>
          match asyncReducer accumulator x i array s with
          | (Resolved accumulator', (array', s')) =>
              reduceAsync_loop asyncReducer fuel' (Datatypes.S i) array'
                accumulator' s'
          | (Rejected e, st') => Some (Rejected e, st')
          end
      end
  end.

Definition reduceAsync (fuel : nat) (array : list value)
    (asyncReducer : reducer S) (initialValue : value) (s : S)
  : option (loop_result S) :=
  reduceAsync_loop asyncReducer fuel 0 array initialValue s.

(** [if (await asyncPredicate(array[i], i, array)) { return true; }]
    and [return false] past the loop. *)
Fixpoint someAsync_loop (asyncPredicate : callback S) (fuel i : nat)
    (array : list value) (s : S) : option (loop_result S) :=
  match array !! i with
  | None => Some (Resolved (VBool false), (array, s))
  | Some x =>
      match fuel with
      | O => None
      | Datatypes.S fuel' =>
          match asyncPredicate x i array s with
          | (Resolved v, (array', s')) =>
              if truthy v then Some (Resolved (VBool true), (array', s'))
              else someAsync_loop asyncPredicate fuel' (Datatypes.S i)
                     array' s'
          | (Rejected e, st') => Some (Rejected e, st')
          end
      end
  end.

Definition someAsync (fuel : nat) (array : list value)
    (asyncPredicate : callback S) (s : S) : option (loop_result S) :=
  someAsync_loop asyncPredicate fuel 0 array s.

(** [if (!(await asyncPredicate(array[i], i, array))) { return false; }]
    and [return true] past the loop. *)
Fixpoint everyAsync_loop (asyncPredicate : callback S) (fuel i : nat)
    (array : list value) (s : S) : option (loop_result S) :=
  match array !! i with
  | None => Some (Resolved (VBool true), (array, s))
  | Some x =>
      match fuel with
      | O => None
      | Datatypes.S fuel' =>
          match asyncPredicate x i array s with
          | (Resolved v, (array', s')) =>
              if negb (truthy v)
              then Some (Resolved (VBool false), (array', s'))
              else everyAsync_loop asyncPredicate fuel' (Datatypes.S i)
                     array' s'
          | (Rejected e, st') => Some (Rejected e, st')
          end
      end
  end.

Definition everyAsync (fuel : nat) (array : list value)
    (asyncPredicate : callback S) (s : S) : option (loop_result S) :=
  everyAsync_loop asyncPredicate fuel 0 array s.

(** [if (await asyncPredicate(array[i], i, array)) { return array[i]; }]
    and [return undefined] past the loop. *)
Fixpoint findAsync_loop (asyncPredicate : callback S) (fuel i : nat)
    (array : list value) (s : S) : option (loop_result S) :=
  match array !! i with
  | None => Some (Resolved VUndefined, (array, s))
  | Some x =>
      match fuel with
      | O => None
      | Datatypes.S fuel' =>
          match asyncPredicate x i array s with
          | (Resolved v, (array', s')) =>
              if truthy v
              then Some (Resolved (element array' i), (array', s'))
              else findAsync_loop asyncPredicate fuel' (Datatypes.S i)
                     array' s'
          | (Rejected e, st') => Some (Rejected e, st')
          end
      end
  end.

Definition findAsync (fuel : nat) (array : list value)
    (asyncPredicate : callback S) (s : S) : option (loop_result S) :=
  findAsync_loop asyncPredicate fuel 0 array s.

(** [if (await asyncPredicate(array[i], i, array)) { return i; }]
    and [return -1] past the loop. *)
Fixpoint findIndexAsync_loop (asyncPredicate : callback S) (fuel i : nat)
    (array : list value) (s : S) : option (loop_result S) :=
  match array !! i with
  | None => Some (Resolved (VNum (-1)), (array, s))
  | Some x =>
      match fuel with
      | O => None
      | Datatypes.S fuel' =>
          match asyncPredicate x i array s with
          | (Resolved v, (array', s')) =>
              if truthy v
              then Some (Resolved (VNum (Z.of_nat i)), (array', s'))
              else findIndexAsync_loop asyncPredicate fuel' (Datatypes.S i)
                     array' s'
          | (Rejected e, st') => Some (Rejected e, st')
          end
      end
  end.

Definition findIndexAsync (fuel : nat) (array : list value)
    (asyncPredicate : callback S) (s : S) : option (loop_result S) :=
  findIndexAsync_loop asyncPredicate fuel 0 array s.

(** [await asyncCallback(array[i], i, array);] for every index; the
    function returns nothing. *)
Fixpoint forEachAsync_loop (asyncCallback : callback S) (fuel i : nat)
    (array : list value) (s : S) : option (loop_result S) :=
  match array !! i with
  | None => Some (Resolved VUndefined, (array, s))
  | Some x =>
      match fuel with
      | O => None
      | Datatypes.S fuel' =>
          match asyncCallback x i array s with
          | (Resolved _, (array', s')) =>
              forEachAsync_loop asyncCallback fuel' (Datatypes.S i) array' s'
          | (Rejected e, st') => Some (Rejected e, st')
          end
      end
  end.

Definition forEachAsync (fuel : nat) (array : list value)
    (asyncCallback : callback S) (s : S) : option (loop_result S) :=
  forEachAsync_loop asyncCallback fuel 0 array s.

(** A callback that leaves the array it is given as it is. *)
Definition keeps_array (cb : callback S) : Prop :=
  forall x i array s, fst (snd (cb x i array s)) = array.

(** What a callback that keeps the array does at index [i], as an
    operation on the index and the world: the loops visit the indices in
    order, so invocation number [i] of this operation is the visit of
    index [i]. *)
Definition visit (cb : callback S) (array : list value)
  : operation (nat * S) :=
  fun st =>
    (fst (cb (element array (fst st)) (fst st) array (snd st)),
     (Datatypes.S (fst st),
      snd (snd (cb (element array (fst st)) (fst st) array (snd st))))).

(** [async (...a) => !(await asyncPredicate(...a))] *)
Definition negated (asyncPredicate : callback S) : callback S :=
  fun x i array s =>
    (match fst (asyncPredicate x i array s) with
     | Resolved v => Resolved (VBool (negb (truthy v)))
     | Rejected e => Rejected e
     end, snd (asyncPredicate x i array s)).

(** [async (x, i, array) => f(x, i)]: a callback that settles to a value
    computed from the element and the index, and touches nothing. *)
Definition pure_callback (f : value -> nat -> value) : callback S :=
  fun x i array s => (Resolved (f x i), (array, s)).

Definition pure_reducer (f : value -> value -> nat -> value) : reducer S :=
  fun acc x i array s => (Resolved (f acc x i), (array, s)).

End CollectionOperators.

(** The value a fulfilled outcome carries. *)
Definition outcome_value (r : outcome) : value :=
  match r with Resolved v => v | Rejected _ => VUndefined end.

(** [!b] on the boolean a loop resolved to; anything else is kept. *)
Definition negate_result {S : Type} (res : loop_result S) : loop_result S :=
  (match fst res with
   | Resolved (VBool b) => Resolved (VBool (negb b))
   | other => other
   end, snd res).

(** A callback that removes the last element of the array at each call. *)
Definition popping : callback nat :=
  fun x i array count =>
    (Resolved x, (take (length array - 1) array, Datatypes.S count)).

(** A callback that appends to the array at each call: the loop over it
    has no end. *)
Definition pushing : callback nat :=
  fun x i array count => (Resolved x, (array ++ [x], Datatypes.S count)).

(** What [forEachAsync] keeps of a result: a failure, or nothing. *)
Definition discard_result {S : Type} (res : loop_result S) : loop_result S :=
  (match fst res with
   | Resolved _ => Resolved VUndefined
   | Rejected e => Rejected e
   end, snd res).

(** From the index a search resolved to: the element at that index of the
    array the search left ([undefined] for -1), and whether there is one. *)
Definition at_index {S : Type} (res : loop_result S) : loop_result S :=
  (match fst res with
   | Resolved (VNum i) =>
       if i <? 0 then Resolved VUndefined
       else Resolved (element (fst (snd res)) (Z.to_nat i))
   | other => other
   end, snd res).

Definition found {S : Type} (res : loop_result S) : loop_result S :=
  (match fst res with
   | Resolved (VNum i) => Resolved (VBool (0 <=? i))
   | other => other
   end, snd res).

(** A visit that settles to a falsy value, and one that settles to a
    truthy value. *)
Definition declines (r : outcome) : bool :=
  match r with Resolved v => negb (truthy v) | Rejected _ => false end.

Definition accepts (r : outcome) : bool :=
  match r with Resolved v => truthy v | Rejected _ => false end.


(** A callback that always succeeds and hands back a longer array. *)
Definition grows_array {S : Type} (cb : callback S) : Prop :=
  forall x i array s,
    is_resolved (fst (cb x i array s)) = true /\
    (length array < length (fst (snd (cb x i array s))))%nat.

(** The callbacks of the tests: [async value => value * 2],
    [async value => value % 2 === 0], [async value => value > 2] and
    [async (acc, value) => acc + value], on numbers. *)
Definition times_two (x : value) (i : nat) : value :=
  match x with VNum n => VNum (n * 2) | _ => VNaN end.

Definition is_even (x : value) (i : nat) : value :=
  match x with VNum n => VBool (n mod 2 =? 0) | _ => VBool false end.

Definition above_two (x : value) (i : nat) : value :=
  match x with VNum n => VBool (2 <? n) | _ => VBool false end.

Definition plus (acc x : value) (i : nat) : value :=
  match acc, x with VNum a, VNum n => VNum (a + n) | _, _ => VNaN end.

(** ** timeout

    [setTimeout(() => reject(new Error('Operation timed out')), timeout)]
    is scheduled first and the operation is invoked next; the promise
    returned settles with whichever comes first, and among events of one
    instant the timer, scheduled first, comes first.  The operation is
    invoked in any case and is not stopped when the timer wins. *)

Definition operation_timed_out : value := VError "Operation timed out".

Module Timing.

Definition timeout {S : Type} (fn : timed_operation S) (ms : nat)
  : timed_operation S :=
  fun s =>
    let '((latency, r), s') := fn s in
    (if (latency <? firing_time ms)%nat then (latency, r)
     else (firing_time ms, Rejected operation_timed_out), s').

End Timing.

(** ** throttleAsync

    The wrapper lives in an event loop, as the debounced function does.
    Its state holds the clock ([Date.now()]), the three variables of the
    closure, the deferred executions that are scheduled, the timer
    callbacks suspended at [await executeFn(...)], the promises created
    with [new Promise] (numbered in creation order), the rejections of the
    timer callbacks and the world of the operation. *)

(** A scheduled deferred execution: when it is due, the arguments of the
    call that scheduled it and the promise its callback resolves. *)
Record deferred : Type := mkDeferred {
  deferred_due : nat;
  deferred_args : list value;
  deferred_promise : nat
}.

Record throttle_state (S : Type) : Type := mkThrottle {
  clock : nat;
  lastCallTime : nat;
  pendingPromise : option nat;
  pendingArgs : option (list value);
  scheduled : list deferred;
  executing : list awaiting;
  handed : list promise_state;
  failed : list (nat * value);
  throttle_world : S
}.

Arguments mkThrottle {S}.
Arguments clock {S}.
Arguments lastCallTime {S}.
Arguments pendingPromise {S}.
Arguments pendingArgs {S}.
Arguments scheduled {S}.
Arguments executing {S}.
Arguments handed {S}.
Arguments failed {S}.
Arguments throttle_world {S}.

(** What a call of the throttled function returns: the promise of an
    execution it started itself (with the time at which it settles), the
    pending promise after awaiting it, or the pending promise as it is. *)
Inductive reply : Type :=
  | Executed (settles : nat) (r : outcome)
  | Awaited (p : nat)
  | Shared (p : nat).

Section ThrottleAsync.
Context {S : Type}.
Variable fn : list value -> timed_operation S.
Variable interval : nat.

(** [throttleAsync(fn, interval)]: [lastCallTime = 0], nothing pending, in
    a loop whose clock shows [start]. *)
Definition throttleAsync (start : nat) (s : S) : throttle_state S :=
  mkThrottle start 0 None None [] [] [] [] s.

(** [now - lastCallTime], on numbers. *)
Definition elapsed (st : throttle_state S) : Z :=
  Z.of_nat (clock st) - Z.of_nat (lastCallTime st).

(** The throttled function.
    [if (now - lastCallTime >= interval) {
       if (pendingPromise) { const result = await pendingPromise;
                             pendingPromise = null; return result; }
       return executeFn(...args);
     } else {
       pendingArgs = args;
       if (!pendingPromise) { pendingPromise = new Promise(resolve => {
           setTimeout(callback, interval - (now - lastCallTime)); }); }
       return pendingPromise; }]
    with [executeFn]: [lastCallTime = Date.now(); return fn(...args);].
    The assignment after [await pendingPromise] runs right after the timer
    callback has set the same variable to [null] and resolved the promise:
    it changes nothing and is left out of the state. *)
Definition throttled (args : list value) (st : throttle_state S)
  : reply * throttle_state S :=
  if elapsed st >=? Z.of_nat interval then
    match pendingPromise st with
    | Some p => (Awaited p, st)
    | None =>
        let '((latency, r), w) := fn args (throttle_world st) in
        (Executed (clock st + latency) r,
         mkThrottle (clock st) (clock st) None (pendingArgs st)
           (scheduled st) (executing st) (handed st) (failed st) w)
    end
  else
    match pendingPromise st with
    | Some p =>
        (Shared p,
         mkThrottle (clock st) (lastCallTime st) (Some p) (Some args)
           (scheduled st) (executing st) (handed st) (failed st)
           (throttle_world st))
    | None =>
        let p := length (handed st) in
        (Shared p,
         mkThrottle (clock st) (lastCallTime st) (Some p) (Some args)
           (scheduled st ++
            [mkDeferred
               (clock st + Z.to_nat (Z.of_nat interval - elapsed st))
               args p])
           (executing st) (handed st ++ [Pending]) (failed st)
           (throttle_world st))
    end.

(** The rest of the timer callback once [executeFn] has settled:
    [pendingPromise = null; resolve(result);], or nothing when the [await]
    throws. *)
Definition throttle_resume (a : awaiting) (st : throttle_state S)
  : throttle_state S :=
  match awaited a with
  | Resolved v =>
      mkThrottle (clock st) (lastCallTime st) None (pendingArgs st)
        (scheduled st) (executing st)
        (resolve_promise (awaiting_promise a) v (handed st)) (failed st)
        (throttle_world st)
  | Rejected e =>
      mkThrottle (clock st) (lastCallTime st) (pendingPromise st)
        (pendingArgs st) (scheduled st) (executing st) (handed st)
        (failed st ++ [(awaiting_promise a, e)]) (throttle_world st)
  end.

(** The timer callback starts:
    [await executeFn(...(pendingArgs || args))]. *)
Definition throttle_fire (d : deferred) (st : throttle_state S)
  : throttle_state S :=
  let args := default (deferred_args d) (pendingArgs st) in
  let '((latency, r), w) := fn args (throttle_world st) in
  let st' :=
    mkThrottle (clock st) (clock st) (pendingPromise st) (pendingArgs st)
      (scheduled st) (executing st) (handed st) (failed st) w in
  match latency with
  | O => throttle_resume (mkAwaiting (clock st) r (deferred_promise d)) st'
  | Datatypes.S _ =>
      mkThrottle (clock st) (clock st) (pendingPromise st) (pendingArgs st)
        (scheduled st)
        (executing st ++
         [mkAwaiting (clock st + latency) r (deferred_promise d)])
        (handed st) (failed st) w
  end.

(** One millisecond passes. *)
Definition throttle_tick (st : throttle_state S) : throttle_state S :=
  let t := Datatypes.S (clock st) in
  let settled := filter (fun a => (settles_at a <= t)%nat) (executing st) in
  let suspended :=
    filter (fun a => ~ (settles_at a <= t)%nat) (executing st) in
  let st1 :=
    foldl (fun acc a => throttle_resume a acc)
      (mkThrottle t (lastCallTime st) (pendingPromise st) (pendingArgs st)
         (scheduled st) suspended (handed st) (failed st)
         (throttle_world st))
      settled in
  let due_now := filter (fun d => (deferred_due d <= t)%nat) (scheduled st1) in
  let later :=
    filter (fun d => ~ (deferred_due d <= t)%nat) (scheduled st1) in
  foldl (fun acc d => throttle_fire d acc)
    (mkThrottle (clock st1) (lastCallTime st1) (pendingPromise st1)
       (pendingArgs st1) later (executing st1) (handed st1) (failed st1)
       (throttle_world st1))
    due_now.

(** The loop on a list of events, with the replies to the calls in call
    order. *)
Fixpoint throttle_run (events : list event) (st : throttle_state S)
  : list reply * throttle_state S :=
  match events with
  | [] => ([], st)
  | Call args :: rest =>
      let '(r, st1) := throttled args st in
      let '(rs, st2) := throttle_run rest st1 in
      (r :: rs, st2)
  | Tick :: rest => throttle_run rest (throttle_tick st)
  end.

End ThrottleAsync.

(** The promises the deferred executions of a throttle state can still
    resolve. *)
Definition deferred_owners {S : Type} (st : throttle_state S) : list nat :=
  (deferred_promise <$> scheduled st) ++ (awaiting_promise <$> executing st).

(** The wrapper is wedged on promise [p]: [p] is the pending promise, it
    is not resolved and nothing is left that could resolve it. *)
Definition wedged {S : Type} (p : nat) (st : throttle_state S) : Prop :=
  pendingPromise st = Some p /\ handed st !! p = Some Pending /\
  scheduled st = [] /\ executing st = [].

(** The invariant of the throttle loop: the clock never runs behind
    [lastCallTime]; either nothing is pending, scheduled or running, or
    one deferred execution is scheduled or running for the pending
    promise, which is not resolved, or the wrapper is wedged. *)
Definition throttle_inv {S : Type} (st : throttle_state S) : Prop :=
  (lastCallTime st <= clock st)%nat /\
  ((pendingPromise st = None /\ deferred_owners st = [] /\ failed st = []) \/
   (exists p, pendingPromise st = Some p /\ deferred_owners st = [p] /\
              handed st !! p = Some Pending /\ failed st = []) \/
   (exists p, wedged p st /\ failed st <> [])).

(** A reply that hands out promise [p]. *)
Definition replies_with (p : nat) (r : reply) : bool :=
  match r with
  | Executed _ _ => false
  | Awaited q | Shared q => (q =? p)%nat
  end.

(** Shapes of the throttle loop: nothing pending; one deferred execution
    scheduled; one deferred execution running; and what the last leaves
    when it settles with [r]. *)
Definition th_idle {S : Type} (T last : nat) (pa : option (list value))
    (ps : list promise_state) (w : S) : throttle_state S :=
  mkThrottle T last None pa [] [] ps [] w.

Definition th_waiting {S : Type} (T last : nat) (args : list value)
    (d : deferred) (ps : list promise_state) (w : S) : throttle_state S :=
  mkThrottle T last (Some (deferred_promise d)) (Some args) [d] [] ps [] w.

Definition th_running {S : Type} (T last : nat) (args : list value)
    (a : awaiting) (ps : list promise_state) (w : S) : throttle_state S :=
  mkThrottle T last (Some (awaiting_promise a)) (Some args) [] [a] ps [] w.

Definition th_concluded {S : Type} (r : outcome) (p T last : nat)
    (args : list value) (ps : list promise_state) (w : S)
  : throttle_state S :=
  match r with
  | Resolved v =>
      mkThrottle T last None (Some args) [] [] (resolve_promise p v ps) [] w
  | Rejected e =>
      mkThrottle T last (Some p) (Some args) [] [] ps [(p, e)] w
  end.

(** * Properties *)

(** ** Invocation sequences *)

Section InvocationFacts.
Context {S : Type}.
Variable fn : operation S.

Lemma after_succ k (s : S) :
  after fn (Datatypes.S k) s = snd (fn (after fn k s)).
Proof.
  revert s; induction k as [|k IH]; intros s; [reflexivity|].
  change (after fn (Datatypes.S (Datatypes.S k)) s)
    with (after fn (Datatypes.S k) (snd (fn s))).
  now rewrite IH.
Qed.

Lemma attempt_shift (s : S) k :
  attempt fn (snd (fn s)) k = attempt fn s (Datatypes.S k).
Proof. reflexivity. Qed.

Lemma attempt_zero (s : S) : attempt fn s 0 = fst (fn s).
Proof. reflexivity. Qed.

(** Running the instrumented operation [k] times adds [k] to the counter
    and moves the world as the plain operation does. *)
Lemma after_counted k (s : S) c :
  after (counted fn) k (s, c) = (after fn k s, (c + k)%nat).
Proof.
  revert s c; induction k as [|k IH]; intros s c; simpl.
  - f_equal; lia.
  - rewrite IH. f_equal; lia.
Qed.

Lemma attempt_counted k (s : S) c :
  attempt (counted fn) (s, c) k = attempt fn s k.
Proof. unfold attempt. now rewrite after_counted. Qed.

End InvocationFacts.

(** ** retry *)

Section RetryFacts.
Context {S : Type}.
Variable fn : operation S.

(** What the loop of [retry] computes when [m >= 1] iterations remain:
    it stops at the first successful invocation, or after the [m]-th
    failure with that failure's reason. *)
Lemma retry_loop_spec retries m : forall fuel i (s : S),
  retries - i = Z.of_nat m -> (1 <= m)%nat -> (m <= fuel)%nat ->
  (exists k v, (k < m)%nat /\
     (forall j, (j < k)%nat -> is_rejected (attempt fn s j) = true) /\
     attempt fn s k = Resolved v /\
     retry_loop fn retries fuel i s
       = Some (Resolved v, after fn (Datatypes.S k) s))
  \/
  (exists e,
     (forall j, (j < m)%nat -> is_rejected (attempt fn s j) = true) /\
     attempt fn s (m - 1) = Rejected e /\
     retry_loop fn retries fuel i s = Some (Rejected e, after fn m s)).
Proof.
  induction m as [|m IH]; intros fuel i s Hm Hpos Hfuel; [lia|].
  destruct fuel as [|fuel]; [lia|].
  cbn [retry_loop].
  destruct (Z.ltb_spec i retries) as [_|?]; [|lia].
  destruct (fn s) as [r s1] eqn:Hfn.
  assert (H0 : attempt fn s 0 = r) by (rewrite attempt_zero, Hfn; reflexivity).
  assert (Hs1 : s1 = snd (fn s)) by (rewrite Hfn; reflexivity).
  destruct r as [v|e].
  - left. exists 0%nat, v. repeat split; [lia|intros; lia|exact H0|].
    simpl. now rewrite Hfn.
  - destruct (Z.eqb_spec i (retries - 1)) as [Hlast|Hnot].
    + right. exists e. assert (m = 0%nat) by lia. subst m.
      repeat split.
      * intros j Hj. assert (j = 0%nat) by lia. subst j. now rewrite H0.
      * exact H0.
      * simpl. now rewrite Hfn.
    + destruct (IH fuel (i + 1) s1) as [(k & v & Hk & Hrej & Hres & Hrun)
                                      |(e' & Hrej & Hlast & Hrun)];
        try lia.
      * left. exists (Datatypes.S k), v. subst s1. repeat split.
        -- lia.
        -- intros [|j] Hj; [now rewrite H0|].
           rewrite <- attempt_shift. apply Hrej. lia.
        -- now rewrite <- attempt_shift.
        -- exact Hrun.
      * right. exists e'. subst s1. repeat split.
        -- intros [|j] Hj; [now rewrite H0|].
           rewrite <- attempt_shift. apply Hrej. lia.
        -- replace (Datatypes.S m - 1)%nat with (Datatypes.S (m - 1)) by lia.
           now rewrite <- attempt_shift.
        -- exact Hrun.
Qed.

(** The fuel [retry] hands to its loop is enough: [retry] always returns. *)
Lemma retry_total retries (s : S) : is_Some (retry fn retries s).
Proof.
  unfold retry.
  destruct (Z.le_gt_cases retries 0) as [Hle|Hgt].
  - destruct (Z.to_nat retries); cbn [retry_loop];
      destruct (Z.ltb_spec 0 retries); try lia; eauto.
  - destruct (retry_loop_spec retries (Z.to_nat retries)
                (Z.to_nat retries) 0 s) as [(k & v & _ & _ & _ & ->)
                                           |(e & _ & _ & ->)];
      try lia; eauto.
Qed.

End RetryFacts.

(** C3.  For every operation and every [maxAttempts >= 1],
    [retry(operation, maxAttempts)] returns, and
    - it succeeds if and only if one of the first [maxAttempts] invocations
      of the operation succeeds,
    - when it succeeds its value is the result of the first successful
      invocation, all earlier ones having failed,
    - when all [maxAttempts] invocations fail it fails with exactly the
      reason of the last one,
    - the operation is invoked at most [maxAttempts] times: run on the
      instrumented operation from a counter at zero, the outcome and the
      world are the same and the counter ends at [c <= maxAttempts]. *)
Theorem retry_succeeds_iff_some_attempt_succeeds
    {S : Type} (fn : operation S) (maxAttempts : Z) (s : S) :
  1 <= maxAttempts ->
  exists r s' c,
    retry fn maxAttempts s = Some (r, s') /\
    retry (counted fn) maxAttempts (s, 0%nat) = Some (r, (s', c)) /\
    (c <= Z.to_nat maxAttempts)%nat /\
    (is_resolved r = true <->
       exists k, (k < Z.to_nat maxAttempts)%nat /\
                 is_resolved (attempt fn s k) = true) /\
    (forall v, r = Resolved v ->
       exists k, (k < Z.to_nat maxAttempts)%nat /\
                 attempt fn s k = Resolved v /\
                 forall j, (j < k)%nat -> is_rejected (attempt fn s j) = true) /\
    ((forall k, (k < Z.to_nat maxAttempts)%nat ->
                is_rejected (attempt fn s k) = true) ->
       is_rejected r = true /\
       r = attempt fn s (Z.to_nat maxAttempts - 1)).
Proof.
  intros Hpos. set (n := Z.to_nat maxAttempts).
  assert (Hn : maxAttempts - 0 = Z.of_nat n) by (unfold n; lia).
  assert (Hn1 : (1 <= n)%nat) by (unfold n; lia).
  unfold retry. fold n.
  destruct (retry_loop_spec (counted fn) maxAttempts n n 0 (s, 0%nat)
              Hn Hn1 (le_n n))
    as [(k & v & Hk & Hrej & Hres & Hrun)|(e & Hrej & Hlast & Hrun)];
  destruct (retry_loop_spec fn maxAttempts n n 0 s Hn Hn1 (le_n n))
    as [(k' & v' & Hk' & Hrej' & Hres' & Hrun')|(e' & Hrej' & Hlast' & Hrun')].
  - (* both runs stop at a success: the same one *)
    rewrite attempt_counted in Hres.
    assert (k = k').
    { destruct (Nat.lt_trichotomy k k') as [Hlt|[Heq|Hlt]]; [|exact Heq|].
      - specialize (Hrej' k Hlt). rewrite Hres in Hrej'. discriminate.
      - specialize (Hrej k' Hlt). rewrite attempt_counted, Hres' in Hrej.
        discriminate. }
    subst k'. assert (v' = v) by congruence. subst v'.
    exists (Resolved v), (after fn (Datatypes.S k) s), (Datatypes.S k).
    rewrite Hrun, Hrun', after_counted.
    split; [reflexivity|]. split; [f_equal; f_equal; f_equal; lia|].
    split; [lia|]. split; [split|split].
    + intros _. exists k. split; [exact Hk|]. now rewrite Hres.
    + reflexivity.
    + intros w Hw. injection Hw as <-. exists k. auto.
    + intros Hall. specialize (Hall k Hk). rewrite Hres in Hall. discriminate.
  - specialize (Hrej' k Hk). rewrite attempt_counted in Hres.
    rewrite Hres in Hrej'. discriminate.
  - specialize (Hrej k' Hk'). rewrite attempt_counted, Hres' in Hrej.
    discriminate.
  - rewrite attempt_counted in Hlast.
    assert (e' = e) by congruence. subst e'.
    exists (Rejected e), (after fn n s), n.
    rewrite Hrun, Hrun', after_counted.
    split; [reflexivity|]. split; [f_equal; f_equal; f_equal; lia|].
    split; [lia|]. split; [split|split].
    + discriminate.
    + intros (k & Hk & Hsucc). specialize (Hrej' k Hk).
      unfold is_rejected in Hrej'. rewrite Hsucc in Hrej'. discriminate.
    + discriminate.
    + intros _. split; [reflexivity|]. now rewrite Hlast.
Qed.

(** The hypothesis of C3 is met by the first test of [retry]: five
    attempts of an operation that succeeds on its third invocation. *)
Lemma retry_succeeds_iff_witness :
  1 <= 5 /\
  exists r s' c,
    retry succeeds_on_third 5 0%nat = Some (r, s') /\
    retry (counted succeeds_on_third) 5 (0%nat, 0%nat) = Some (r, (s', c)) /\
    (c <= Z.to_nat 5)%nat /\
    (is_resolved r = true <->
       exists k, (k < Z.to_nat 5)%nat /\
                 is_resolved (attempt succeeds_on_third 0%nat k) = true) /\
    (forall v, r = Resolved v ->
       exists k, (k < Z.to_nat 5)%nat /\
                 attempt succeeds_on_third 0%nat k = Resolved v /\
                 forall j, (j < k)%nat ->
                   is_rejected (attempt succeeds_on_third 0%nat j) = true) /\
    ((forall k, (k < Z.to_nat 5)%nat ->
                is_rejected (attempt succeeds_on_third 0%nat k) = true) ->
       is_rejected r = true /\
       r = attempt succeeds_on_third 0%nat (Z.to_nat 5 - 1)).
Proof.
  split; [lia|].
  apply (retry_succeeds_iff_some_attempt_succeeds succeeds_on_third 5 0%nat).
  lia.
Defined.

(** The two tests of [retry]. *)
Example retry_test_succeeds :
  retry succeeds_on_third 5 0%nat = Some (Resolved (VNum 3), 3%nat).
Proof. reflexivity. Qed.

Example retry_test_all_fail :
  retry (always_fails "Failed") 2 0%nat
  = Some (Rejected (VError "Failed"), 2%nat).
Proof. reflexivity. Qed.

(** ** retryWithDelay and retryWithBackoff *)

Section DelayedRetryFacts.
Context {S : Type}.
Variable fn : operation S.

(** With [m] iterations left, the loop of [retryWithDelay] stops at the
    first success or, after [m] failures, with the generic error; it has
    slept [delay] once per failure. *)
Lemma retryWithDelay_loop_spec maxRetries delay m :
  forall fuel retries (s : S) slept,
  Z.to_nat (maxRetries - retries) = m -> (m <= fuel)%nat ->
  (exists k v, (k < m)%nat /\
     (forall j, (j < k)%nat -> is_rejected (attempt fn s j) = true) /\
     attempt fn s k = Resolved v /\
     retryWithDelay_loop fn maxRetries delay fuel retries s slept
       = Some (Resolved v, after fn (Datatypes.S k) s,
               slept ++ replicate k delay))
  \/
  ((forall j, (j < m)%nat -> is_rejected (attempt fn s j) = true) /\
   retryWithDelay_loop fn maxRetries delay fuel retries s slept
     = Some (Rejected retry_limit_exceeded, after fn m s,
             slept ++ replicate m delay)).
Proof.
  induction m as [|m IH]; intros fuel retries s slept Hm Hfuel.
  - right. split; [intros; lia|].
    destruct fuel; cbn [retryWithDelay_loop];
      destruct (Z.ltb_spec retries maxRetries); try lia;
      now rewrite app_nil_r.
  - destruct fuel as [|fuel]; [lia|].
    cbn [retryWithDelay_loop].
    destruct (Z.ltb_spec retries maxRetries) as [_|?]; [|lia].
    destruct (fn s) as [r s1] eqn:Hfn.
    assert (H0 : attempt fn s 0 = r) by (rewrite attempt_zero, Hfn; reflexivity).
    assert (Hs1 : s1 = snd (fn s)) by (rewrite Hfn; reflexivity).
    destruct r as [v|e].
    + left. exists 0%nat, v. split; [lia|]. split; [intros; lia|].
      split; [exact H0|]. simpl. now rewrite Hfn, app_nil_r.
    + destruct (IH fuel (retries + 1) s1 (slept ++ [delay]))
        as [(k & v & Hk & Hrej & Hres & Hrun)|(Hrej & Hrun)]; try lia.
      * left. exists (Datatypes.S k), v. subst s1.
        split; [lia|]. split; [|split].
        -- intros [|j] Hj; [now rewrite H0|].
           rewrite <- attempt_shift. apply Hrej. lia.
        -- now rewrite <- attempt_shift.
        -- rewrite Hrun, <- app_assoc. reflexivity.
      * right. subst s1. split.
        -- intros [|j] Hj; [now rewrite H0|].
           rewrite <- attempt_shift. apply Hrej. lia.
        -- rewrite Hrun, <- app_assoc. reflexivity.
Qed.

(** The same for [retryWithBackoff], whose sleeps follow
    [backoff_delays]. *)
Lemma retryWithBackoff_loop_spec maxRetries maxDelay m :
  forall fuel retries delay (s : S) slept,
  Z.to_nat (maxRetries - retries) = m -> (m <= fuel)%nat ->
  (exists k v, (k < m)%nat /\
     (forall j, (j < k)%nat -> is_rejected (attempt fn s j) = true) /\
     attempt fn s k = Resolved v /\
     retryWithBackoff_loop fn maxRetries maxDelay fuel retries delay s slept
       = Some (Resolved v, after fn (Datatypes.S k) s,
               slept ++ backoff_delays maxDelay delay k))
  \/
  ((forall j, (j < m)%nat -> is_rejected (attempt fn s j) = true) /\
   retryWithBackoff_loop fn maxRetries maxDelay fuel retries delay s slept
     = Some (Rejected retry_limit_exceeded, after fn m s,
             slept ++ backoff_delays maxDelay delay m)).
Proof.
  induction m as [|m IH]; intros fuel retries delay s slept Hm Hfuel.
  - right. split; [intros; lia|].
    destruct fuel; cbn [retryWithBackoff_loop];
      destruct (Z.ltb_spec retries maxRetries); try lia;
      now rewrite app_nil_r.
  - destruct fuel as [|fuel]; [lia|].
    cbn [retryWithBackoff_loop].
    destruct (Z.ltb_spec retries maxRetries) as [_|?]; [|lia].
    destruct (fn s) as [r s1] eqn:Hfn.
    assert (H0 : attempt fn s 0 = r) by (rewrite attempt_zero, Hfn; reflexivity).
    assert (Hs1 : s1 = snd (fn s)) by (rewrite Hfn; reflexivity).
    destruct r as [v|e].
    + left. exists 0%nat, v. split; [lia|]. split; [intros; lia|].
      split; [exact H0|]. simpl. now rewrite Hfn, app_nil_r.
    + destruct (IH fuel (retries + 1) (Z.min (delay * 2) maxDelay) s1
                  (slept ++ [delay]))
        as [(k & v & Hk & Hrej & Hres & Hrun)|(Hrej & Hrun)]; try lia.
      * left. exists (Datatypes.S k), v. subst s1.
        split; [lia|]. split; [|split].
        -- intros [|j] Hj; [now rewrite H0|].
           rewrite <- attempt_shift. apply Hrej. lia.
        -- now rewrite <- attempt_shift.
        -- rewrite Hrun, <- app_assoc. reflexivity.
      * right. subst s1. split.
        -- intros [|j] Hj; [now rewrite H0|].
           rewrite <- attempt_shift. apply Hrej. lia.
        -- rewrite Hrun, <- app_assoc. reflexivity.
Qed.

Lemma retryWithDelay_total maxRetries delay (s : S) :
  is_Some (retryWithDelay fn maxRetries delay s).
Proof.
  unfold retryWithDelay.
  destruct (retryWithDelay_loop_spec maxRetries delay (Z.to_nat maxRetries)
              (Z.to_nat maxRetries) 0 s [])
    as [(k & v & _ & _ & _ & ->)|(_ & ->)]; eauto; f_equal; lia.
Qed.

Lemma retryWithBackoff_total maxRetries baseDelay maxDelay (s : S) :
  is_Some (retryWithBackoff fn maxRetries baseDelay maxDelay s).
Proof.
  unfold retryWithBackoff.
  destruct (retryWithBackoff_loop_spec maxRetries maxDelay
              (Z.to_nat maxRetries) (Z.to_nat maxRetries) 0 baseDelay s [])
    as [(k & v & _ & _ & _ & ->)|(_ & ->)]; eauto; f_equal; lia.
Qed.

End DelayedRetryFacts.

(** ** The delays of the backoff *)

Lemma backoff_delays_length maxDelay n :
  forall delay, length (backoff_delays maxDelay delay n) = n.
Proof.
  induction n as [|n IH]; intros delay; simpl; [|rewrite IH]; reflexivity.
Qed.

(** The first delay is the current one, whatever the ceiling. *)
Lemma backoff_delays_first maxDelay delay n :
  backoff_delays maxDelay delay (Datatypes.S n) !! 0%nat = Some delay.
Proof. reflexivity. Qed.

(** Each later delay is the previous one doubled and capped. *)
Lemma backoff_delays_next maxDelay n : forall delay k w,
  backoff_delays maxDelay delay n !! k = Some w ->
  (Datatypes.S k < n)%nat ->
  backoff_delays maxDelay delay n !! Datatypes.S k
  = Some (Z.min (w * 2) maxDelay).
Proof.
  induction n as [|n IH]; intros delay k w Hk Hlt; [lia|].
  destruct k as [|k].
  - injection Hk as <-. destruct n; [lia|]. reflexivity.
  - simpl in Hk |- *. apply IH; [exact Hk|lia].
Qed.

(** Closed form, for a base delay that respects the ceiling. *)
Lemma backoff_delays_lookup maxDelay n : forall delay k,
  delay <= maxDelay -> (k < n)%nat ->
  backoff_delays maxDelay delay n !! k
  = Some (Z.min (delay * 2 ^ Z.of_nat k) maxDelay).
Proof.
  induction n as [|n IH]; intros delay k Hle Hk; [lia|].
  destruct k as [|k].
  - simpl. f_equal. lia.
  - cbn [backoff_delays]. change ((?x :: ?l) !! Datatypes.S k) with (l !! k).
    rewrite IH by lia. f_equal.
    replace (2 ^ Z.of_nat (Datatypes.S k)) with (2 * 2 ^ Z.of_nat k)
      by (rewrite Nat2Z.inj_succ, Z.pow_succ_r by lia; reflexivity).
    assert (Hpow : 1 <= 2 ^ Z.of_nat k)
      by (pose proof (Z.pow_pos_nonneg 2 (Z.of_nat k)); lia).
    destruct (Z.le_gt_cases (delay * 2) maxDelay) as [Hsmall|Hbig].
    + rewrite (Z.min_l (delay * 2)) by lia. f_equal. lia.
    + rewrite (Z.min_r (delay * 2)) by lia.
      rewrite Z.min_r by nia. rewrite Z.min_r by nia. reflexivity.
Qed.

(** ** Zero attempts *)

(** C5.  With [maxAttempts = 0] none of the three functions invokes the
    operation (the counter of the instrumented operation stays at zero and
    the world is untouched).  [retryWithDelay] and [retryWithBackoff] fail
    at once with the generic error; [retry] does not fail: its loop body
    never runs and the function falls off its end, so the promise is
    fulfilled with [undefined]. *)
Theorem retry_zero_attempts {S : Type} (fn : operation S) (s : S)
    (delay baseDelay maxDelay : Z) :
  retry (counted fn) 0 (s, 0%nat) = Some (Resolved VUndefined, (s, 0%nat)) /\
  retry fn 0 s = Some (Resolved VUndefined, s) /\
  retryWithDelay (counted fn) 0 delay (s, 0%nat)
    = Some (Rejected retry_limit_exceeded, (s, 0%nat), []) /\
  retryWithBackoff (counted fn) 0 baseDelay maxDelay (s, 0%nat)
    = Some (Rejected retry_limit_exceeded, (s, 0%nat), []).
Proof. repeat split. Qed.

(** ** Exhaustion of the delayed variants *)

(** C7.  For every operation and every [maxAttempts >= 1], when the first
    [maxAttempts] invocations all fail, [retryWithDelay] and
    [retryWithBackoff] both fail with the generic "Retry limit exceeded"
    error, whatever the reasons of the underlying failures were, after
    exactly [maxAttempts] invocations. *)
Theorem delayed_retries_fail_with_generic_error
    {S : Type} (fn : operation S) (maxAttempts delay baseDelay maxDelay : Z)
    (s : S) :
  1 <= maxAttempts ->
  (forall k, (k < Z.to_nat maxAttempts)%nat ->
             is_rejected (attempt fn s k) = true) ->
  retryWithDelay fn maxAttempts delay s
    = Some (Rejected retry_limit_exceeded,
            after fn (Z.to_nat maxAttempts) s,
            replicate (Z.to_nat maxAttempts) delay) /\
  retryWithBackoff fn maxAttempts baseDelay maxDelay s
    = Some (Rejected retry_limit_exceeded,
            after fn (Z.to_nat maxAttempts) s,
            backoff_delays maxDelay baseDelay (Z.to_nat maxAttempts)).
Proof.
  intros _ Hall. set (n := Z.to_nat maxAttempts) in *.
  assert (Hn : Z.to_nat (maxAttempts - 0) = n) by (unfold n; f_equal; lia).
  split.
  - unfold retryWithDelay. fold n.
    destruct (retryWithDelay_loop_spec fn maxAttempts delay n n 0 s []
                Hn (le_n n))
      as [(k & v & Hk & _ & Hres & _)|(_ & ->)]; [|reflexivity].
    specialize (Hall k Hk). rewrite Hres in Hall. discriminate.
  - unfold retryWithBackoff. fold n.
    destruct (retryWithBackoff_loop_spec fn maxAttempts maxDelay n n 0
                baseDelay s [] Hn (le_n n))
      as [(k & v & Hk & _ & Hres & _)|(_ & ->)]; [|reflexivity].
    specialize (Hall k Hk). rewrite Hres in Hall. discriminate.
Qed.

(** The hypotheses of C7 at an operation that always fails with "boom",
    three attempts allowed. *)
Lemma delayed_retries_fail_witness :
  (1 <= 3 /\
   forall k, (k < Z.to_nat 3)%nat ->
             is_rejected (attempt (always_fails "boom") 0%nat k) = true) /\
  retryWithDelay (always_fails "boom") 3 100 0%nat
    = Some (Rejected retry_limit_exceeded,
            after (always_fails "boom") (Z.to_nat 3) 0%nat,
            replicate (Z.to_nat 3) 100) /\
  retryWithBackoff (always_fails "boom") 3 100 500 0%nat
    = Some (Rejected retry_limit_exceeded,
            after (always_fails "boom") (Z.to_nat 3) 0%nat,
            backoff_delays 500 100 (Z.to_nat 3)).
Proof.
  split.
  - split; [lia|]. intros k _. reflexivity.
  - apply (delayed_retries_fail_with_generic_error
             (always_fails "boom") 3 100 100 500 0%nat).
    + lia.
    + intros k _. reflexivity.
Defined.

(** ** The delays of retryWithBackoff *)

(** From the second wait on, the ceiling holds. *)
Lemma backoff_delays_later_capped maxDelay n : forall delay k w,
  backoff_delays maxDelay delay n !! Datatypes.S k = Some w -> w <= maxDelay.
Proof.
  induction n as [|n IH]; intros delay k w Hk; [discriminate|].
  cbn [backoff_delays] in Hk.
  change ((?x :: ?l) !! Datatypes.S k) with (l !! k) in Hk.
  destruct k as [|k].
  - destruct n as [|n]; [discriminate|]. injection Hk as <-. lia.
  - now apply IH in Hk.
Qed.

(** C8 on the code.  [retryWithBackoff] starts from [let delay =
    baseDelay] and applies the ceiling only when it doubles the delay
    ([delay = Math.min(delay * 2, maxDelay)], after each wait).  For every
    operation, [maxAttempts], [baseDelay] and [maxDelay] the function
    returns, with one wait per failed attempt; the first wait lasts
    [baseDelay] milliseconds whatever the ceiling is, every later wait is
    at most [maxDelay], and the waits follow the formula of the claim,
    [min(baseDelay * 2^(k-1), maxDelay)] for the wait after failed
    attempt [k], when [baseDelay <= maxDelay].  With a base delay of 1000
    ms and a maximum delay of 500 ms, the function waits 1000 ms after
    the first failure, twice the maximum, where the formula gives
    [min(1000 * 2^0, 500) = 500]; the second and third waits are 500. *)
Theorem backoff_first_wait_exceeds_ceiling :
  (forall (S : Type) (fn : operation S) (maxAttempts baseDelay maxDelay : Z)
          (s : S),
     exists r s' waits,
       retryWithBackoff fn maxAttempts baseDelay maxDelay s
         = Some (r, s', waits) /\
       (length waits <= Z.to_nat maxAttempts)%nat /\
       (forall j, (j < length waits)%nat ->
                  is_rejected (attempt fn s j) = true) /\
       (is_resolved r = true -> attempt fn s (length waits) = r) /\
       (is_rejected r = true -> length waits = Z.to_nat maxAttempts) /\
       (forall w, waits !! 0%nat = Some w -> w = baseDelay) /\
       (forall k w, waits !! Datatypes.S k = Some w -> w <= maxDelay) /\
       (baseDelay <= maxDelay ->
        forall k, (1 <= k <= length waits)%nat ->
          waits !! (k - 1)%nat
          = Some (Z.min (baseDelay * 2 ^ (Z.of_nat k - 1)) maxDelay))) /\
  retryWithBackoff (always_fails "boom") 1 1000 500 0%nat
    = Some (Rejected retry_limit_exceeded, 1%nat, [1000]) /\
  retryWithBackoff (always_fails "boom") 3 1000 500 0%nat
    = Some (Rejected retry_limit_exceeded, 3%nat, [1000; 500; 500]) /\
  Z.min (1000 * 2 ^ (1 - 1)) 500 = 500.
Proof.
  split; [|split; [reflexivity|split; reflexivity]].
  intros S fn maxAttempts baseDelay maxDelay s.
  set (n := Z.to_nat maxAttempts).
  assert (Hn : Z.to_nat (maxAttempts - 0) = n) by (unfold n; f_equal; lia).
  assert (Hfirst : forall m w,
            backoff_delays maxDelay baseDelay m !! 0%nat = Some w ->
            w = baseDelay).
  { intros [|m] w Hw; [discriminate|]. now injection Hw as <-. }
  assert (Hwait : baseDelay <= maxDelay -> forall m k, (1 <= k <= m)%nat ->
            backoff_delays maxDelay baseDelay m !! (k - 1)%nat
            = Some (Z.min (baseDelay * 2 ^ (Z.of_nat k - 1)) maxDelay)).
  { intros Hle m k Hk. rewrite backoff_delays_lookup by lia.
    replace (Z.of_nat (k - 1)) with (Z.of_nat k - 1) by lia. reflexivity. }
  unfold retryWithBackoff. fold n.
  destruct (retryWithBackoff_loop_spec fn maxAttempts maxDelay n n 0
              baseDelay s [] Hn (le_n n))
    as [(k & v & Hk & Hrej & Hres & ->)|(Hrej & ->)];
    eexists _, _, _; (split; [reflexivity|]);
    cbn [app]; rewrite backoff_delays_length.
  - split; [lia|]. split; [exact Hrej|]. split; [intros _; exact Hres|].
    split; [discriminate|]. split; [apply Hfirst|].
    split; [apply backoff_delays_later_capped|].
    intros Hle. now apply Hwait.
  - split; [lia|]. split; [exact Hrej|]. split; [discriminate|].
    split; [reflexivity|]. split; [apply Hfirst|].
    split; [apply backoff_delays_later_capped|].
    intros Hle. now apply Hwait.
Qed.

(** The tests of the delayed variants, with the delays they await. *)
Example retryWithBackoff_test :
  retryWithBackoff succeeds_on_third 3 100 500 0%nat
  = Some (Resolved (VNum 3), 3%nat, [100; 200]).
Proof. reflexivity. Qed.

Example retryWithDelay_test :
  retryWithDelay succeeds_on_third 3 100 0%nat
  = Some (Resolved (VNum 3), 3%nat, [100; 100]).
Proof. reflexivity. Qed.

(** ** memoizeAsync *)

Section MemoizeFacts.
Context {S : Type}.
Variable stringify : list value -> string.
Variable fn : list value -> S -> invocation outcome * S.

(** A call whose key is in the cache returns the stored deferred result
    and changes nothing: neither the cache nor the world, so [fn] did not
    run. *)
Lemma memoized_hit args (st : memo_state) promise :
  fst st !! stringify args = Some promise ->
  memoized stringify fn args st = (promise, st).
Proof.
  intros Hin. unfold memoized. rewrite Hin. cbn. rewrite Hin.
  now destruct st.
Qed.

(** A call whose key is absent invokes [fn] once; when [fn] returns a
    promise, it is stored and returned. *)
Lemma memoized_miss args (st : memo_state) promise s' :
  fst st !! stringify args = None ->
  fn args (snd st) = (Returns promise, s') ->
  memoized stringify fn args st
  = (promise, (<[stringify args := promise]> (fst st), s')).
Proof.
  intros Hout Hfn. unfold memoized. rewrite Hout, Hfn.
  now rewrite lookup_insert_eq.
Qed.

(** When [fn] throws, the wrapper rejects with the error and the cache is
    as it was. *)
Lemma memoized_throw args (st : memo_state) error s' :
  fst st !! stringify args = None ->
  fn args (snd st) = (Throws error, s') ->
  memoized stringify fn args st = (Rejected error, (fst st, s')).
Proof. intros Hout Hfn. unfold memoized. now rewrite Hout, Hfn. Qed.



End MemoizeFacts.


Lemma tallied_returns {S : Type}
    (f : list value -> S -> invocation outcome * S) args s c t promise s' :
  f args s = (Returns promise, s') ->
  tallied f args (s, (c, t)) = (Returns promise, (s', (Datatypes.S c, t))).
Proof. intros Hf. unfold tallied. cbn [fst snd]. now rewrite Hf. Qed.

Lemma tallied_throws {S : Type}
    (f : list value -> S -> invocation outcome * S) args s c t error s' :
  f args s = (Throws error, s') ->
  tallied f args (s, (c, t))
  = (Throws error, (s', (Datatypes.S c, Datatypes.S t))).
Proof. intros Hf. unfold tallied. cbn [fst snd]. now rewrite Hf. Qed.



(** The key of the test is the JSON text of the argument array. *)
Example JSON_stringify_test :
  JSON_stringify [VNum 2] = "[2]" /\
  JSON_stringify [VUndefined; VStr "a"; VArr [VNum (-1); VBool true]]
  = String.concat json_quote ["[null,"; "a"; ",[-1,true]]"].
Proof. split; vm_compute; reflexivity. Qed.




(** Different arguments can share a key: [undefined] and [null] both
    serialize to [null], so a rejection cached for one is returned for the
    other. *)
Example memoized_key_collision :
  memoized_calls JSON_stringify (async rejecting) [[VUndefined]; [VNull]]
    (memoizeAsync 0%nat)
  = ([Rejected VUndefined; Rejected VUndefined],
     ({[ "[null]" := Rejected VUndefined ]}, 1%nat)).
Proof. vm_compute. reflexivity. Qed.

(** ** batch *)

(** The loop of [batch] cuts the operations from index [i] on into
    consecutive groups of at least one and at most [batchSize] elements. *)
Lemma batches_loop_spec {A : Type} (fns : list A) (batchSize : Z) :
  1 <= batchSize ->
  forall fuel i acc,
  0 <= i -> (Z.to_nat (Z.of_nat (length fns) - i) <= fuel)%nat ->
  exists groups,
    batches_loop fns batchSize fuel i acc = Some (acc ++ groups) /\
    concat groups = drop (Z.to_nat i) fns /\
    Forall (fun g => 1 <= Z.of_nat (length g) <= batchSize) groups.
Proof.
  intros Hsize. induction fuel as [|fuel IH]; intros i acc Hi Hfuel.
  - exists []. cbn [batches_loop].
    destruct (Z.ltb_spec i (Z.of_nat (length fns))); [lia|].
    rewrite app_nil_r. split; [reflexivity|]. split; [|constructor].
    rewrite drop_ge by lia. reflexivity.
  - cbn [batches_loop].
    destruct (Z.ltb_spec i (Z.of_nat (length fns))) as [Hlt|Hge].
    + destruct (IH (i + batchSize) (acc ++ [slice fns i (i + batchSize)]))
        as (groups & Hrun & Hcat & Hall); try lia.
      exists (slice fns i (i + batchSize) :: groups).
      rewrite Hrun, <- app_assoc. split; [reflexivity|].
      assert (Hslice : slice fns i (i + batchSize)
                = take (Z.to_nat batchSize) (drop (Z.to_nat i) fns)).
      { unfold slice, relative_index.
        destruct (Z.ltb_spec i 0); [lia|].
        destruct (Z.ltb_spec (i + batchSize) 0); [lia|].
        rewrite (Z.min_l i) by lia.
        destruct (Z.le_gt_cases (i + batchSize) (Z.of_nat (length fns))).
        - rewrite Z.min_l by lia. f_equal. lia.
        - rewrite Z.min_r by lia.
          rewrite !take_ge; [reflexivity| |]; rewrite length_drop; lia. }
      rewrite Hslice. split.
      * cbn [concat]. rewrite Hcat.
        replace (Z.to_nat (i + batchSize))
          with (Z.to_nat i + Z.to_nat batchSize)%nat by lia.
        rewrite <- drop_drop. apply take_drop.
      * constructor; [|exact Hall].
        rewrite length_take, length_drop. lia.
    + exists []. rewrite app_nil_r. split; [reflexivity|].
      split; [|constructor]. rewrite drop_ge by lia. reflexivity.
Qed.

Lemma first_rejection_plain ps :
  Forall (fun p => plain_result p = true) ps -> first_rejection ps = None.
Proof.
  induction 1 as [|[t [v|e]] ps Hp _ IH]; [reflexivity|exact IH|discriminate].
Qed.

Lemma flat_plain ps :
  Forall (fun p => plain_result p = true) ps ->
  flat (map fulfilled_value ps) = map fulfilled_value ps.
Proof.
  induction 1 as [|[t r] ps Hp _ IH]; [reflexivity|].
  unfold flat in *. cbn [map concat]. rewrite IH.
  unfold plain_result, fulfilled_value in *. cbn [snd] in *.
  destruct r as [[]|]; try discriminate; reflexivity.
Qed.

(** One level of [flat] undoes the grouping. *)
Lemma flat_groups (groups : list (list value)) :
  flat (map VArr groups) = concat groups.
Proof.
  unfold flat. rewrite map_map. induction groups as [|g groups IH];
    [reflexivity|]. cbn [map concat]. now rewrite IH.
Qed.

Section BatchFacts.
Context {S : Type}.

Lemma invoke_all_app (fns1 fns2 : list (callable S)) (s : S) :
  invoke_all (fns1 ++ fns2) s
  = match invoke_all fns1 s with
    | (Throws error, s1) => (Throws error, s1)
    | (Returns ps, s1) =>
        match invoke_all fns2 s1 with
        | (Throws error, s2) => (Throws error, s2)
        | (Returns qs, s2) => (Returns (ps ++ qs), s2)
        end
    end.
Proof.
  revert s; induction fns1 as [|fn fns1 IH]; intros s.
  - cbn. now destruct (invoke_all fns2 s) as [[qs|e] s2].
  - cbn [app invoke_all]. destruct (fn s) as [[p|e] s1]; [|reflexivity].
    rewrite IH. destruct (invoke_all fns1 s1) as [[ps|e] s2]; [|reflexivity].
    now destruct (invoke_all fns2 s2) as [[qs|e] s3].
Qed.

Lemma invoke_all_length (fns : list (callable S)) : forall s ps s',
  invoke_all fns s = (Returns ps, s') -> length ps = length fns.
Proof.
  induction fns as [|fn fns IH]; intros s ps s' Hrun.
  - cbn in Hrun. now injection Hrun as <- _.
  - cbn [invoke_all] in Hrun. destruct (fn s) as [[p|e] s1]; [|discriminate].
    destruct (invoke_all fns s1) as [[qs|e] s2] eqn:Hrest; [|discriminate].
    injection Hrun as <- _. cbn [length]. f_equal. now apply (IH s1 qs s2).
Qed.

(** The grouping does not change which operation throws first, nor the
    world it leaves: no operation after it is invoked, in its group or in
    a later one. *)
Lemma launch_batches_throws (groups : list (list (callable S))) :
  forall s error s',
  invoke_all (concat groups) s = (Throws error, s') ->
  launch_batches groups s = (Throws error, s').
Proof.
  induction groups as [|g groups IH]; intros s error s' Hrun;
    [discriminate|].
  cbn [concat] in Hrun. rewrite invoke_all_app in Hrun.
  cbn [launch_batches].
  destruct (invoke_all g s) as [[ps|e] s1]; [|exact Hrun].
  destruct (invoke_all (concat groups) s1) as [[qs|e] s2] eqn:Hrest;
    [discriminate|].
  injection Hrun as <- <-. now rewrite (IH s1 e s2 Hrest).
Qed.

(** Launching the groups invokes the operations in input order; when all
    of them resolve to plain values, every group resolves to the array of
    its values. *)
Lemma launch_batches_plain (groups : list (list (callable S))) :
  forall s ps s',
  invoke_all (concat groups) s = (Returns ps, s') ->
  Forall (fun p => plain_result p = true) ps ->
  exists times values,
    launch_batches groups s
    = (Returns (zip_with (fun t vs => (t, Resolved (VArr vs))) times values),
       s') /\
    length times = length values /\
    concat values = map fulfilled_value ps.
Proof.
  induction groups as [|g groups IH]; intros s ps s' Hrun Hplain.
  - cbn in Hrun. injection Hrun as <- <-. exists [], [].
    split; [reflexivity|]. split; reflexivity.
  - cbn [concat] in Hrun. rewrite invoke_all_app in Hrun.
    cbn [launch_batches].
    destruct (invoke_all g s) as [[gs|e] s1]; [|discriminate].
    destruct (invoke_all (concat groups) s1) as [[qs|e] s2] eqn:Hrest;
      [|discriminate].
    injection Hrun as <- <-.
    apply Forall_app in Hplain as [Hg Hqs].
    destruct (IH s1 qs s2 Hrest Hqs) as (times & values & -> & Hlen & Hcat).
    exists (foldr Nat.max 0%nat (map fst gs) :: times),
           (map fulfilled_value gs :: values).
    split; [|split].
    + cbn [zip_with]. do 3 f_equal.
      unfold Promise_all. rewrite first_rejection_plain by exact Hg.
      unfold then_. cbn [snd fst flat_value]. now rewrite flat_plain.
    + cbn [length]. now rewrite Hlen.
    + cbn [concat]. now rewrite Hcat, map_app.
Qed.

End BatchFacts.

Lemma first_rejection_fulfilled (times : list nat) : forall values,
  first_rejection (zip_with (fun t vs => (t, Resolved (VArr vs))) times values)
  = None.
Proof.
  induction times as [|t times IH]; intros [|vs values]; try reflexivity.
  cbn [zip_with first_rejection]. apply IH.
Qed.

Lemma fulfilled_values_zip (times : list nat) : forall values,
  length times = length values ->
  map fulfilled_value
      (zip_with (fun t vs => (t, Resolved (VArr vs))) times values)
  = map VArr values.
Proof.
  induction times as [|t times IH]; intros [|vs values] Hlen;
    try discriminate; [reflexivity|].
  cbn [zip_with map]. rewrite IH by (cbn in Hlen; lia). reflexivity.
Qed.

(** The groups the loop of [batch] cuts, for [batchSize >= 1]. *)
Lemma batch_groups {A : Type} (fns : list A) (batchSize : Z) :
  1 <= batchSize ->
  exists groups,
    batches_loop fns batchSize (length fns) 0 [] = Some groups /\
    concat groups = fns /\
    Forall (fun g => 1 <= Z.of_nat (length g) <= batchSize) groups.
Proof.
  intros Hsize.
  destruct (batches_loop_spec fns batchSize Hsize (length fns) 0 [])
    as (groups & Hloop & Hcat & Hall); try lia.
  change (drop (Z.to_nat 0) fns) with fns in Hcat. cbn [app] in Hloop.
  exists groups. auto.
Qed.

(** What [batch] does by design.  For every list of operations that all
    return a promise that resolves to a value that is not an array, and
    every [batchSize >= 1]: the operations are cut into consecutive groups
    of at most [batchSize], all are invoked, in input order, and [batch]
    resolves with one result per operation, in input order, whatever the
    times at which the operations settle. *)
Lemma batch_plain_results {S : Type} (fns : list (callable S))
    (batchSize : Z) (s s' : S) (ps : list promise) :
  1 <= batchSize ->
  invoke_all fns s = (Returns ps, s') ->
  Forall (fun p => plain_result p = true) ps ->
  (exists groups,
     batches_loop fns batchSize (length fns) 0 [] = Some groups /\
     concat groups = fns /\
     Forall (fun g => 1 <= Z.of_nat (length g) <= batchSize) groups) /\
  exists t results,
    batch fns batchSize s = Some ((t, Resolved (VArr results)), s') /\
    results = map fulfilled_value ps /\
    length results = length fns.
Proof.
  intros Hsize Hrun Hplain.
  destruct (batch_groups fns batchSize Hsize) as (groups & Hloop & Hcat & Hall).
  split; [exists groups; auto|].
  unfold batch. rewrite Hloop. rewrite <- Hcat in Hrun.
  destruct (launch_batches_plain groups s ps s' Hrun Hplain)
    as (times & values & -> & Hlen & Hvalues).
  exists (foldr Nat.max 0%nat
            (map fst (zip_with (fun t vs => (t, Resolved (VArr vs)))
                               times values))),
         (map fulfilled_value ps).
  split; [|split; [reflexivity|]].
  - f_equal. f_equal. unfold Promise_all.
    rewrite first_rejection_fulfilled. unfold then_. cbn [snd fst flat_value].
    rewrite fulfilled_values_zip by exact Hlen.
    now rewrite flat_groups, Hvalues.
  - rewrite length_map. rewrite Hcat in Hrun.
    now apply (invoke_all_length fns s ps s').
Qed.

(** An operation that throws makes [batch] reject with the error at once,
    and no operation after it is invoked. *)
Lemma batch_throws {S : Type} (fns : list (callable S)) (batchSize : Z)
    (s s' : S) (error : value) :
  1 <= batchSize ->
  invoke_all fns s = (Throws error, s') ->
  batch fns batchSize s = Some ((0%nat, Rejected error), s').
Proof.
  intros Hsize Hrun.
  destruct (batch_groups fns batchSize Hsize) as (groups & Hloop & Hcat & _).
  unfold batch. rewrite Hloop. rewrite <- Hcat in Hrun.
  now rewrite (launch_batches_throws groups s error s' Hrun).
Qed.

(** The example of the specification: [f1], [f2], [f3] resolve to 'a',
    'b', 'c' and settle in the order [f2], [f3], [f1]; with groups of two
    the result is ['a','b','c'] and the operations were invoked in input
    order. *)
Example batch_abc :
  batch [returning (resolves_to "f1" 30 (VStr "a"));
         returning (resolves_to "f2" 10 (VStr "b"));
         returning (resolves_to "f3" 20 (VStr "c"))] 2 []
  = Some ((30%nat, Resolved (VArr [VStr "a"; VStr "b"; VStr "c"])),
          ["f1"; "f2"; "f3"]).
Proof. reflexivity. Qed.

(** An operation that rejects makes [batch] reject with its reason, as
    [Promise.all] does; one that throws makes it reject at once, and the
    operations after it are not invoked. *)
Example batch_rejects :
  batch [returning (resolves_to "f1" 30 (VStr "a"));
         returning (rejects_with "f2" 10 (VStr "no"));
         returning (resolves_to "f3" 20 (VStr "c"))] 2 []
  = Some ((10%nat, Rejected (VStr "no")), ["f1"; "f2"; "f3"]) /\
  batch [returning (resolves_to "f1" 30 (VStr "a"));
         throws "f2" (VStr "no");
         returning (resolves_to "f3" 20 (VStr "c"))] 2 []
  = Some ((0%nat, Rejected (VStr "no")), ["f1"; "f2"]).
Proof. split; reflexivity. Qed.

(** C4 at operations that resolve to arrays.  The callback
    [batchResults => batchResults.flat()] splices every array-valued
    result into the results of its group, so the result of [batch] no
    longer has one entry per operation: a single operation that resolves
    to ['a','b'] yields the two results 'a' and 'b' instead of the one
    result ['a','b'], and of two operations resolving to the empty array
    and to 'b' only the result 'b' is left. *)
Theorem batch_flattens_array_results :
  batch [returning (resolves_to "f1" 0 (VArr [VStr "a"; VStr "b"]))] 1 []
    = Some ((0%nat, Resolved (VArr [VStr "a"; VStr "b"])), ["f1"]) /\
  batch [returning (resolves_to "f1" 0 (VArr []));
         returning (resolves_to "f2" 0 (VStr "b"))] 2 []
    = Some ((0%nat, Resolved (VArr [VStr "b"])), ["f1"; "f2"]) /\
  fst (invoke_all
         [returning (resolves_to "f1" 0 (VArr [VStr "a"; VStr "b"]))] [])
    = Returns [(0%nat, Resolved (VArr [VStr "a"; VStr "b"]))].
Proof. repeat split. Qed.

(** ** circuitBreaker *)

Section CircuitBreakerFacts.
Context {S : Type}.
Variable asyncOperation : operation S.
Variable maxFailures : Z.
Variable cooldownPeriod : Z.

(** Every call starts from fresh variables, so the guard is never taken:
    the call invokes the operation and returns its outcome. *)
Lemma circuitBreaker_passes_through (s : S) :
  fst (fst (fst (circuitBreaker asyncOperation maxFailures cooldownPeriod s)))
    = fst (asyncOperation s) /\
  snd (circuitBreaker asyncOperation maxFailures cooldownPeriod s)
    = snd (asyncOperation s).
Proof.
  unfold circuitBreaker, breaker_body. cbn [circuitOpen failures].
  destruct (asyncOperation s) as [[v|e] s']; [split; reflexivity|].
  destruct (0 + 1 >=? maxFailures); split; reflexivity.
Qed.

(** [n] successive calls invoke the operation [n] times and return the
    outcomes of these invocations. *)
Lemma circuitBreaker_calls_spec n : forall (s : S),
  circuitBreaker_calls asyncOperation maxFailures cooldownPeriod n s
  = (map (attempt asyncOperation s) (seq 0 n), after asyncOperation n s).
Proof.
  induction n as [|n IH]; intros s; [reflexivity|].
  cbn [circuitBreaker_calls].
  pose proof (circuitBreaker_passes_through s) as [Hout Hworld].
  destruct (circuitBreaker asyncOperation maxFailures cooldownPeriod s)
    as [[[r b] timers] s1].
  cbn [fst snd] in Hout, Hworld. subst r s1. rewrite IH.
  cbn [seq map after]. f_equal. f_equal.
  rewrite <- seq_shift, map_map. apply map_ext. intros k.
  apply attempt_shift.
Qed.

End CircuitBreakerFacts.

(** C1 on the code.  [circuitBreaker(op, maxFailures, cooldown)] does not
    produce a wrapper that remembers failures: for every operation each
    call invokes it and returns its outcome.  With an operation that
    always fails, [maxFailures = 3] and a cooldown of 1000 ms, the fourth
    call in a row, made at once after three failed ones, invokes the
    operation a fourth time and rejects with the operation's error, not
    with "Circuit is open". *)
Theorem circuitBreaker_never_opens :
  (forall (S : Type) (op : operation S) (maxFailures cooldown : Z)
          (n : nat) (s : S),
     circuitBreaker_calls (counted op) maxFailures cooldown n (s, 0%nat)
     = (map (attempt op s) (seq 0 n), (after op n s, n))) /\
  circuitBreaker_calls (always_fails "boom") 3 1000 4 0%nat
  = ([Rejected (VError "boom"); Rejected (VError "boom");
      Rejected (VError "boom"); Rejected (VError "boom")], 4%nat).
Proof.
  split; [|reflexivity].
  intros S op maxFailures cooldown n s.
  rewrite circuitBreaker_calls_spec, after_counted. f_equal.
  apply map_ext. intros k. apply attempt_counted.
Qed.

(** The guarded function itself, run again on the variables a failure
    left behind, would refuse the call: the breaker is lost only because
    no second run ever sees those variables. *)
Example breaker_body_shared_state :
  let '(_, b, timers, s) :=
    breaker_body (always_fails "boom") 1 1000 (mkBreaker 0 false) 0%nat in
  timers = [1000] /\
  breaker_body (always_fails "boom") 1 1000 b s
  = (Rejected circuit_is_open, mkBreaker 1 true, [], 1%nat).
Proof. split; reflexivity. Qed.

(** ** debounceAsync *)

Lemma resolve_promise_ne p q v ps :
  p <> q -> resolve_promise q v ps !! p = ps !! p.
Proof.
  intros Hne. unfold resolve_promise.
  destruct (ps !! q) as [[]|]; try reflexivity.
  apply list_lookup_insert_ne. congruence.
Qed.

Lemma resolve_promise_pending q v ps :
  ps !! q = Some Pending -> resolve_promise q v ps !! q = Some (Fulfilled v).
Proof.
  intros Hq. unfold resolve_promise. rewrite Hq.
  apply list_lookup_insert_eq. now apply lookup_lt_is_Some; eauto.
Qed.

Lemma resolve_promise_length q v ps :
  length (resolve_promise q v ps) = length ps.
Proof.
  unfold resolve_promise. destruct (ps !! q) as [[]|]; try reflexivity.
  apply length_insert.
Qed.

Lemma resolve_promise_none_rejected q v ps :
  none_rejected ps -> none_rejected (resolve_promise q v ps).
Proof.
  intros Hps p e. destruct (decide (p = q)) as [->|Hne].
  - unfold resolve_promise. destruct (ps !! q) as [[]|] eqn:Hq;
      try (rewrite Hq; discriminate); try apply Hps.
    rewrite list_lookup_insert_eq; [discriminate|].
    apply lookup_lt_is_Some; eauto.
  - rewrite resolve_promise_ne by exact Hne. apply Hps.
Qed.

Section LoopInvariant.
Context {S : Type}.
Variable fn : list value -> timed_operation S.
Variable delay : nat.

(** The invariant only looks at the owners up to their order, at the
    promises and at the failed callbacks. *)
Lemma loop_inv_transfer orphans extra1 extra2 (st1 st2 : loop_state S) :
  extra1 ++ owners st1 ≡ₚ extra2 ++ owners st2 ->
  promises st1 = promises st2 ->
  unhandled st1 = unhandled st2 ->
  loop_inv orphans extra1 st1 -> loop_inv orphans extra2 st2.
Proof.
  intros Hperm Hps Hun (Hnd & Hown & Horph). unfold loop_inv.
  rewrite <- Hps, <- Hun. split; [now rewrite <- Hperm|]. split.
  - intros p Hp. apply Hown. now rewrite Hperm.
  - intros p Hp. destruct (Horph p Hp) as [Hpend Hout]. split; [exact Hpend|].
    now rewrite <- Hperm.
Qed.

Lemma loop_inv_initial orphans (s : S) :
  orphans = [] -> loop_inv orphans [] (debounceAsync s).
Proof.
  intros ->. unfold loop_inv, debounceAsync, owners. cbn.
  split; [constructor|]. split.
  - intros p Hp. now apply elem_of_nil in Hp.
  - intros p [Hp|Hp]; now apply elem_of_nil in Hp.
Qed.

(** Resuming a suspended callback keeps the invariant: it resolves its
    own promise, or fails and leaves it pending for good. *)
Lemma resume_inv orphans extra a (st : loop_state S) :
  loop_inv orphans (awaiting_promise a :: extra) st ->
  loop_inv orphans extra (resume a st).
Proof.
  intros (Hnd & Hown & Horph). cbn [app] in *.
  apply NoDup_cons in Hnd as [Hfresh Hnd].
  unfold resume. destruct (awaited a) as [v|e]; unfold loop_inv, owners in *;
    cbn [timeouts in_flight promises unhandled] in *.
  - split; [exact Hnd|]. split.
    + intros p Hp. rewrite resolve_promise_ne by (intros ->; contradiction).
      apply Hown. now right.
    + intros p Hp. destruct (Horph p Hp) as [Hpend Hout].
      rewrite not_elem_of_cons in Hout. destruct Hout as [Hne Hout].
      split; [|exact Hout]. now rewrite resolve_promise_ne.
  - split; [exact Hnd|]. split.
    + intros p Hp. apply Hown. now right.
    + intros p Hp.
      assert (Hcases : (p ∈ orphans \/ p ∈ (fst <$> unhandled st))
                       \/ p = awaiting_promise a).
      { destruct Hp as [Hp|Hp]; [left; now left|].
        rewrite fmap_app, elem_of_app in Hp. destruct Hp as [Hp|Hp].
        - left. now right.
        - right. cbn in Hp. now apply list_elem_of_singleton in Hp. }
      destruct Hcases as [Hold| ->].
      * destruct (Horph p Hold) as [Hpend Hout].
        rewrite not_elem_of_cons in Hout. now destruct Hout.
      * split; [|exact Hfresh]. apply Hown. now left.
Qed.

(** Firing a timeout keeps the invariant: the callback resumes at once or
    joins the suspended ones with its promise. *)
Lemma fire_inv orphans extra t (st : loop_state S) :
  loop_inv orphans (timeout_promise t :: extra) st ->
  loop_inv orphans extra (fire fn t st).
Proof.
  intros Hinv. unfold fire.
  destruct (fn (timeout_args t) (world st)) as [[latency r] w].
  destruct latency as [|latency].
  - apply (resume_inv orphans extra
             (mkAwaiting (now st) r (timeout_promise t))).
    revert Hinv. apply loop_inv_transfer; reflexivity.
  - revert Hinv. apply loop_inv_transfer; try reflexivity.
    unfold owners. cbn [timeouts in_flight]. rewrite fmap_app. cbn [fmap list_fmap].
    rewrite !app_assoc. rewrite <- Permutation_cons_append.
    rewrite <- !app_assoc. reflexivity.
Qed.

Lemma resume_all_inv orphans (l : list awaiting) :
  forall extra (st : loop_state S),
  loop_inv orphans ((awaiting_promise <$> l) ++ extra) st ->
  loop_inv orphans extra (foldl (fun acc a => resume a acc) st l).
Proof.
  induction l as [|a l IH]; intros extra st Hinv; [exact Hinv|].
  cbn [foldl]. apply IH. apply resume_inv.
  revert Hinv. apply loop_inv_transfer; reflexivity.
Qed.

Lemma fire_all_inv orphans (l : list timeout) :
  forall extra (st : loop_state S),
  loop_inv orphans ((timeout_promise <$> l) ++ extra) st ->
  loop_inv orphans extra (foldl (fun acc x => fire fn x acc) st l).
Proof.
  induction l as [|t l IH]; intros extra st Hinv; [exact Hinv|].
  cbn [foldl]. apply IH. apply fire_inv.
  revert Hinv. apply loop_inv_transfer; reflexivity.
Qed.

End LoopInvariant.

Lemma NoDup_fmap_eq {A B : Type} (f : A -> B) (l : list A) x y :
  NoDup (f <$> l) -> x ∈ l -> y ∈ l -> f x = f y -> x = y.
Proof.
  induction l as [|a l IH]; intros Hnd Hx Hy Hxy.
  - now apply elem_of_nil in Hx.
  - cbn in Hnd. apply NoDup_cons in Hnd as [Ha Hnd].
    apply elem_of_cons in Hx as [->|Hx]; apply elem_of_cons in Hy as [->|Hy].
    + reflexivity.
    + exfalso. apply Ha. rewrite Hxy. now apply list_elem_of_fmap_2.
    + exfalso. apply Ha. rewrite <- Hxy. now apply list_elem_of_fmap_2.
    + now apply IH.
Qed.

Lemma clearTimeout_sublist h ts : clearTimeout h ts `sublist_of` ts.
Proof. apply sublist_filter. Qed.

Section LoopSteps.
Context {S : Type}.
Variable fn : list value -> timed_operation S.
Variable delay : nat.

(** The timeouts left scheduled by a call are among those scheduled
    before it. *)
Lemma debounced_scheduled (st : loop_state S) :
  match timer st with
  | Some h => clearTimeout h (timeouts st)
  | None => timeouts st
  end `sublist_of` timeouts st.
Proof. destruct (timer st); [apply clearTimeout_sublist|reflexivity]. Qed.

(** A call keeps the invariant: its promise is new, and clearing a
    timeout takes owners away only. *)
Lemma debounced_inv orphans args (st : loop_state S) :
  loop_inv orphans [] st ->
  loop_inv orphans [] (snd (debounced delay args st)).
Proof.
  intros (Hnd & Hown & Horph). cbn [app] in *.
  pose proof (debounced_scheduled st) as Hsub.
  unfold debounced. cbn [snd]. set (sched := match timer st with
                                             | Some h => _ | None => _ end) in *.
  assert (Hsubo : (timeout_promise <$> sched) ++ (awaiting_promise <$> in_flight st)
                    `sublist_of` owners st).
  { unfold owners. apply sublist_app; [|reflexivity]. now apply fmap_sublist. }
  assert (Hsube : forall p,
            p ∈ (timeout_promise <$> sched) ++ (awaiting_promise <$> in_flight st) ->
            p ∈ owners st).
  { intros p Hp. eapply elem_of_sublist; [exact Hp|exact Hsubo]. }
  assert (Hbound : forall p, p ∈ owners st -> (p < length (promises st))%nat).
  { intros p Hp. apply lookup_lt_is_Some. rewrite (Hown p Hp). eauto. }
  assert (Hperm : owners (mkLoop (now st) (Some (next_handle st))
                     (sched ++ [mkTimeout (next_handle st) (now st + delay) args
                                  (length (promises st))])
                     (in_flight st) (promises st ++ [Pending])
                     (Datatypes.S (next_handle st)) (unhandled st) (world st))
                  ≡ₚ length (promises st)
                     :: (timeout_promise <$> sched)
                        ++ (awaiting_promise <$> in_flight st)).
  { unfold owners. cbn [timeouts in_flight]. rewrite fmap_app. cbn [fmap list_fmap].
    rewrite <- app_assoc. cbn [app]. now rewrite <- Permutation_middle. }
  unfold loop_inv. cbn [app promises unhandled].
  split; [|split].
  - rewrite Hperm. apply NoDup_cons. split.
    + intros Hin. apply Hsube, Hbound in Hin. lia.
    + eapply sublist_NoDup; [exact Hnd|exact Hsubo].
  - intros p Hp. rewrite Hperm in Hp. apply elem_of_cons in Hp as [->|Hp].
    + now rewrite list_lookup_middle.
    + apply Hsube in Hp.
      rewrite lookup_app_l by now apply Hbound. now apply Hown.
  - intros p Hp. destruct (Horph p Hp) as [Hpend Hout].
    assert (Hlt : (p < length (promises st))%nat)
      by (apply lookup_lt_is_Some; rewrite Hpend; eauto).
    split; [now rewrite lookup_app_l|].
    rewrite Hperm. intros Hin. apply elem_of_cons in Hin as [->|Hin]; [lia|].
    apply Hout. now apply Hsube.
Qed.

(** One more orphan: a pending promise that nothing owns. *)
Lemma loop_inv_orphan orphans q (st : loop_state S) :
  loop_inv orphans [] st ->
  promises st !! q = Some Pending -> q ∉ owners st ->
  loop_inv (q :: orphans) [] st.
Proof.
  intros (Hnd & Hown & Horph) Hq Hout. split; [exact Hnd|]. split; [exact Hown|].
  intros p [Hp|Hp].
  - apply elem_of_cons in Hp as [->|Hp]; [now split|]. apply Horph. now left.
  - apply Horph. now right.
Qed.

(** A call made while the timeout of an earlier call is scheduled clears
    that timeout, and the promise of the earlier call becomes an orphan. *)
Lemma debounced_orphans_previous orphans args (st : loop_state S) h t :
  loop_inv orphans [] st ->
  timer st = Some h -> t ∈ timeouts st -> handle t = h ->
  loop_inv (timeout_promise t :: orphans) []
           (snd (debounced delay args st)).
Proof.
  intros Hinv Htimer Ht Hh.
  pose proof (debounced_inv orphans args st Hinv) as Hinv'.
  destruct Hinv as (Hnd & Hown & _). cbn [app] in *.
  assert (Howner : timeout_promise t ∈ owners st).
  { unfold owners. apply elem_of_app. left. now apply list_elem_of_fmap_2. }
  assert (Hlt : (timeout_promise t < length (promises st))%nat).
  { apply lookup_lt_is_Some. rewrite (Hown _ Howner). eauto. }
  apply loop_inv_orphan; [exact Hinv'| |].
  - unfold debounced. cbn [snd promises]. rewrite lookup_app_l by exact Hlt.
    now apply Hown.
  - unfold debounced, owners. cbn [snd timeouts in_flight]. rewrite Htimer.
    unfold owners in Hnd. apply NoDup_app in Hnd as (Hnd1 & Hdisj & _).
    rewrite fmap_app. cbn [fmap list_fmap]. rewrite !elem_of_app.
    intros [[Hin|Hin]|Hin].
    + apply list_elem_of_fmap in Hin as (t' & Heq & Hin).
      apply list_elem_of_filter in Hin as [Hne Hin].
      apply Hne. rewrite <- Hh. f_equal. symmetry.
      now apply (NoDup_fmap_eq timeout_promise (timeouts st)).
    + apply list_elem_of_singleton in Hin. cbn in Hin. lia.
    + apply (Hdisj (timeout_promise t)); [|exact Hin].
      now apply list_elem_of_fmap_2.
Qed.

(** A millisecond passing keeps the invariant. *)
Lemma tick_inv orphans (st : loop_state S) :
  loop_inv orphans [] st -> loop_inv orphans [] (tick fn st).
Proof.
  intros Hinv. unfold tick.
  set (t := Datatypes.S (now st)).
  set (settled := filter (fun a => (settles_at a <= t)%nat) (in_flight st)).
  set (suspended := filter (fun a => ~ (settles_at a <= t)%nat) (in_flight st)).
  set (st0 := mkLoop t (timer st) (timeouts st) suspended (promises st)
                (next_handle st) (unhandled st) (world st)).
  set (st1 := foldl (fun acc a => resume a acc) st0 settled).
  assert (H1 : loop_inv orphans [] st1).
  { apply resume_all_inv. revert Hinv. apply loop_inv_transfer; try reflexivity.
    rewrite app_nil_r. unfold owners. cbn [app timeouts in_flight st0].
    rewrite <- (filter_app_complement (fun a => (settles_at a <= t)%nat)
                  (in_flight st)) at 1.
    fold settled suspended. rewrite fmap_app.
    apply Permutation_app_swap_app. }
  apply fire_all_inv. revert H1. apply loop_inv_transfer; try reflexivity.
  rewrite app_nil_r. unfold owners. cbn [app timeouts in_flight].
  rewrite <- (filter_app_complement (fun x => (due x <= t)%nat)
                (timeouts st1)) at 1.
  rewrite fmap_app, <- app_assoc. reflexivity.
Qed.

Lemma step_inv orphans e (st : loop_state S) :
  loop_inv orphans [] st -> loop_inv orphans [] (step fn delay e st).
Proof. destruct e; [apply debounced_inv|apply tick_inv]. Qed.

Lemma run_inv orphans events : forall (st : loop_state S),
  loop_inv orphans [] st -> loop_inv orphans [] (run fn delay events st).
Proof.
  induction events as [|e events IH]; intros st Hinv; [exact Hinv|].
  apply IH. now apply step_inv.
Qed.

Lemma run_app events1 events2 (st : loop_state S) :
  run fn delay (events1 ++ events2) st
  = run fn delay events2 (run fn delay events1 st).
Proof. apply foldl_app. Qed.

(** An orphan stays pending whatever happens next. *)
Lemma orphan_stays_pending orphans p events (st : loop_state S) :
  loop_inv orphans [] st -> p ∈ orphans ->
  promises (run fn delay events st) !! p = Some Pending.
Proof.
  intros Hinv Hp. apply (run_inv orphans events) in Hinv.
  destruct Hinv as (_ & _ & Horph). apply Horph. now left.
Qed.

End LoopSteps.

(** ** One debounce cycle, step by step *)

Section DebounceCycle.
Context {S : Type}.
Variable fn : list value -> timed_operation S.
Variable delay : nat.

(** The first call of a cycle arms the loop. *)
Lemma debounced_quiet a T tm ps h un (s : S) :
  debounced delay a (quiet T tm ps h un s)
  = (length ps, armed ps un 0 h T (T + delay) a s).
Proof.
  unfold debounced, quiet, armed. cbn [timer timeouts promises next_handle now
    in_flight unhandled world].
  replace (match tm with Some h0 => clearTimeout h0 [] | None => [] end)
    with (@nil timeout) by (destruct tm; reflexivity).
  rewrite Nat.add_0_r. reflexivity.
Qed.

(** A further call clears the timeout of the previous one and schedules
    its own. *)
Lemma debounced_armed a' ps0 un k h T d a (s : S) :
  debounced delay a' (armed ps0 un k h T d a s)
  = ((length ps0 + Datatypes.S k)%nat,
     armed ps0 un (Datatypes.S k) (Datatypes.S h) T (T + delay) a' s).
Proof.
  unfold debounced, armed. cbn [timer timeouts promises next_handle now
    in_flight unhandled world].
  rewrite length_app, length_replicate.
  unfold clearTimeout. rewrite filter_cons, filter_nil. cbn [handle].
  destruct (decide (h <> h)) as [Hne|_]; [congruence|].
  cbn [app]. f_equal. f_equal.
  rewrite <- app_assoc. f_equal.
  change (Pending :: replicate (Datatypes.S k) Pending)
    with (replicate (Datatypes.S (Datatypes.S k)) Pending).
  now rewrite <- replicate_S_end.
Qed.

(** While the timeout is not due, a millisecond only moves the clock. *)
Lemma tick_armed_idle ps0 un k h T d a (s : S) :
  (Datatypes.S T < d)%nat ->
  tick fn (armed ps0 un k h T d a s)
  = armed ps0 un k h (Datatypes.S T) d a s.
Proof.
  intros Hlt. unfold tick, armed.
  cbn [in_flight now timer timeouts promises next_handle unhandled world].
  rewrite !filter_nil.
  cbn [foldl in_flight now timer timeouts promises next_handle unhandled world].
  rewrite !filter_cons, !filter_nil. cbn [due].
  destruct (decide (d <= Datatypes.S T)%nat) as [?|_]; [lia|].
  destruct (decide (~ (d <= Datatypes.S T)%nat)) as [_|Hn]; [|lia].
  reflexivity.
Qed.

Lemma ticks_armed_idle ps0 un k h d a (s : S) w : forall T,
  (w = 0 \/ T + w < d)%nat ->
  run fn delay (replicate w Tick) (armed ps0 un k h T d a s)
  = armed ps0 un k h (T + w) d a s.
Proof.
  induction w as [|w IH]; intros T Hw.
  - now rewrite Nat.add_0_r.
  - cbn [replicate run foldl step]. rewrite tick_armed_idle by lia.
    unfold run in IH. rewrite IH by lia. f_equal. lia.
Qed.

(** Nothing happens in a quiet loop. *)
Lemma tick_quiet T tm ps h un (s : S) :
  tick fn (quiet T tm ps h un s) = quiet (Datatypes.S T) tm ps h un s.
Proof. reflexivity. Qed.

Lemma ticks_quiet tm ps h un (s : S) w : forall T,
  run fn delay (replicate w Tick) (quiet T tm ps h un s)
  = quiet (T + w) tm ps h un s.
Proof.
  induction w as [|w IH]; intros T.
  - now rewrite Nat.add_0_r.
  - cbn [replicate run foldl step]. rewrite tick_quiet.
    unfold run in IH. rewrite IH. f_equal. lia.
Qed.

(** The tick on which the timeout is due fires it. *)
Lemma tick_armed_fire ps0 un k h T d a (s : S) :
  (d <= Datatypes.S T)%nat ->
  tick fn (armed ps0 un k h T d a s)
  = fire fn (mkTimeout h d a (length ps0 + k))
      (quiet (Datatypes.S T) (Some h)
         (ps0 ++ replicate (Datatypes.S k) Pending) (Datatypes.S h) un s).
Proof.
  intros Hle. unfold tick, armed.
  cbn [in_flight now timer timeouts promises next_handle unhandled world].
  rewrite !filter_nil.
  cbn [foldl in_flight now timer timeouts promises next_handle unhandled world].
  rewrite !filter_cons, !filter_nil. cbn [due].
  destruct (decide (d <= Datatypes.S T)%nat) as [_|?]; [|lia].
  destruct (decide (~ (d <= Datatypes.S T)%nat)) as [Hn|_]; [lia|].
  reflexivity.
Qed.

(** Firing in a quiet loop: the callback concludes at once or is left
    waiting for the operation. *)
Lemma fire_quiet h d a p T ps un (s : S) :
  fire fn (mkTimeout h d a p) (quiet T (Some h) ps (Datatypes.S h) un s)
  = match fst (fst (fn a s)) with
    | O => concluded (snd (fst (fn a s))) p T h ps un (snd (fn a s))
    | Datatypes.S l =>
        waiting T (Some h) (T + Datatypes.S l) (snd (fst (fn a s))) p ps
          (Datatypes.S h) un (snd (fn a s))
    end.
Proof.
  unfold fire, quiet. cbn [timeout_args world timeout_promise].
  destruct (fn a s) as [[[|l] r] s']; cbn [fst snd].
  - unfold resume, concluded, quiet. cbn. destruct r; reflexivity.
  - reflexivity.
Qed.

Lemma tick_waiting_idle T tm at_ r p ps h un (s : S) :
  (Datatypes.S T < at_)%nat ->
  tick fn (waiting T tm at_ r p ps h un s)
  = waiting (Datatypes.S T) tm at_ r p ps h un s.
Proof.
  intros Hlt. unfold tick, waiting.
  cbn [in_flight now timer timeouts promises next_handle unhandled world].
  rewrite !filter_cons, !filter_nil. cbn [settles_at].
  destruct (decide (at_ <= Datatypes.S T)%nat) as [?|_]; [lia|].
  destruct (decide (~ (at_ <= Datatypes.S T)%nat)) as [_|Hn]; [|lia].
  reflexivity.
Qed.

Lemma ticks_waiting_idle tm at_ r p ps h un (s : S) w : forall T,
  (w = 0 \/ T + w < at_)%nat ->
  run fn delay (replicate w Tick) (waiting T tm at_ r p ps h un s)
  = waiting (T + w) tm at_ r p ps h un s.
Proof.
  induction w as [|w IH]; intros T Hw.
  - now rewrite Nat.add_0_r.
  - cbn [replicate run foldl step]. rewrite tick_waiting_idle by lia.
    unfold run in IH. rewrite IH by lia. f_equal. lia.
Qed.

Lemma tick_waiting_resume T h at_ r p ps un (s : S) :
  (at_ <= Datatypes.S T)%nat ->
  tick fn (waiting T (Some h) at_ r p ps (Datatypes.S h) un s)
  = concluded r p (Datatypes.S T) h ps un s.
Proof.
  intros Hle. unfold tick, waiting.
  cbn [in_flight now timer timeouts promises next_handle unhandled world].
  rewrite !filter_cons, !filter_nil. cbn [settles_at].
  destruct (decide (at_ <= Datatypes.S T)%nat) as [_|?]; [|lia].
  destruct (decide (~ (at_ <= Datatypes.S T)%nat)) as [Hn|_]; [lia|].
  cbn [foldl]. unfold resume, concluded, quiet. cbn. destruct r; reflexivity.
Qed.

Lemma ticks_concluded r p h ps un (s : S) w T :
  run fn delay (replicate w Tick) (concluded r p T h ps un s)
  = concluded r p (T + w) h ps un s.
Proof. destruct r; apply ticks_quiet. Qed.

(** From the last call of a cycle on: once the timeout has fired and the
    operation has settled, the loop has concluded on the outcome of the one
    invocation [fn a s]. *)
Lemma ticks_armed_conclude ps0 un k h T a (s : S) w :
  (firing_time delay + fst (fst (fn a s)) <= w)%nat ->
  run fn delay (replicate w Tick) (armed ps0 un k h T (T + delay) a s)
  = concluded (snd (fst (fn a s))) (length ps0 + k) (T + w) h
      (ps0 ++ replicate (Datatypes.S k) Pending) un (snd (fn a s)).
Proof.
  intros Hw. unfold firing_time in Hw.
  set (w1 := (Nat.max 1 delay - 1)%nat).
  replace w with (w1 + (1 + (w - w1 - 1)))%nat by lia.
  rewrite replicate_add, run_app, ticks_armed_idle by lia.
  rewrite replicate_add, run_app. cbn [replicate run foldl step].
  rewrite tick_armed_fire by lia. rewrite fire_quiet.
  destruct (fst (fst (fn a s))) as [|l] eqn:Hlat.
  - fold (run fn delay (replicate (w - w1 - 1) Tick)).
    rewrite ticks_concluded. f_equal. lia.
  - fold (run fn delay (replicate (w - w1 - 1) Tick)).
    replace (w - w1 - 1)%nat with (l + (1 + (w - w1 - 1 - l - 1)))%nat by lia.
    rewrite replicate_add, run_app, ticks_waiting_idle by lia.
    rewrite replicate_add, run_app. cbn [replicate run foldl step].
    rewrite tick_waiting_resume by lia.
    fold (run fn delay (replicate (w - w1 - 1 - l - 1) Tick)).
    rewrite ticks_concluded. f_equal. lia.
Qed.

End DebounceCycle.

(** ** Promises only ever go from pending to fulfilled *)

Lemma settles_only_refl ps : settles_only ps ps.
Proof. split; auto. Qed.

Lemma settles_only_trans ps1 ps2 ps3 :
  settles_only ps1 ps2 -> settles_only ps2 ps3 -> settles_only ps1 ps3.
Proof. intros [H1 H2] [H3 H4]. split; auto. Qed.

Lemma settles_only_resolve q v ps : settles_only ps (resolve_promise q v ps).
Proof.
  split; [|apply resolve_promise_none_rejected].
  intros p w Hp. destruct (decide (p = q)) as [->|Hne].
  - unfold resolve_promise. now rewrite Hp.
  - now rewrite resolve_promise_ne.
Qed.

Lemma settles_only_new ps : settles_only ps (ps ++ [Pending]).
Proof.
  split.
  - intros p v Hp. rewrite lookup_app_l; [exact Hp|].
    apply lookup_lt_is_Some. eauto.
  - intros Hps p e Hp. apply lookup_app_Some in Hp as [Hp|[_ Hp]].
    + now apply (Hps p e).
    + destruct (p - length ps)%nat; discriminate.
Qed.

Section SettlesOnly.
Context {S : Type}.
Variable fn : list value -> timed_operation S.
Variable delay : nat.

Lemma resume_settles_only a (st : loop_state S) :
  settles_only (promises st) (promises (resume a st)).
Proof.
  unfold resume. destruct (awaited a); cbn [promises];
    [apply settles_only_resolve|apply settles_only_refl].
Qed.

Lemma fire_settles_only t (st : loop_state S) :
  settles_only (promises st) (promises (fire fn t st)).
Proof.
  unfold fire. destruct (fn (timeout_args t) (world st)) as [[[|l] r] w].
  - apply (resume_settles_only (mkAwaiting (now st) r (timeout_promise t))
             (mkLoop (now st) (timer st) (timeouts st) (in_flight st)
                (promises st) (next_handle st) (unhandled st) w)).
  - apply settles_only_refl.
Qed.

Lemma resume_all_settles_only l : forall (st : loop_state S),
  settles_only (promises st)
    (promises (foldl (fun acc a => resume a acc) st l)).
Proof.
  induction l as [|a l IH]; intros st; [apply settles_only_refl|].
  cbn [foldl]. eapply settles_only_trans; [apply resume_settles_only|apply IH].
Qed.

Lemma fire_all_settles_only l : forall (st : loop_state S),
  settles_only (promises st)
    (promises (foldl (fun acc x => fire fn x acc) st l)).
Proof.
  induction l as [|t l IH]; intros st; [apply settles_only_refl|].
  cbn [foldl]. eapply settles_only_trans; [apply fire_settles_only|apply IH].
Qed.

Lemma step_settles_only e (st : loop_state S) :
  settles_only (promises st) (promises (step fn delay e st)).
Proof.
  destruct e as [args|]; cbn [step].
  - unfold debounced. cbn [snd promises]. apply settles_only_new.
  - unfold tick.
    eapply settles_only_trans; [|apply fire_all_settles_only].
    cbn [promises].
    apply (resume_all_settles_only _
             (mkLoop (Datatypes.S (now st)) (timer st) (timeouts st)
                (filter (fun a => ~ (settles_at a <= Datatypes.S (now st))%nat)
                   (in_flight st))
                (promises st) (next_handle st) (unhandled st) (world st))).
Qed.

Lemma run_settles_only events : forall (st : loop_state S),
  settles_only (promises st) (promises (run fn delay events st)).
Proof.
  induction events as [|e events IH]; intros st; [apply settles_only_refl|].
  cbn [run foldl]. eapply settles_only_trans; [apply step_settles_only|apply IH].
Qed.

End SettlesOnly.

(** ** A whole debounce cycle *)

Section DebounceCycleRun.
Context {S : Type}.
Variable fn : list value -> timed_operation S.
Variable delay : nat.

Lemma cycle_events_cons a w calls :
  cycle_events ((a, w) :: calls)
  = Call a :: replicate w Tick ++ cycle_events calls.
Proof. reflexivity. Qed.

Lemma run_call_ticks a w events (st : loop_state S) :
  run fn delay (Call a :: replicate w Tick ++ events) st
  = run fn delay events
      (run fn delay (replicate w Tick) (snd (debounced delay a st))).
Proof.
  change (Call a :: replicate w Tick ++ events)
    with ([Call a] ++ (replicate w Tick ++ events)).
  now rewrite !run_app.
Qed.

(** From an armed loop: further calls that each come before the timeout
    of the previous one fires, then a last call followed by enough time.
    The loop concludes on the outcome of the single invocation of [fn], on
    the arguments of the last call. *)
Lemma cycle_from_armed args w (s : S) ps0 un earlier :
  forall k h T d a0,
  Forall (fun c => (snd c < firing_time delay)%nat) earlier ->
  (firing_time delay + fst (fst (fn args s)) <= w)%nat ->
  exists T',
    run fn delay (cycle_events (earlier ++ [(args, w)]))
      (armed ps0 un k h T d a0 s)
    = concluded (snd (fst (fn args s)))
        (length ps0 + (k + Datatypes.S (length earlier))) T'
        (h + Datatypes.S (length earlier))
        (ps0 ++ replicate (Datatypes.S (k + Datatypes.S (length earlier)))
                  Pending)
        un (snd (fn args s)).
Proof.
  induction earlier as [|[a1 w1] rest IH]; intros k h T d a0 Hearly Hw.
  - cbn [app length]. rewrite cycle_events_cons, run_call_ticks.
    rewrite debounced_armed. cbn [snd]. cbn [cycle_events map concat run foldl].
    exists (T + w)%nat.
    fold (run fn delay (replicate w Tick)).
    rewrite ticks_armed_conclude by exact Hw.
    replace (k + 1)%nat with (Datatypes.S k) by lia.
    replace (h + 1)%nat with (Datatypes.S h) by lia. reflexivity.
  - apply Forall_cons in Hearly as [Hw1 Hearly]. cbn [snd] in Hw1.
    unfold firing_time in Hw1.
    cbn [app length]. rewrite cycle_events_cons, run_call_ticks.
    rewrite debounced_armed. cbn [snd].
    rewrite ticks_armed_idle by lia.
    destruct (IH (Datatypes.S k) (Datatypes.S h) (T + w1)%nat (T + delay)%nat
                a1 Hearly Hw) as [T' HT'].
    exists T'. rewrite HT'.
    replace (Datatypes.S k + Datatypes.S (length rest))%nat
      with (k + Datatypes.S (Datatypes.S (length rest)))%nat by lia.
    replace (Datatypes.S h + Datatypes.S (length rest))%nat
      with (h + Datatypes.S (Datatypes.S (length rest)))%nat by lia.
    reflexivity.
Qed.

(** The same from a quiet loop, where the cycle begins. *)
Lemma cycle_from_quiet args w (s : S) T tm ps0 h un earlier :
  Forall (fun c => (snd c < firing_time delay)%nat) earlier ->
  (firing_time delay + fst (fst (fn args s)) <= w)%nat ->
  exists T',
    run fn delay (cycle_events (earlier ++ [(args, w)]))
      (quiet T tm ps0 h un s)
    = concluded (snd (fst (fn args s))) (length ps0 + length earlier) T'
        (h + length earlier)
        (ps0 ++ replicate (Datatypes.S (length earlier)) Pending)
        un (snd (fn args s)).
Proof.
  intros Hearly Hw. destruct earlier as [|[a1 w1] rest].
  - cbn [app length]. rewrite cycle_events_cons, run_call_ticks.
    rewrite debounced_quiet. cbn [snd]. cbn [cycle_events map concat run foldl].
    exists (T + w)%nat.
    fold (run fn delay (replicate w Tick)).
    rewrite ticks_armed_conclude by exact Hw.
    now rewrite !Nat.add_0_r.
  - apply Forall_cons in Hearly as [Hw1 Hearly]. cbn [snd] in Hw1.
    unfold firing_time in Hw1.
    cbn [app length]. rewrite cycle_events_cons, run_call_ticks.
    rewrite debounced_quiet. cbn [snd].
    rewrite ticks_armed_idle by lia.
    destruct (cycle_from_armed args w s ps0 un rest 0%nat h (T + w1)%nat
                (T + delay)%nat a1 Hearly Hw) as [T' HT'].
    exists T'. rewrite HT'. reflexivity.
Qed.

End DebounceCycleRun.

Lemma loop_state_quiet {S : Type} (st : loop_state S) :
  timeouts st = [] -> in_flight st = [] ->
  st = quiet (now st) (timer st) (promises st) (next_handle st)
         (unhandled st) (world st).
Proof. destruct st. cbn. intros -> ->. reflexivity. Qed.

Lemma lookup_cycle_promise ps0 n i :
  (i <= n)%nat ->
  (ps0 ++ replicate (Datatypes.S n) Pending) !! (length ps0 + i)%nat
  = Some Pending.
Proof.
  intros Hi. rewrite lookup_app_r by lia.
  apply lookup_replicate_2. lia.
Qed.

(** What a debounce cycle leaves behind.  From a loop with nothing
    scheduled and nothing in flight: [earlier] calls, each followed by the
    next before its timeout fires, then the call with [args] followed by
    enough time for the timeout and the operation.  The operation ran once,
    on [args]; the promises of the earlier calls are pending and nothing
    owns them; the promise of the last call is fulfilled with the value of
    that run, or, when the run failed, still pending with the failure
    recorded as an unhandled rejection of the timer callback. *)
Lemma cycle_conclusion {S : Type} (fn : list value -> timed_operation S)
    (delay : nat) (st0 : loop_state S) earlier args w :
  loop_inv [] [] st0 ->
  timeouts st0 = [] -> in_flight st0 = [] ->
  Forall (fun c => (snd c < firing_time delay)%nat) earlier ->
  (firing_time delay + fst (fst (fn args (world st0))) <= w)%nat ->
  let st := run fn delay (cycle_events (earlier ++ [(args, w)])) st0 in
  let first := length (promises st0) in
  let last := (first + length earlier)%nat in
  loop_inv [] [] st /\ owners st = [] /\
  length (promises st) = Datatypes.S last /\
  world st = snd (fn args (world st0)) /\
  (forall i, (i < length earlier)%nat ->
             promises st !! (first + i)%nat = Some Pending) /\
  match snd (fst (fn args (world st0))) with
  | Resolved v => promises st !! last = Some (Fulfilled v) /\
                  unhandled st = unhandled st0
  | Rejected e => promises st !! last = Some Pending /\
                  unhandled st = unhandled st0 ++ [(last, e)]
  end.
Proof.
  intros Hinv Hto Hfl Hearly Hw st first last.
  split; [now apply run_inv|].
  destruct (cycle_from_quiet fn delay args w (world st0) (now st0) (timer st0)
              (promises st0) (next_handle st0) (unhandled st0) earlier
              Hearly Hw) as [T' Hst].
  rewrite <- (loop_state_quiet st0 Hto Hfl) in Hst.
  fold st first last in Hst. clearbody st. subst st.
  pose proof (lookup_cycle_promise (promises st0) (length earlier)) as Hlook.
  fold first in Hlook.
  destruct (snd (fst (fn args (world st0)))) as [v|e];
    unfold concluded, quiet, owners; cbn [timeouts in_flight promises world
                                          unhandled fmap list_fmap app].
  - split; [reflexivity|]. split; [|split; [reflexivity|split; [|split]]].
    + rewrite resolve_promise_length, length_app, length_replicate.
      unfold last, first. lia.
    + intros i Hi. rewrite resolve_promise_ne by (unfold last; lia).
      apply Hlook. lia.
    + apply resolve_promise_pending. apply Hlook. lia.
    + reflexivity.
  - split; [reflexivity|]. split; [|split; [reflexivity|split; [|split]]].
    + rewrite length_app, length_replicate. unfold last, first. lia.
    + intros i Hi. apply Hlook. lia.
    + apply Hlook. lia.
    + reflexivity.
Qed.

(** Reachable loops satisfy the invariant and have no rejected promise. *)
Lemma reachable_inv {S : Type} (fn : list value -> timed_operation S)
    (delay : nat) (s : S) history :
  loop_inv [] [] (run fn delay history (debounceAsync s)).
Proof. apply run_inv. now apply loop_inv_initial. Qed.

Lemma reachable_none_rejected {S : Type}
    (fn : list value -> timed_operation S) (delay : nat) (s : S) history :
  none_rejected (promises (run fn delay history (debounceAsync s))).
Proof.
  apply (run_settles_only fn delay history (debounceAsync s)).
  intros p e. cbn. rewrite lookup_nil. discriminate.
Qed.

(** A pending promise that nothing owns stays pending for good. *)
Lemma unowned_stays_pending {S : Type} (fn : list value -> timed_operation S)
    (delay : nat) (st : loop_state S) p later :
  loop_inv [] [] st -> promises st !! p = Some Pending -> p ∉ owners st ->
  promises (run fn delay later st) !! p = Some Pending.
Proof.
  intros Hinv Hp Hout.
  apply (orphan_stays_pending fn delay [p] p later st).
  - now apply loop_inv_orphan.
  - now apply list_elem_of_singleton.
Qed.

(** ** The promises of the debounced function *)

(** C2, as the specification words it, fails.  Two calls 50 ms apart with
    a delay of 100 ms form one cycle; the operation runs once, on the
    arguments of the second call.  The deferred result of the first call
    is not resolved with the outcome of that run: it is never resolved at
    all, whatever happens afterwards. *)
Lemma debounce_superseded_call_never_resolves :
  let cycle := cycle_events [([VNum 1], 50%nat); ([VNum 2], 130%nat)] in
  promises (run echo 100 cycle (debounceAsync 0%nat))
    = [Pending; Fulfilled (VNum 2)] /\
  world (run echo 100 cycle (debounceAsync 0%nat)) = 1%nat /\
  ~ (exists later v,
       promises (run echo 100 (cycle ++ later) (debounceAsync 0%nat)) !! 0%nat
       = Some (Fulfilled v)).
Proof.
  intros cycle.
  assert (Hps : promises (run echo 100 cycle (debounceAsync 0%nat))
                = [Pending; Fulfilled (VNum 2)]) by (vm_compute; reflexivity).
  split; [exact Hps|]. split; [vm_compute; reflexivity|].
  intros (later & v & Hv). rewrite run_app in Hv.
  rewrite (unowned_stays_pending echo 100 _ 0%nat later) in Hv.
  - discriminate.
  - apply reachable_inv.
  - now rewrite Hps.
  - vm_compute. apply not_elem_of_nil.
Qed.

(** A cycle that begins while an execution of an earlier cycle is still
    in flight is another matter.  Delay 20 ms, an operation that takes 30
    ms: the call with 1 fires at 20 and its execution is in flight until
    50.  The calls with 2, 3 and 4, at 25, 40 and 55, each come before the
    timeout of the previous one fires.  When the execution in flight
    settles, at 50, its callback sets [timer = null], so the call with 4
    cancels nothing: the timeouts of 3 and of 4 both fire, the promise of
    the earlier call with 3 resolves, and the operation runs twice for
    the cycle (three times in all). *)
Example debounce_cycle_with_execution_in_flight :
  let st0 := run echo 20 (cycle_events [([VNum 1], 25%nat)])
               (debounceAsync 0%nat) in
  let st := run echo 20
              (cycle_events [([VNum 2], 15%nat); ([VNum 3], 15%nat);
                             ([VNum 4], 100%nat)]) st0 in
  timeouts st0 = [] /\
  in_flight st0 = [mkAwaiting 50 (Resolved (VNum 1)) 0] /\
  promises st = [Fulfilled (VNum 1); Pending; Fulfilled (VNum 3);
                 Fulfilled (VNum 4)] /\
  world st = 3%nat.
Proof. vm_compute. repeat split. Qed.

(** C2, amended.  In any loop reached by the wrapper in which nothing is
    scheduled or in flight (a fresh wrapper, or one whose earlier cycles
    are over), take a cycle of calls: [earlier] calls, each followed by
    the next one before its timeout fires, then a last call with [args]
    followed by enough time for its timeout to fire and the operation to
    settle.  Then every call got its own promise, the operation was
    executed once, on the arguments of the last call, and
    - if that execution resolves to [v], the deferred result of the last
      call is resolved with [v], and stays so;
    - the deferred results of the earlier calls of the cycle are pending
      and stay pending whatever happens afterwards: they never settle. *)
Theorem debounce_cycle_settles_last_call_only
    {S : Type} (fn : list value -> timed_operation S) (delay : nat) (s0 : S)
    (history : list event) (earlier : list (list value * nat))
    (args : list value) (w : nat) :
  let st0 := run fn delay history (debounceAsync s0) in
  timeouts st0 = [] -> in_flight st0 = [] ->
  Forall (fun c => (snd c < firing_time delay)%nat) earlier ->
  (firing_time delay + fst (fst (fn args (world st0))) <= w)%nat ->
  let st := run fn delay (cycle_events (earlier ++ [(args, w)])) st0 in
  let first := length (promises st0) in
  let last := (first + length earlier)%nat in
  length (promises st) = Datatypes.S last /\
  world st = snd (fn args (world st0)) /\
  (forall v, snd (fst (fn args (world st0))) = Resolved v ->
     forall later,
       promises (run fn delay later st) !! last = Some (Fulfilled v)) /\
  (forall i, (i < length earlier)%nat ->
     forall later,
       promises (run fn delay later st) !! (first + i)%nat = Some Pending).
Proof.
  intros st0 Hto Hfl Hearly Hw st first last.
  destruct (cycle_conclusion fn delay st0 earlier args w
              (reachable_inv fn delay s0 history) Hto Hfl Hearly Hw)
    as (Hinv & Hown & Hlen & Hworld & Hpend & Hlast).
  fold st first last in Hinv, Hown, Hlen, Hworld, Hpend, Hlast.
  split; [exact Hlen|]. split; [exact Hworld|]. split.
  - intros v Hv later. rewrite Hv in Hlast. destruct Hlast as [Hlast _].
    now apply (run_settles_only fn delay later st).
  - intros i Hi later. apply unowned_stays_pending.
    + exact Hinv.
    + now apply Hpend.
    + rewrite Hown. apply not_elem_of_nil.
Qed.

(** The hypotheses of the amended C2 on a fresh wrapper: delay 100 ms, an
    operation that takes 30 ms, a call with 1, a call with 2 after 50 ms,
    then 130 ms. *)
Lemma debounce_cycle_witness :
  let st0 := run echo 100 [] (debounceAsync 0%nat) in
  (timeouts st0 = [] /\ in_flight st0 = [] /\
   Forall (fun c => (snd c < firing_time 100)%nat) [([VNum 1], 50%nat)] /\
   (firing_time 100 + fst (fst (echo [VNum 2] (world st0))) <= 130)%nat) /\
  let st := run echo 100
              (cycle_events ([([VNum 1], 50%nat)] ++ [([VNum 2], 130%nat)]))
              st0 in
  let first := length (promises st0) in
  let last := (first + length [([VNum 1], 50%nat)])%nat in
  length (promises st) = Datatypes.S last /\
  world st = snd (echo [VNum 2] (world st0)) /\
  (forall v, snd (fst (echo [VNum 2] (world st0))) = Resolved v ->
     forall later,
       promises (run echo 100 later st) !! last = Some (Fulfilled v)) /\
  (forall i, (i < length [([VNum 1], 50%nat)])%nat ->
     forall later,
       promises (run echo 100 later st) !! (first + i)%nat = Some Pending).
Proof.
  assert (Hearly : Forall (fun c : list value * nat =>
                             (snd c < firing_time 100)%nat)
                     [([VNum 1], 50%nat)]).
  { constructor; [vm_compute; lia|constructor]. }
  assert (Hw : (firing_time 100
                + fst (fst (echo [VNum 2]
                              (world (run echo 100 [] (debounceAsync 0%nat)))))
                <= 130)%nat) by (vm_compute; lia).
  split.
  - split; [reflexivity|]. split; [reflexivity|]. split; [exact Hearly|exact Hw].
  - apply (debounce_cycle_settles_last_call_only echo 100 0%nat []
             [([VNum 1], 50%nat)] [VNum 2] 130%nat
             eq_refl eq_refl Hearly Hw).
Defined.

(** C10.  For every operation and delay, in every loop [st0] the wrapper
    can reach:
    - at every later moment no promise returned by the debounced function
      is rejected;
    - every promise whose timer callback has failed, because the operation
      it awaited rejected (such a failure is listed among the unhandled
      rejections of the callbacks), is pending at every later moment: it
      never settles;
    - in particular, for every debounce cycle started from [st0] when
      nothing is scheduled or in flight, if the one execution of the
      operation fails with [e], the failure only shows as an unhandled
      rejection of the timer callback, and the deferred result returned by
      the last call stays pending whatever happens afterwards: the caller
      never sees the error. *)
Theorem debounced_promise_never_rejects
    {S : Type} (fn : list value -> timed_operation S) (delay : nat) (s0 : S)
    (history : list event) :
  let st0 := run fn delay history (debounceAsync s0) in
  (forall later, none_rejected (promises (run fn delay later st0))) /\
  (forall later,
     Forall (fun failure =>
               promises (run fn delay later st0) !! fst failure = Some Pending)
            (unhandled st0)) /\
  (forall earlier args w e,
     timeouts st0 = [] -> in_flight st0 = [] ->
     Forall (fun c => (snd c < firing_time delay)%nat) earlier ->
     (firing_time delay + fst (fst (fn args (world st0))) <= w)%nat ->
     snd (fst (fn args (world st0))) = Rejected e ->
     let st := run fn delay (cycle_events (earlier ++ [(args, w)])) st0 in
     let last := (length (promises st0) + length earlier)%nat in
     (last, e) ∈ unhandled st /\
     forall later, promises (run fn delay later st) !! last = Some Pending).
Proof.
  intros st0. split; [|split].
  - intros later. unfold st0. rewrite <- run_app.
    apply reachable_none_rejected.
  - intros later. apply Forall_forall. intros [p e] Hin. cbn [fst].
    pose proof (reachable_inv fn delay s0 history) as Hinv. fold st0 in Hinv.
    destruct Hinv as (Hnd & Hown & Horph).
    destruct (Horph p) as [Hpend Hout].
    { right. apply list_elem_of_fmap. now exists (p, e). }
    apply unowned_stays_pending; [now split|exact Hpend|exact Hout].
  - intros earlier args w e Hto Hfl Hearly Hw He st last.
    destruct (cycle_conclusion fn delay st0 earlier args w
                (reachable_inv fn delay s0 history) Hto Hfl Hearly Hw)
      as (Hinv & Hown & _ & _ & _ & Hlast).
    fold st last in Hinv, Hown, Hlast. rewrite He in Hlast.
    destruct Hlast as [Hpend Hun]. split.
    + rewrite Hun. apply elem_of_app. right. now apply list_elem_of_singleton.
    + intros later. apply unowned_stays_pending; [exact Hinv|exact Hpend|].
      rewrite Hown. apply not_elem_of_nil.
Qed.

(** C10 at a cycle whose execution fails: a fresh wrapper with a delay of
    100 ms around an operation that rejects after 30 ms, a call with 1, a
    call with 2 after 50 ms, then 130 ms. *)
Lemma debounced_promise_never_rejects_witness :
  let st0 := run failing 100 [] (debounceAsync 0%nat) in
  (timeouts st0 = [] /\ in_flight st0 = [] /\
   Forall (fun c => (snd c < firing_time 100)%nat) [([VNum 1], 50%nat)] /\
   (firing_time 100 + fst (fst (failing [VNum 2] (world st0))) <= 130)%nat /\
   snd (fst (failing [VNum 2] (world st0))) = Rejected (VNum 2)) /\
  let st := run failing 100
              (cycle_events ([([VNum 1], 50%nat)] ++ [([VNum 2], 130%nat)]))
              st0 in
  (1%nat, VNum 2) ∈ unhandled st /\
  (forall later, promises (run failing 100 later st) !! 1%nat = Some Pending) /\
  (forall later, none_rejected (promises (run failing 100 later st0))).
Proof.
  assert (Hearly : Forall (fun c : list value * nat =>
                             (snd c < firing_time 100)%nat)
                     [([VNum 1], 50%nat)]).
  { constructor; [vm_compute; lia|constructor]. }
  assert (Hw : (firing_time 100
                + fst (fst (failing [VNum 2]
                              (world (run failing 100 [] (debounceAsync 0%nat)))))
                <= 130)%nat) by (vm_compute; lia).
  destruct (debounced_promise_never_rejects failing 100 0%nat [])
    as (Hnone & _ & Hcycle).
  split.
  - split; [reflexivity|]. split; [reflexivity|]. split; [exact Hearly|].
    split; [exact Hw|reflexivity].
  - destruct (Hcycle [([VNum 1], 50%nat)] [VNum 2] 130%nat (VNum 2)
                eq_refl eq_refl Hearly Hw eq_refl) as [Hun Hpend].
    split; [exact Hun|]. split; [exact Hpend|exact Hnone].
Defined.

(** A cycle whose execution fails: the rejection of the operation ends up
    as an unhandled rejection of the timer callback, and both promises of
    the cycle are left pending. *)
Example debounce_failing_cycle :
  let st := run failing 100
              (cycle_events [([VNum 1], 50%nat); ([VNum 2], 130%nat)])
              (debounceAsync 0%nat) in
  promises st = [Pending; Pending] /\
  unhandled st = [(1%nat, VNum 2)] /\
  world st = 1%nat /\ owners st = [].
Proof. vm_compute. repeat split. Qed.

(** The debounce test: two calls at once, 200 ms, a third call.  The
    operation ran twice and the third call resolved to 2; the promise of
    the first call is still pending. *)
Example debounceAsync_test :
  let st := run counting 100
              (cycle_events [([], 0%nat); ([], 200%nat); ([], 100%nat)])
              (debounceAsync 0%nat) in
  promises st = [Pending; Fulfilled (VNum 1); Fulfilled (VNum 2)] /\
  world st = 2%nat.
Proof. vm_compute. split; reflexivity. Qed.

(** * Further properties of the retry family *)

Section SequentialRetryFacts.
Context {S : Type}.
Variable fn : operation S.

Lemma sequentialRetry_loop_eq retries delay fuel :
  forall i (s : S) slept,
  sequentialRetry_loop fn retries delay fuel i s slept
  = retryWithDelay_loop fn retries delay fuel i s slept.
Proof.
  induction fuel as [|fuel IH]; intros i s slept; cbn; [reflexivity|].
  destruct (i <? retries); [|reflexivity].
  destruct (fn s) as [[v|e] s']; [reflexivity|apply IH].
Qed.

(** With a delay variable that sits at a ceiling [d >= 0], the loop of
    [retryWithBackoff] is the loop of [retryWithDelay]. *)
Lemma retryWithBackoff_loop_constant maxRetries d fuel :
  0 <= d ->
  forall retries (s : S) slept,
  retryWithBackoff_loop fn maxRetries d fuel retries d s slept
  = retryWithDelay_loop fn maxRetries d fuel retries s slept.
Proof.
  intros Hd. induction fuel as [|fuel IH]; intros retries s slept; cbn;
    [reflexivity|].
  destruct (retries <? maxRetries); [|reflexivity].
  destruct (fn s) as [[v|e] s']; [reflexivity|].
  rewrite Z.min_r by lia. apply IH.
Qed.

End SequentialRetryFacts.

(** X1.  [sequentialRetry] and [retryWithDelay] are one function: for
    every operation, attempt count, delay and world they return the same
    outcome, leave the same world and await the same delays. *)
Theorem sequentialRetry_is_retryWithDelay
    {S : Type} (fn : operation S) (retries delay : Z) (s : S) :
  sequentialRetry fn retries delay s = retryWithDelay fn retries delay s.
Proof. apply sequentialRetry_loop_eq. Qed.

(** X2.  What [sequentialRetry] does, for every operation, count and
    delay, with [n] the count as a natural number (zero for a negative
    one).  Either invocation [k < n] is the first to succeed: the result
    is its value, the operation ran [k + 1] times and the function slept
    [delay] after each of the [k] failures.  Or the first [n] invocations
    all fail: the function fails with the generic error after [n]
    invocations and [n] sleeps, the last of them after the final failure,
    just before giving up. *)
Theorem sequentialRetry_spec
    {S : Type} (fn : operation S) (retries delay : Z) (s : S) :
  (exists k v, (k < Z.to_nat retries)%nat /\
     (forall j, (j < k)%nat -> is_rejected (attempt fn s j) = true) /\
     attempt fn s k = Resolved v /\
     sequentialRetry fn retries delay s
       = Some (Resolved v, after fn (Datatypes.S k) s, replicate k delay))
  \/
  ((forall j, (j < Z.to_nat retries)%nat ->
              is_rejected (attempt fn s j) = true) /\
   sequentialRetry fn retries delay s
     = Some (Rejected retry_limit_exceeded,
             after fn (Z.to_nat retries) s,
             replicate (Z.to_nat retries) delay)).
Proof.
  unfold sequentialRetry. rewrite sequentialRetry_loop_eq.
  destruct (retryWithDelay_loop_spec fn retries delay (Z.to_nat retries)
              (Z.to_nat retries) 0 s [])
    as [(k & v & Hk & Hrej & Hres & Hrun)|(Hrej & Hrun)];
    try (f_equal; lia); try lia.
  - left. exists k, v. auto.
  - right. auto.
Qed.

(** X3.  For a non-negative delay [d], [retryWithBackoff] with
    [baseDelay = maxDelay = d] is [retryWithDelay] with delay [d]: same
    outcome, same world, same delays awaited. *)
Theorem retryWithBackoff_constant_is_retryWithDelay
    {S : Type} (fn : operation S) (maxRetries d : Z) (s : S) :
  0 <= d ->
  retryWithBackoff fn maxRetries d d s = retryWithDelay fn maxRetries d s.
Proof. intros Hd. now apply retryWithBackoff_loop_constant. Qed.

Lemma retryWithBackoff_constant_witness :
  0 <= 100 /\
  retryWithBackoff succeeds_on_third 3 100 100 0%nat
  = retryWithDelay succeeds_on_third 3 100 0%nat.
Proof.
  split; [lia|].
  apply (retryWithBackoff_constant_is_retryWithDelay succeeds_on_third
           3 100 0%nat).
  lia.
Defined.

(** A negative delay is doubled, not kept: the two functions differ. *)
Example retryWithBackoff_negative_delay :
  retryWithBackoff (always_fails "boom") 2 (-1) (-1) 0%nat
    = Some (Rejected retry_limit_exceeded, 2%nat, [-1; -2]) /\
  retryWithDelay (always_fails "boom") 2 (-1) 0%nat
    = Some (Rejected retry_limit_exceeded, 2%nat, [-1; -1]).
Proof. split; reflexivity. Qed.

(** X4.  Allowing more attempts never changes a success of [retry]: if
    [retry] resolves to [v] with [n >= 1] attempts allowed, it resolves to
    [v], in the same world, with any [m >= n]. *)
Theorem retry_more_attempts_same_success
    {S : Type} (fn : operation S) (n m : Z) (s s' : S) (v : value) :
  1 <= n -> n <= m ->
  retry fn n s = Some (Resolved v, s') ->
  retry fn m s = Some (Resolved v, s').
Proof.
  intros Hn Hm Hrun. unfold retry in *.
  destruct (retry_loop_spec fn n (Z.to_nat n) (Z.to_nat n) 0 s)
    as [(k & w & Hk & Hrej & Hres & Hrun1)|(e & _ & _ & Hrun1)];
    try lia; rewrite Hrun1 in Hrun; [|discriminate].
  injection Hrun as <- <-.
  destruct (retry_loop_spec fn m (Z.to_nat m) (Z.to_nat m) 0 s)
    as [(k' & w' & Hk' & Hrej' & Hres' & Hrun2)|(e & Hall & _ & _)];
    try lia.
  - assert (k = k').
    { destruct (Nat.lt_trichotomy k k') as [Hlt|[Heq|Hlt]]; [|exact Heq|].
      - specialize (Hrej' k Hlt). rewrite Hres in Hrej'. discriminate.
      - specialize (Hrej k' Hlt). rewrite Hres' in Hrej. discriminate. }
    subst k'. rewrite Hrun2. assert (w' = w) by congruence. subst w'.
    reflexivity.
  - specialize (Hall k ltac:(lia)). rewrite Hres in Hall. discriminate.
Qed.

Lemma retry_more_attempts_witness :
  (1 <= 3 /\ 3 <= 5 /\
   retry succeeds_on_third 3 0%nat = Some (Resolved (VNum 3), 3%nat)) /\
  retry succeeds_on_third 5 0%nat = Some (Resolved (VNum 3), 3%nat).
Proof.
  split; [split; [lia|split; [lia|reflexivity]]|].
  apply (retry_more_attempts_same_success succeeds_on_third 3 5 0%nat
           3%nat (VNum 3)); [lia|lia|reflexivity].
Defined.

(** The delays of the backoff stay between the base and the ceiling and
    never decrease, for [0 <= delay <= maxDelay]. *)
Lemma backoff_delays_bounds maxDelay n : forall delay k w,
  0 <= delay <= maxDelay ->
  backoff_delays maxDelay delay n !! k = Some w ->
  delay <= w <= maxDelay.
Proof.
  induction n as [|n IH]; intros delay k w Hd Hk; [discriminate|].
  destruct k as [|k].
  - injection Hk as <-. lia.
  - cbn in Hk. apply IH in Hk; lia.
Qed.

Lemma backoff_delays_step maxDelay n : forall delay k w w',
  0 <= delay <= maxDelay ->
  backoff_delays maxDelay delay n !! k = Some w ->
  backoff_delays maxDelay delay n !! Datatypes.S k = Some w' ->
  w <= w'.
Proof.
  intros delay k w w' Hd Hk Hk'.
  assert (Hlt : (Datatypes.S k < n)%nat).
  { apply lookup_lt_Some in Hk'. now rewrite backoff_delays_length in Hk'. }
  rewrite (backoff_delays_next _ _ _ _ _ Hk Hlt) in Hk'. injection Hk' as <-.
  apply backoff_delays_bounds in Hk; lia.
Qed.

(** X6.  For [0 <= baseDelay <= maxDelay], the delays [retryWithBackoff]
    awaits never decrease from one failed attempt to the next and all lie
    between [baseDelay] and [maxDelay]. *)
Theorem backoff_waits_increase_to_ceiling
    {S : Type} (fn : operation S) (maxAttempts baseDelay maxDelay : Z)
    (s s' : S) (r : outcome) (waits : list Z) :
  0 <= baseDelay <= maxDelay ->
  retryWithBackoff fn maxAttempts baseDelay maxDelay s = Some (r, s', waits) ->
  (forall k w, waits !! k = Some w -> baseDelay <= w <= maxDelay) /\
  (forall k w w', waits !! k = Some w -> waits !! Datatypes.S k = Some w' ->
                  w <= w').
Proof.
  intros Hd Hrun. unfold retryWithBackoff in Hrun.
  assert (Hwaits : exists m, waits = backoff_delays maxDelay baseDelay m).
  { destruct (retryWithBackoff_loop_spec fn maxAttempts maxDelay
                (Z.to_nat maxAttempts) (Z.to_nat maxAttempts) 0 baseDelay s [])
      as [(k & v & _ & _ & _ & Hrun')|(_ & Hrun')];
      try (f_equal; lia); try lia;
      rewrite Hrun' in Hrun; injection Hrun as <- <- <-; eauto. }
  destruct Hwaits as [m ->]. split.
  - intros k w. now apply backoff_delays_bounds.
  - intros k w w'. now apply backoff_delays_step.
Qed.

Lemma backoff_waits_witness :
  (0 <= 100 <= 500 /\
   retryWithBackoff (always_fails "boom") 5 100 500 0%nat
   = Some (Rejected retry_limit_exceeded, 5%nat, [100; 200; 400; 500; 500]))
  /\
  (forall k w, [100; 200; 400; 500; 500] !! k = Some w -> 100 <= w <= 500) /\
  (forall k w w', [100; 200; 400; 500; 500] !! k = Some w ->
                  [100; 200; 400; 500; 500] !! Datatypes.S k = Some w' ->
                  w <= w').
Proof.
  split; [split; [lia|reflexivity]|].
  apply (backoff_waits_increase_to_ceiling (always_fails "boom") 5 100 500
           0%nat 5%nat (Rejected retry_limit_exceeded)
           [100; 200; 400; 500; 500]); [lia|reflexivity].
Defined.

(** * Further properties of the completion combinators *)

Section SequenceFacts.
Context {S : Type}.

Lemma sequence_loop_app (fns1 fns2 : list (operation S)) :
  forall result (s : S),
  sequence_loop (fns1 ++ fns2) result s
  = match sequence_loop fns1 result s with
    | (Resolved v, s1) => sequence_loop fns2 v s1
    | (Rejected e, s1) => (Rejected e, s1)
    end.
Proof.
  induction fns1 as [|fn fns1 IH]; intros result s; [reflexivity|].
  cbn [app sequence_loop]. destruct (fn s) as [[v|e] s']; [apply IH|reflexivity].
Qed.

(** With at least one operation to run, the value the loop starts from is
    forgotten. *)
Lemma sequence_loop_start (fns : list (operation S)) result result' (s : S) :
  fns <> [] -> sequence_loop fns result s = sequence_loop fns result' s.
Proof. destruct fns; [congruence|reflexivity]. Qed.

End SequenceFacts.

(** X7.  A failure ends a sequence: if the operations [fns1] run in
    sequence fail with [e], then so does [fns1] followed by any [fns2],
    with the same reason and in the same world; no operation of [fns2] is
    invoked. *)
Theorem sequence_aborts_on_failure
    {S : Type} (fns1 fns2 : list (operation S)) (s s1 : S) (e : value) :
  sequence fns1 s = (Rejected e, s1) ->
  sequence (fns1 ++ fns2) s = (Rejected e, s1).
Proof.
  unfold sequence. intros Hfail. now rewrite sequence_loop_app, Hfail.
Qed.

Lemma sequence_aborts_witness :
  sequence [always_fails "first"] 0%nat = (Rejected (VError "first"), 1%nat) /\
  sequence ([always_fails "first"] ++ [succeeds_on_third; succeeds_on_third])
    0%nat
  = (Rejected (VError "first"), 1%nat).
Proof.
  split; [reflexivity|].
  apply (sequence_aborts_on_failure [always_fails "first"]
           [succeeds_on_third; succeeds_on_third] 0%nat 1%nat (VError "first")).
  reflexivity.
Defined.

(** X8.  Sequences compose: if the operations [fns1] run in sequence all
    succeed and leave the world [s1], then [fns1] followed by a non-empty
    [fns2] behaves as [fns2] run in sequence from [s1]; the result is that
    of the last operation and the results of [fns1] are dropped. *)
Theorem sequence_composes
    {S : Type} (fns1 fns2 : list (operation S)) (s s1 : S) (v : value) :
  sequence fns1 s = (Resolved v, s1) -> fns2 <> [] ->
  sequence (fns1 ++ fns2) s = sequence fns2 s1.
Proof.
  unfold sequence. intros Hok Hne. rewrite sequence_loop_app, Hok.
  now apply sequence_loop_start.
Qed.

Lemma sequence_composes_witness :
  (sequence [succeeds_on_third; succeeds_on_third] 2%nat
     = (Resolved (VNum 4), 4%nat) /\
   [succeeds_on_third] <> []) /\
  sequence ([succeeds_on_third; succeeds_on_third] ++ [succeeds_on_third])
    2%nat
  = sequence [succeeds_on_third] 4%nat.
Proof.
  split; [split; [reflexivity|discriminate]|].
  apply (sequence_composes [succeeds_on_third; succeeds_on_third]
           [succeeds_on_third] 2%nat 4%nat (VNum 4));
    [reflexivity|discriminate].
Defined.

Section ParallelFacts.
Context {S : Type}.

Lemma Promise_race_spec (ps : list promise) :
  ps <> [] ->
  exists p, Promise_race ps = Some p /\ p ∈ ps /\
            forall q, q ∈ ps -> (fst p <= fst q)%nat.
Proof.
  induction ps as [|p ps IH]; intros Hne; [congruence|].
  cbn [Promise_race]. destruct ps as [|p' ps].
  - exists p. cbn. split; [reflexivity|].
    split; [apply list_elem_of_singleton; reflexivity|].
    intros q Hq. apply list_elem_of_singleton in Hq. subst q. lia.
  - destruct IH as (w & -> & Hin & Hmin); [discriminate|].
    destruct (Nat.ltb_spec (fst w) (fst p)) as [Hlt|Hge].
    + exists w. split; [reflexivity|]. split; [now right|].
      intros q Hq. apply elem_of_cons in Hq as [->|Hq]; [lia|now apply Hmin].
    + exists p. split; [reflexivity|]. split; [now left|].
      intros q Hq. apply elem_of_cons in Hq as [->|Hq]; [lia|].
      specialize (Hmin q Hq). lia.
Qed.

(** [fns.map(fn => fn())] either invokes every operation, or stops at the
    first one that throws. *)
Lemma invoke_all_cases (fns : list (callable S)) : forall s,
  (exists ps s', invoke_all fns s = (Returns ps, s')) \/
  (exists fns1 fn fns2 ps s1 error s',
     fns = fns1 ++ fn :: fns2 /\
     invoke_all fns1 s = (Returns ps, s1) /\
     fn s1 = (Throws error, s') /\
     invoke_all fns s = (Throws error, s')).
Proof.
  induction fns as [|fn fns IH]; intros s; [left; now exists [], s|].
  destruct (fn s) as [[p|e] s1] eqn:Hfn.
  - destruct (IH s1) as [(ps & s' & Hrun)
                        |(fns1 & fn' & fns2 & ps & s1' & e & s' &
                          -> & Hrun1 & Hfn' & Hrun)].
    + left. exists (p :: ps), s'. cbn [invoke_all]. now rewrite Hfn, Hrun.
    + right. exists (fn :: fns1), fn', fns2, (p :: ps), s1', e, s'.
      split; [reflexivity|]. split; [|split; [exact Hfn'|]].
      * cbn [invoke_all]. now rewrite Hfn, Hrun1.
      * cbn [invoke_all]. now rewrite Hfn, Hrun.
  - right. exists [], fn, fns, [], s, e, s1.
    split; [reflexivity|]. split; [reflexivity|]. split; [exact Hfn|].
    cbn [invoke_all]. now rewrite Hfn.
Qed.

(** When every operation returns, promise number [k] is the one operation
    number [k] returned, invoked in the world the operations before it
    left. *)
Lemma invoke_all_lookup (fns : list (callable S)) : forall s ps s',
  invoke_all fns s = (Returns ps, s') ->
  forall k fn, fns !! k = Some fn ->
  exists sk pk sk',
    invoke_all (take k fns) s = (Returns (take k ps), sk) /\
    fn sk = (Returns pk, sk') /\
    ps !! k = Some pk.
Proof.
  induction fns as [|fn0 fns IH]; intros s ps s' Hrun k fn Hk;
    [discriminate|].
  cbn [invoke_all] in Hrun. destruct (fn0 s) as [[p|e] s1] eqn:Hfn0;
    [|discriminate].
  destruct (invoke_all fns s1) as [[qs|e] s2] eqn:Hrest; [|discriminate].
  injection Hrun as <- <-.
  destruct k as [|k].
  - injection Hk as <-. exists s, p, s1. split; [reflexivity|].
    split; [exact Hfn0|reflexivity].
  - destruct (IH s1 qs s2 Hrest k fn Hk) as (sk & pk & sk' & Htake & Hfn & Hpk).
    exists sk, pk, sk'. split; [|split; [exact Hfn|exact Hpk]].
    cbn [take invoke_all]. now rewrite Hfn0, Htake.
Qed.

End ParallelFacts.

(** The tests of [parallel] and [sequence]: the first operation takes 100
    ms and the second 50 ms. *)
Example parallel_test :
  parallel [returning (resolves_to "f1" 100 (VStr "Result 1"));
            returning (resolves_to "f2" 50 (VStr "Result 2"))] []
  = (Returns (100%nat, Resolved (VArr [VStr "Result 1"; VStr "Result 2"])),
     ["f1"; "f2"]).
Proof. reflexivity. Qed.

Example sequence_test :
  sequence [(fun log => (Resolved (VStr "Result 1"), log ++ ["f1"]));
            (fun log => (Resolved (VStr "Result 2"), log ++ ["f2"]))] []
  = (Resolved (VStr "Result 2"), ["f1"; "f2"]).
Proof. reflexivity. Qed.

(** With failures the completion order shows: [parallel] rejects with the
    reason of the operation that fails first.  When an operation throws,
    [parallel] throws and the operations after it are not invoked. *)
Example parallel_rejects_with_first_failure :
  fst (parallel [returning (rejects_with "f1" 100 (VStr "x"));
                 returning (rejects_with "f2" 50 (VStr "y"))] [])
    = Returns (50%nat, Rejected (VStr "y")) /\
  fst (parallel [returning (rejects_with "f1" 10 (VStr "x"));
                 returning (rejects_with "f2" 50 (VStr "y"))] [])
    = Returns (10%nat, Rejected (VStr "x")) /\
  parallel [returning (resolves_to "f1" 10 (VStr "a"));
            throws "f2" (VStr "y");
            returning (resolves_to "f3" 10 (VStr "c"))] []
    = (Throws (VStr "y"), ["f1"; "f2"]).
Proof. split; [|split]; reflexivity. Qed.

(** X11.  For every [batchSize >= 1], [batch] does what [parallel] does
    and the grouping changes nothing.  When an operation throws, so that
    [parallel] throws the error, [batch] rejects with that error at once,
    in the same world: the operations after the one that throws are not
    invoked.  When every operation returns a promise and these all
    resolve to values that are not arrays, [batch] resolves to what the
    promise of [parallel] resolves to and leaves the same world. *)
Theorem batch_is_parallel
    {S : Type} (fns : list (callable S)) (batchSize : Z) (s : S) :
  1 <= batchSize ->
  (forall error s',
     parallel fns s = (Throws error, s') ->
     batch fns batchSize s = Some ((0%nat, Rejected error), s')) /\
  (forall ps s',
     invoke_all fns s = (Returns ps, s') ->
     Forall (fun p => plain_result p = true) ps ->
     exists t p,
       parallel fns s = (Returns p, s') /\
       batch fns batchSize s = Some ((t, snd p), s')).
Proof.
  intros Hsize. split.
  - intros error s' Hpar. apply batch_throws; [exact Hsize|].
    unfold parallel in Hpar.
    destruct (invoke_all fns s) as [[ps|e] s1]; [discriminate|].
    now injection Hpar as -> ->.
  - intros ps s' Hrun Hplain.
    destruct (batch_plain_results fns batchSize s s' ps Hsize Hrun Hplain)
      as (_ & t & results & Hbatch & -> & _).
    exists t, (Promise_all ps). unfold parallel. rewrite Hrun.
    split; [reflexivity|]. rewrite Hbatch. unfold Promise_all.
    now rewrite first_rejection_plain.
Qed.

Lemma batch_is_parallel_witness :
  let fns := [returning (resolves_to "f1" 30 (VStr "a"));
              returning (resolves_to "f2" 10 (VStr "b"));
              returning (resolves_to "f3" 20 (VStr "c"))] in
  1 <= 2 /\
  (forall error s',
     parallel fns [] = (Throws error, s') ->
     batch fns 2 [] = Some ((0%nat, Rejected error), s')) /\
  (forall ps s',
     invoke_all fns [] = (Returns ps, s') ->
     Forall (fun p => plain_result p = true) ps ->
     exists t p,
       parallel fns [] = (Returns p, s') /\
       batch fns 2 [] = Some ((t, snd p), s')).
Proof.
  cbv zeta. split; [lia|].
  apply (batch_is_parallel
           [returning (resolves_to "f1" 30 (VStr "a"));
            returning (resolves_to "f2" 10 (VStr "b"));
            returning (resolves_to "f3" 20 (VStr "c"))] 2 []).
  lia.
Defined.

(** X12.  [race] invokes the operations in input order, each in the
    world the ones before it left, and stops at the first one that
    throws.  Either every operation returns its promise: then [race]
    returns a promise, which settles as one of theirs that no other
    precedes, fulfilled or rejected (for no operation at all it never
    settles).  Or one operation throws: then [race] throws that error and
    returns no promise, and the operations after it are not invoked. *)
Theorem race_settles_with_the_first
    {S : Type} (fns : list (callable S)) (s : S) :
  (exists ps s',
     invoke_all fns s = (Returns ps, s') /\
     (forall k fn, fns !! k = Some fn ->
        exists sk pk sk',
          invoke_all (take k fns) s = (Returns (take k ps), sk) /\
          fn sk = (Returns pk, sk') /\ ps !! k = Some pk) /\
     length ps = length fns /\
     race fns s = (Returns (Promise_race ps), s') /\
     (fns = [] -> Promise_race ps = None) /\
     (fns <> [] ->
      exists p, Promise_race ps = Some p /\ p ∈ ps /\
                forall q, q ∈ ps -> (fst p <= fst q)%nat)) \/
  (exists fns1 fn fns2 ps s1 error s',
     fns = fns1 ++ fn :: fns2 /\
     invoke_all fns1 s = (Returns ps, s1) /\
     fn s1 = (Throws error, s') /\
     race fns s = (Throws error, s')).
Proof.
  destruct (invoke_all_cases fns s)
    as [(ps & s' & Hrun)
       |(fns1 & fn & fns2 & ps & s1 & e & s' & Hfns & Hrun1 & Hfn & Hrun)].
  - left. exists ps, s'. split; [exact Hrun|].
    pose proof (invoke_all_length fns s ps s' Hrun) as Hlen.
    split; [now apply invoke_all_lookup with (s' := s')|].
    split; [exact Hlen|].
    split; [unfold race; now rewrite Hrun|]. split.
    + intros ->. destruct ps; [reflexivity|discriminate].
    + intros Hne. apply Promise_race_spec. intros ->.
      destruct fns; [congruence|discriminate].
  - right. exists fns1, fn, fns2, ps, s1, e, s'.
    split; [exact Hfns|]. split; [exact Hrun1|]. split; [exact Hfn|].
    unfold race. now rewrite Hrun.
Qed.

(** The test of [race]; a race nobody runs, which never settles; and a
    race in which the second operation throws: the third is not invoked. *)
Example race_test :
  race [returning (resolves_to "f1" 100 (VStr "Result 1"));
        returning (resolves_to "f2" 50 (VStr "Result 2"))] []
  = (Returns (Some (50%nat, Resolved (VStr "Result 2"))), ["f1"; "f2"]).
Proof. reflexivity. Qed.

Example race_empty :
  race [] ([] : list string) = (Returns None, []).
Proof. reflexivity. Qed.

Example race_throws :
  race [returning (resolves_to "f1" 100 (VStr "Result 1"));
        throws "f2" (VStr "no");
        returning (resolves_to "f3" 50 (VStr "Result 3"))] []
  = (Throws (VStr "no"), ["f1"; "f2"]).
Proof. reflexivity. Qed.

(** * Further properties of the collection operators *)

Section VisitFacts.
Context {S : Type}.
Variable cb : callback S.
Variable array : list value.

Lemma visit_eq (i : nat) (s : S) x r s' :
  array !! i = Some x -> cb x i array s = (r, (array, s')) ->
  visit cb array (i, s) = (r, (Datatypes.S i, s')).
Proof.
  intros Hx Hcb. unfold visit, element. cbn [fst snd].
  rewrite Hx. cbn [default from_option id]. now rewrite Hcb.
Qed.

Lemma attempt_visit_zero (i : nat) (s : S) x r s' :
  array !! i = Some x -> cb x i array s = (r, (array, s')) ->
  attempt (visit cb array) (i, s) 0 = r.
Proof.
  intros Hx Hcb. rewrite attempt_zero. now rewrite (visit_eq i s x r s').
Qed.

Lemma attempt_visit_succ (i : nat) (s : S) x r s' k :
  array !! i = Some x -> cb x i array s = (r, (array, s')) ->
  attempt (visit cb array) (i, s) (Datatypes.S k)
  = attempt (visit cb array) (Datatypes.S i, s') k.
Proof.
  intros Hx Hcb. rewrite <- attempt_shift.
  now rewrite (visit_eq i s x r s').
Qed.

Lemma after_visit_succ (i : nat) (s : S) x r s' k :
  array !! i = Some x -> cb x i array s = (r, (array, s')) ->
  after (visit cb array) (Datatypes.S k) (i, s)
  = after (visit cb array) k (Datatypes.S i, s').
Proof.
  intros Hx Hcb. cbn [after]. now rewrite (visit_eq i s x r s').
Qed.

(** A callback that keeps the array, called on an index in range. *)
Lemma keeps_array_call (i : nat) (s : S) :
  keeps_array cb -> (i < length array)%nat ->
  exists x r s', array !! i = Some x /\ cb x i array s = (r, (array, s')).
Proof.
  intros Hkeep Hi.
  destruct (lookup_lt_is_Some_2 array i Hi) as [x Hx].
  exists x. specialize (Hkeep x i array s).
  destruct (cb x i array s) as [r [array' s']]. cbn in Hkeep. subst array'.
  eauto.
Qed.

End VisitFacts.

Lemma map_seq_head {A : Type} (f : nat -> A) (m : nat) :
  map f (seq 0 (Datatypes.S m)) = f 0%nat :: map (fun j => f (Datatypes.S j)) (seq 0 m).
Proof. cbn [seq map]. f_equal. now rewrite <- seq_shift, map_map. Qed.

Lemma lookup_map_seq {A : Type} (f : nat -> A) (n : nat) :
  forall start j, (j < n)%nat ->
  map f (seq start n) !! j = Some (f (start + j)%nat).
Proof.
  induction n as [|n IH]; intros start j Hj; [lia|].
  destruct j as [|j]; cbn [seq map].
  - now rewrite Nat.add_0_r.
  - change ((?a :: ?l) !! Datatypes.S j) with (l !! j).
    rewrite IH by lia. f_equal. f_equal. lia.
Qed.

Section MapAsyncFacts.
Context {S : Type}.
Variable cb : callback S.
Variable array : list value.
Hypothesis Hkeep : keeps_array cb.

(** The loop of [mapAsync] with [m] elements left: it stops at the first
    visit that fails, or collects the values of the [m] visits. *)
Lemma mapAsync_loop_spec m : forall fuel i result (s : S),
  (i + m = length array)%nat -> (m <= fuel)%nat ->
  (exists k e, (k < m)%nat /\
     (forall j, (j < k)%nat ->
        is_resolved (attempt (visit cb array) (i, s) j) = true) /\
     attempt (visit cb array) (i, s) k = Rejected e /\
     mapAsync_loop cb fuel i array result s
     = Some (Rejected e,
             (array, snd (after (visit cb array) (Datatypes.S k) (i, s)))))
  \/
  ((forall j, (j < m)%nat ->
      is_resolved (attempt (visit cb array) (i, s) j) = true) /\
   mapAsync_loop cb fuel i array result s
   = Some (Resolved
             (VArr (result ++
                    map (fun j => outcome_value
                                    (attempt (visit cb array) (i, s) j))
                        (seq 0 m))),
           (array, snd (after (visit cb array) m (i, s))))).
Proof.
  induction m as [|m IH]; intros fuel i result s Hi Hfuel.
  - right. split; [intros; lia|].
    destruct fuel; cbn [mapAsync_loop]; rewrite lookup_ge_None_2 by lia;
      cbn; now rewrite app_nil_r.
  - destruct fuel as [|fuel]; [lia|].
    destruct (keeps_array_call cb array i s Hkeep ltac:(lia))
      as (x & r & s' & Hx & Hcb).
    cbn [mapAsync_loop]. rewrite Hx, Hcb.
    pose proof (attempt_visit_zero cb array i s x r s' Hx Hcb) as H0.
    destruct r as [v|e].
    + destruct (IH fuel (Datatypes.S i) (result ++ [v]) s')
        as [(k & e & Hk & Hres & Hrej & Hrun)|(Hres & Hrun)]; try lia.
      * left. exists (Datatypes.S k), e. split; [lia|]. split; [|split].
        -- intros [|j] Hj; [now rewrite H0|].
           rewrite (attempt_visit_succ cb array i s x _ s' j Hx Hcb).
           apply Hres. lia.
        -- now rewrite (attempt_visit_succ cb array i s x _ s' k Hx Hcb).
        -- rewrite Hrun.
           now rewrite (after_visit_succ cb array i s x _ s' _ Hx Hcb).
      * right. split.
        -- intros [|j] Hj; [now rewrite H0|].
           rewrite (attempt_visit_succ cb array i s x _ s' j Hx Hcb).
           apply Hres. lia.
        -- rewrite Hrun, map_seq_head, H0. cbn [outcome_value].
           rewrite <- app_assoc. cbn [app].
           rewrite (after_visit_succ cb array i s x _ s' _ Hx Hcb).
           rewrite (map_ext
                      (fun j => outcome_value
                         (attempt (visit cb array) (i, s) (Datatypes.S j)))
                      (fun j => outcome_value
                         (attempt (visit cb array) (Datatypes.S i, s') j)));
             [reflexivity|].
           intros j.
           now rewrite (attempt_visit_succ cb array i s x _ s' j Hx Hcb).
    + left. exists 0%nat, e. split; [lia|]. split; [intros; lia|].
      split; [exact H0|].
      now rewrite (after_visit_succ cb array i s x _ s' _ Hx Hcb).
Qed.

End MapAsyncFacts.

(** X13.  [mapAsync] with a mapper that leaves the array alone visits the
    elements in index order, each visit in the world the previous one
    left.  If a visit fails, [mapAsync] fails with the reason of the
    first failing visit and the later elements are never visited.
    Otherwise it resolves to the values of the visits, one per element,
    in order.  In both cases the array is untouched and the loop ends
    within [length array] iterations. *)
Theorem mapAsync_spec
    {S : Type} (asyncMapper : callback S) (array : list value) (fuel : nat)
    (s : S) :
  keeps_array asyncMapper -> (length array <= fuel)%nat ->
  let outcomes := attempt (visit asyncMapper array) (0%nat, s) in
  let world k := snd (after (visit asyncMapper array) k (0%nat, s)) in
  (exists k e, (k < length array)%nat /\
     (forall j, (j < k)%nat -> is_resolved (outcomes j) = true) /\
     outcomes k = Rejected e /\
     mapAsync fuel array asyncMapper s
     = Some (Rejected e, (array, world (Datatypes.S k))))
  \/
  (exists results,
     (forall j, (j < length array)%nat -> is_resolved (outcomes j) = true) /\
     length results = length array /\
     (forall j, (j < length array)%nat ->
        results !! j = Some (outcome_value (outcomes j))) /\
     mapAsync fuel array asyncMapper s
     = Some (Resolved (VArr results), (array, world (length array)))).
Proof.
  intros Hkeep Hfuel outcomes world. unfold mapAsync.
  destruct (mapAsync_loop_spec asyncMapper array Hkeep (length array) fuel
              0%nat [] s eq_refl Hfuel)
    as [(k & e & Hk & Hres & Hrej & Hrun)|(Hres & Hrun)].
  - left. exists k, e. auto.
  - right. eexists. split; [exact Hres|]. split; [|split; [|exact Hrun]].
    + cbn [app]. now rewrite length_map, length_seq.
    + intros j Hj. cbn [app]. now apply lookup_map_seq.
Qed.

Lemma keeps_array_pure {S : Type} (f : value -> nat -> value) :
  keeps_array (@pure_callback S f).
Proof. intros x i array s. reflexivity. Qed.

Lemma mapAsync_spec_witness :
  (keeps_array (@pure_callback nat times_two) /\
   (length [VNum 1; VNum 2; VNum 3] <= 3)%nat) /\
  let array := [VNum 1; VNum 2; VNum 3] in
  let outcomes := attempt (visit (pure_callback times_two) array)
                    (0%nat, 0%nat) in
  let world k := snd (after (visit (pure_callback times_two) array) k
                        (0%nat, 0%nat)) in
  (exists k e, (k < length array)%nat /\
     (forall j, (j < k)%nat -> is_resolved (outcomes j) = true) /\
     outcomes k = Rejected e /\
     mapAsync 3 array (pure_callback times_two) 0%nat
     = Some (Rejected e, (array, world (Datatypes.S k))))
  \/
  (exists results,
     (forall j, (j < length array)%nat -> is_resolved (outcomes j) = true) /\
     length results = length array /\
     (forall j, (j < length array)%nat ->
        results !! j = Some (outcome_value (outcomes j))) /\
     mapAsync 3 array (pure_callback times_two) 0%nat
     = Some (Resolved (VArr results), (array, world (length array)))).
Proof.
  split; [split; [apply keeps_array_pure|cbn; lia]|].
  apply (mapAsync_spec (pure_callback times_two) [VNum 1; VNum 2; VNum 3]
           3 0%nat (keeps_array_pure times_two)).
  cbn; lia.
Defined.

(** The test of [mapAsync]; a mapper that shortens the array ends the
    loop early. *)
Example mapAsync_test :
  mapAsync 3 [VNum 1; VNum 2; VNum 3] (pure_callback times_two) 0%nat
  = Some (Resolved (VArr [VNum 2; VNum 4; VNum 6]),
          ([VNum 1; VNum 2; VNum 3], 0%nat)).
Proof. reflexivity. Qed.

Example mapAsync_popping :
  mapAsync 4 [VNum 1; VNum 2; VNum 3; VNum 4] popping 0%nat
  = Some (Resolved (VArr [VNum 1; VNum 2]), ([VNum 1; VNum 2], 2%nat)).
Proof. reflexivity. Qed.

Section CollectionRelations.
Context {S : Type}.
Variable cb : callback S.

Lemma forEachAsync_loop_map fuel : forall i array result (s : S),
  forEachAsync_loop cb fuel i array s
  = discard_result <$> mapAsync_loop cb fuel i array result s.
Proof.
  induction fuel as [|fuel IH]; intros i array result s;
    cbn [forEachAsync_loop mapAsync_loop];
    destruct (array !! i) as [x|]; try reflexivity.
  destruct (cb x i array s) as [[v|e] [array' s']]; [apply IH|reflexivity].
Qed.

Lemma truthy_negb v : truthy (VBool (negb (truthy v))) = negb (truthy v).
Proof. reflexivity. Qed.

Lemma everyAsync_loop_negated fuel : forall i array (s : S),
  everyAsync_loop (negated cb) fuel i array s
  = negate_result <$> someAsync_loop cb fuel i array s.
Proof.
  induction fuel as [|fuel IH]; intros i array s;
    cbn [everyAsync_loop someAsync_loop];
    destruct (array !! i) as [x|]; try reflexivity.
  unfold negated at 1.
  destruct (cb x i array s) as [[v|e] [array' s']]; cbn [fst snd];
    [|reflexivity].
  rewrite truthy_negb, negb_involutive.
  destruct (truthy v); [reflexivity|apply IH].
Qed.

Lemma someAsync_loop_negated fuel : forall i array (s : S),
  someAsync_loop (negated cb) fuel i array s
  = negate_result <$> everyAsync_loop cb fuel i array s.
Proof.
  induction fuel as [|fuel IH]; intros i array s;
    cbn [everyAsync_loop someAsync_loop];
    destruct (array !! i) as [x|]; try reflexivity.
  unfold negated at 1.
  destruct (cb x i array s) as [[v|e] [array' s']]; cbn [fst snd];
    [|reflexivity].
  rewrite truthy_negb.
  destruct (truthy v); [apply IH|reflexivity].
Qed.

Lemma findAsync_loop_index fuel : forall i array (s : S),
  findAsync_loop cb fuel i array s
  = at_index <$> findIndexAsync_loop cb fuel i array s.
Proof.
  induction fuel as [|fuel IH]; intros i array s;
    cbn [findAsync_loop findIndexAsync_loop];
    destruct (array !! i) as [x|]; try reflexivity.
  destruct (cb x i array s) as [[v|e] [array' s']]; [|reflexivity].
  destruct (truthy v); [|apply IH].
  cbn. unfold at_index. cbn [fst snd].
  destruct (Z.ltb_spec (Z.of_nat i) 0); [lia|].
  now rewrite Nat2Z.id.
Qed.

Lemma someAsync_loop_index fuel : forall i array (s : S),
  someAsync_loop cb fuel i array s
  = found <$> findIndexAsync_loop cb fuel i array s.
Proof.
  induction fuel as [|fuel IH]; intros i array s;
    cbn [someAsync_loop findIndexAsync_loop];
    destruct (array !! i) as [x|]; try reflexivity.
  destruct (cb x i array s) as [[v|e] [array' s']]; [|reflexivity].
  destruct (truthy v); [|apply IH].
  cbn. unfold found. cbn [fst snd].
  destruct (Z.leb_spec 0 (Z.of_nat i)); [reflexivity|lia].
Qed.

End CollectionRelations.

(** X14.  [forEachAsync] is [mapAsync] with the results thrown away: for
    every callback, array, world and fuel, it makes the same calls in the
    same order, leaves the same array and world, fails with the same
    reason when a call fails (and then makes no further call), and
    otherwise resolves to [undefined]. *)
Theorem forEachAsync_is_mapAsync_without_results
    {S : Type} (cb : callback S) (fuel : nat) (array : list value) (s : S) :
  forEachAsync fuel array cb s = discard_result <$> mapAsync fuel array cb s.
Proof. apply forEachAsync_loop_map. Qed.

(** X15.  De Morgan for the asynchronous quantifiers.  For every
    predicate, array, world and fuel, [everyAsync] on the negated
    predicate makes the same calls as [someAsync] on the predicate and
    resolves to the negation of its answer, and [someAsync] on the negated
    predicate relates to [everyAsync] in the same way; failures are
    passed on unchanged. *)
Theorem some_every_duality
    {S : Type} (p : callback S) (fuel : nat) (array : list value) (s : S) :
  everyAsync fuel array (negated p) s
    = negate_result <$> someAsync fuel array p s /\
  someAsync fuel array (negated p) s
    = negate_result <$> everyAsync fuel array p s.
Proof.
  split; [apply everyAsync_loop_negated|apply someAsync_loop_negated].
Qed.

(** X16.  [findAsync] and [someAsync] are determined by
    [findIndexAsync]: for every predicate, array, world and fuel the three
    make the same calls; [findAsync] resolves to the element at the index
    [findIndexAsync] resolves to, read from the array as the calls left
    it, and to [undefined] when that index is -1; [someAsync] resolves to
    [true] exactly when that index is not -1. *)
Theorem find_and_some_follow_findIndex
    {S : Type} (p : callback S) (fuel : nat) (array : list value) (s : S) :
  findAsync fuel array p s = at_index <$> findIndexAsync fuel array p s /\
  someAsync fuel array p s = found <$> findIndexAsync fuel array p s.
Proof. split; [apply findAsync_loop_index|apply someAsync_loop_index]. Qed.

(** The tests of the searches. *)
Example findIndexAsync_test :
  findIndexAsync 5 [VNum 1; VNum 2; VNum 3; VNum 4; VNum 5]
    (pure_callback above_two) 0%nat
  = Some (Resolved (VNum 2),
          ([VNum 1; VNum 2; VNum 3; VNum 4; VNum 5], 0%nat)).
Proof. reflexivity. Qed.

Example findAsync_test :
  findAsync 5 [VNum 1; VNum 2; VNum 3; VNum 4; VNum 5]
    (pure_callback above_two) 0%nat
  = Some (Resolved (VNum 3),
          ([VNum 1; VNum 2; VNum 3; VNum 4; VNum 5], 0%nat)).
Proof. reflexivity. Qed.

Example someAsync_test :
  someAsync 5 [VNum 1; VNum 2; VNum 3; VNum 4; VNum 5]
    (pure_callback is_even) 0%nat
  = Some (Resolved (VBool true),
          ([VNum 1; VNum 2; VNum 3; VNum 4; VNum 5], 0%nat)).
Proof. reflexivity. Qed.

Example everyAsync_test :
  everyAsync 5 [VNum 2; VNum 4; VNum 6; VNum 8; VNum 10]
    (pure_callback is_even) 0%nat
  = Some (Resolved (VBool true),
          ([VNum 2; VNum 4; VNum 6; VNum 8; VNum 10], 0%nat)).
Proof. reflexivity. Qed.

Section FindIndexFacts.
Context {S : Type}.
Variable cb : callback S.
Variable array : list value.
Hypothesis Hkeep : keeps_array cb.

(** The loop of [findIndexAsync] with [m] elements left: it stops at the
    first visit that does not settle to a falsy value. *)
Lemma findIndexAsync_loop_spec m : forall fuel i (s : S),
  (i + m = length array)%nat -> (m <= fuel)%nat ->
  (exists k, (k < m)%nat /\
     (forall j, (j < k)%nat ->
        declines (attempt (visit cb array) (i, s) j) = true) /\
     declines (attempt (visit cb array) (i, s) k) = false /\
     findIndexAsync_loop cb fuel i array s
     = Some (match attempt (visit cb array) (i, s) k with
             | Resolved _ => Resolved (VNum (Z.of_nat (i + k)))
             | Rejected e => Rejected e
             end,
             (array, snd (after (visit cb array) (Datatypes.S k) (i, s)))))
  \/
  ((forall j, (j < m)%nat ->
      declines (attempt (visit cb array) (i, s) j) = true) /\
   findIndexAsync_loop cb fuel i array s
   = Some (Resolved (VNum (-1)),
           (array, snd (after (visit cb array) m (i, s))))).
Proof.
  induction m as [|m IH]; intros fuel i s Hi Hfuel.
  - right. split; [intros; lia|].
    destruct fuel; cbn [findIndexAsync_loop]; rewrite lookup_ge_None_2 by lia;
      reflexivity.
  - destruct fuel as [|fuel]; [lia|].
    destruct (keeps_array_call cb array i s Hkeep ltac:(lia))
      as (x & r & s' & Hx & Hcb).
    cbn [findIndexAsync_loop]. rewrite Hx, Hcb.
    pose proof (attempt_visit_zero cb array i s x r s' Hx Hcb) as H0.
    destruct r as [v|e].
    + destruct (truthy v) eqn:Hv.
      * left. exists 0%nat. split; [lia|]. split; [intros; lia|].
        rewrite H0. cbn [declines]. rewrite Hv. split; [reflexivity|].
        rewrite Nat.add_0_r.
        now rewrite (after_visit_succ cb array i s x _ s' _ Hx Hcb).
      * destruct (IH fuel (Datatypes.S i) s')
          as [(k & Hk & Hfalsy & Hstop & Hrun)|(Hfalsy & Hrun)]; try lia.
        -- left. exists (Datatypes.S k). split; [lia|]. split; [|split].
           ++ intros [|j] Hj; [rewrite H0; cbn; now rewrite Hv|].
              rewrite (attempt_visit_succ cb array i s x _ s' j Hx Hcb).
              apply Hfalsy. lia.
           ++ now rewrite (attempt_visit_succ cb array i s x _ s' k Hx Hcb).
           ++ rewrite Hrun.
              rewrite (attempt_visit_succ cb array i s x _ s' k Hx Hcb).
              rewrite (after_visit_succ cb array i s x _ s' _ Hx Hcb).
              replace (Datatypes.S i + k)%nat with (i + Datatypes.S k)%nat
                by lia.
              reflexivity.
        -- right. split.
           ++ intros [|j] Hj; [rewrite H0; cbn; now rewrite Hv|].
              rewrite (attempt_visit_succ cb array i s x _ s' j Hx Hcb).
              apply Hfalsy. lia.
           ++ rewrite Hrun.
              now rewrite (after_visit_succ cb array i s x _ s' _ Hx Hcb).
    + left. exists 0%nat. split; [lia|]. split; [intros; lia|].
      rewrite H0. split; [reflexivity|].
      now rewrite (after_visit_succ cb array i s x _ s' _ Hx Hcb).
Qed.

(** The loop of [filterAsync] with [m] elements left. *)
Lemma filterAsync_loop_spec m : forall fuel i result (s : S),
  (i + m = length array)%nat -> (m <= fuel)%nat ->
  (exists k e, (k < m)%nat /\
     (forall j, (j < k)%nat ->
        is_resolved (attempt (visit cb array) (i, s) j) = true) /\
     attempt (visit cb array) (i, s) k = Rejected e /\
     filterAsync_loop cb fuel i array result s
     = Some (Rejected e,
             (array, snd (after (visit cb array) (Datatypes.S k) (i, s)))))
  \/
  ((forall j, (j < m)%nat ->
      is_resolved (attempt (visit cb array) (i, s) j) = true) /\
   filterAsync_loop cb fuel i array result s
   = Some (Resolved
             (VArr (result ++
                    map (fun j => element array (i + j))
                      (List.filter
                         (fun j => accepts (attempt (visit cb array) (i, s) j))
                         (seq 0 m)))),
           (array, snd (after (visit cb array) m (i, s))))).
Proof.
  induction m as [|m IH]; intros fuel i result s Hi Hfuel.
  - right. split; [intros; lia|].
    destruct fuel; cbn [filterAsync_loop]; rewrite lookup_ge_None_2 by lia;
      cbn; now rewrite app_nil_r.
  - destruct fuel as [|fuel]; [lia|].
    destruct (keeps_array_call cb array i s Hkeep ltac:(lia))
      as (x & r & s' & Hx & Hcb).
    cbn [filterAsync_loop]. rewrite Hx, Hcb.
    pose proof (attempt_visit_zero cb array i s x r s' Hx Hcb) as H0.
    destruct r as [v|e].
    + destruct (IH fuel (Datatypes.S i)
                  (if truthy v then result ++ [element array i] else result)
                  s')
        as [(k & e & Hk & Hres & Hrej & Hrun)|(Hres & Hrun)]; try lia.
      * left. exists (Datatypes.S k), e. split; [lia|]. split; [|split].
        -- intros [|j] Hj; [now rewrite H0|].
           rewrite (attempt_visit_succ cb array i s x _ s' j Hx Hcb).
           apply Hres. lia.
        -- now rewrite (attempt_visit_succ cb array i s x _ s' k Hx Hcb).
        -- rewrite Hrun.
           now rewrite (after_visit_succ cb array i s x _ s' _ Hx Hcb).
      * right. split.
        -- intros [|j] Hj; [now rewrite H0|].
           rewrite (attempt_visit_succ cb array i s x _ s' j Hx Hcb).
           apply Hres. lia.
        -- rewrite Hrun.
           rewrite (after_visit_succ cb array i s x _ s' _ Hx Hcb).
           do 3 f_equal.
           cbn [seq List.filter]. rewrite H0. cbn [accepts].
           rewrite <- seq_shift, filter_map_swap.
           rewrite (List.filter_ext
                      (fun j => accepts
                         (attempt (visit cb array) (i, s) (Datatypes.S j)))
                      (fun j => accepts
                         (attempt (visit cb array) (Datatypes.S i, s') j))).
           2:{ intros j.
               now rewrite (attempt_visit_succ cb array i s x _ s' j Hx Hcb). }
           assert (Hshift : forall l,
                     map (fun j => element array (i + j)) (map Datatypes.S l)
                     = map (fun j => element array (Datatypes.S i + j)) l).
           { intros l. rewrite map_map. apply map_ext. intros j.
             f_equal. lia. }
           destruct (truthy v); cbn [map]; rewrite Hshift; [|reflexivity].
           rewrite Nat.add_0_r, <- app_assoc. reflexivity.
    + left. exists 0%nat, e. split; [lia|]. split; [intros; lia|].
      split; [exact H0|].
      now rewrite (after_visit_succ cb array i s x _ s' _ Hx Hcb).
Qed.

(** Whatever [filterAsync] resolves to is made of elements of the array,
    in their order. *)
Lemma filterAsync_loop_sublist fuel : forall i result (s : S) vs st,
  filterAsync_loop cb fuel i array result s = Some (Resolved (VArr vs), st) ->
  exists kept, vs = result ++ kept /\ kept `sublist_of` drop i array.
Proof.
  induction fuel as [|fuel IH]; intros i result s vs st Hrun;
    cbn [filterAsync_loop] in Hrun;
    destruct (array !! i) as [x|] eqn:Hx; try discriminate;
    try (injection Hrun as <- <-; exists []; rewrite app_nil_r; split;
         [reflexivity|apply sublist_nil_l]).
  pose proof (Hkeep x i array s) as Hsame.
  destruct (cb x i array s) as [[v|e] [array' s']]; [|discriminate].
  cbn in Hsame. subst array'.
  apply IH in Hrun as (kept & -> & Hsub).
  rewrite (drop_S _ _ _ Hx).
  destruct (truthy v).
  - exists (x :: kept). unfold element. rewrite Hx. cbn [default from_option id].
    rewrite <- app_assoc. split; [reflexivity|]. now apply sublist_skip.
  - exists kept. split; [reflexivity|]. now apply sublist_cons.
Qed.

End FindIndexFacts.

(** X17.  [findIndexAsync] with a predicate that leaves the array alone
    visits the elements in index order and stops at the first visit that
    does not settle to a falsy value: it resolves to the index of that
    visit when it settled to a truthy value and fails with its reason when
    it failed; the elements after it are never visited.  When every visit
    settles to a falsy value it resolves to -1 after visiting them all. *)
Theorem findIndexAsync_spec
    {S : Type} (asyncPredicate : callback S) (array : list value)
    (fuel : nat) (s : S) :
  keeps_array asyncPredicate -> (length array <= fuel)%nat ->
  let outcomes := attempt (visit asyncPredicate array) (0%nat, s) in
  let world k := snd (after (visit asyncPredicate array) k (0%nat, s)) in
  (exists k, (k < length array)%nat /\
     (forall j, (j < k)%nat -> declines (outcomes j) = true) /\
     declines (outcomes k) = false /\
     findIndexAsync fuel array asyncPredicate s
     = Some (match outcomes k with
             | Resolved _ => Resolved (VNum (Z.of_nat k))
             | Rejected e => Rejected e
             end, (array, world (Datatypes.S k))))
  \/
  ((forall j, (j < length array)%nat -> declines (outcomes j) = true) /\
   findIndexAsync fuel array asyncPredicate s
   = Some (Resolved (VNum (-1)), (array, world (length array)))).
Proof.
  intros Hkeep Hfuel outcomes world. unfold findIndexAsync.
  destruct (findIndexAsync_loop_spec asyncPredicate array Hkeep
              (length array) fuel 0%nat s eq_refl Hfuel)
    as [(k & Hk & Hfalsy & Hstop & Hrun)|(Hfalsy & Hrun)].
  - left. exists k. auto.
  - right. auto.
Qed.

Lemma findIndexAsync_spec_witness :
  (keeps_array (@pure_callback nat above_two) /\
   (length [VNum 1; VNum 2; VNum 3] <= 3)%nat) /\
  let array := [VNum 1; VNum 2; VNum 3] in
  let outcomes := attempt (visit (pure_callback above_two) array)
                    (0%nat, 0%nat) in
  let world k := snd (after (visit (pure_callback above_two) array) k
                        (0%nat, 0%nat)) in
  (exists k, (k < length array)%nat /\
     (forall j, (j < k)%nat -> declines (outcomes j) = true) /\
     declines (outcomes k) = false /\
     findIndexAsync 3 array (pure_callback above_two) 0%nat
     = Some (match outcomes k with
             | Resolved _ => Resolved (VNum (Z.of_nat k))
             | Rejected e => Rejected e
             end, (array, world (Datatypes.S k))))
  \/
  ((forall j, (j < length array)%nat -> declines (outcomes j) = true) /\
   findIndexAsync 3 array (pure_callback above_two) 0%nat
   = Some (Resolved (VNum (-1)), (array, world (length array)))).
Proof.
  split; [split; [apply keeps_array_pure|cbn; lia]|].
  apply (findIndexAsync_spec (pure_callback above_two)
           [VNum 1; VNum 2; VNum 3] 3 0%nat (keeps_array_pure above_two)).
  cbn; lia.
Defined.

(** X18.  [filterAsync] with a predicate that leaves the array alone
    visits the elements in index order.  If a visit fails it fails with
    the reason of the first failing visit and visits nothing further.
    Otherwise it resolves to the elements whose visit settled to a truthy
    value, in index order. *)
Theorem filterAsync_spec
    {S : Type} (asyncPredicate : callback S) (array : list value)
    (fuel : nat) (s : S) :
  keeps_array asyncPredicate -> (length array <= fuel)%nat ->
  let outcomes := attempt (visit asyncPredicate array) (0%nat, s) in
  let world k := snd (after (visit asyncPredicate array) k (0%nat, s)) in
  (exists k e, (k < length array)%nat /\
     (forall j, (j < k)%nat -> is_resolved (outcomes j) = true) /\
     outcomes k = Rejected e /\
     filterAsync fuel array asyncPredicate s
     = Some (Rejected e, (array, world (Datatypes.S k))))
  \/
  ((forall j, (j < length array)%nat -> is_resolved (outcomes j) = true) /\
   filterAsync fuel array asyncPredicate s
   = Some (Resolved
             (VArr (map (element array)
                      (List.filter (fun j => accepts (outcomes j))
                         (seq 0 (length array))))),
           (array, world (length array)))).
Proof.
  intros Hkeep Hfuel outcomes world. unfold filterAsync.
  destruct (filterAsync_loop_spec asyncPredicate array Hkeep
              (length array) fuel 0%nat [] s eq_refl Hfuel)
    as [(k & e & Hk & Hres & Hrej & Hrun)|(Hres & Hrun)].
  - left. exists k, e. auto.
  - right. split; [exact Hres|]. exact Hrun.
Qed.

Lemma filterAsync_spec_witness :
  (keeps_array (@pure_callback nat is_even) /\
   (length [VNum 1; VNum 2; VNum 3; VNum 4] <= 4)%nat) /\
  let array := [VNum 1; VNum 2; VNum 3; VNum 4] in
  let outcomes := attempt (visit (pure_callback is_even) array)
                    (0%nat, 0%nat) in
  let world k := snd (after (visit (pure_callback is_even) array) k
                        (0%nat, 0%nat)) in
  (exists k e, (k < length array)%nat /\
     (forall j, (j < k)%nat -> is_resolved (outcomes j) = true) /\
     outcomes k = Rejected e /\
     filterAsync 4 array (pure_callback is_even) 0%nat
     = Some (Rejected e, (array, world (Datatypes.S k))))
  \/
  ((forall j, (j < length array)%nat -> is_resolved (outcomes j) = true) /\
   filterAsync 4 array (pure_callback is_even) 0%nat
   = Some (Resolved
             (VArr (map (element array)
                      (List.filter (fun j => accepts (outcomes j))
                         (seq 0 (length array))))),
           (array, world (length array)))).
Proof.
  split; [split; [apply keeps_array_pure|cbn; lia]|].
  apply (filterAsync_spec (pure_callback is_even)
           [VNum 1; VNum 2; VNum 3; VNum 4] 4 0%nat
           (keeps_array_pure is_even)).
  cbn; lia.
Defined.

(** X19.  [filterAsync] with a predicate that leaves the array alone
    never invents, repeats or reorders elements: whatever array it
    resolves to is a subsequence of the input, hence no longer than it. *)
Theorem filterAsync_result_is_subsequence
    {S : Type} (asyncPredicate : callback S) (array : list value)
    (fuel : nat) (s : S) (vs : list value) (st : list value * S) :
  keeps_array asyncPredicate ->
  filterAsync fuel array asyncPredicate s = Some (Resolved (VArr vs), st) ->
  vs `sublist_of` array /\ (length vs <= length array)%nat.
Proof.
  intros Hkeep Hrun. unfold filterAsync in Hrun.
  apply (filterAsync_loop_sublist asyncPredicate array Hkeep) in Hrun
    as (kept & -> & Hsub).
  cbn [app drop] in *. split; [exact Hsub|]. now apply sublist_length.
Qed.

Lemma filterAsync_subsequence_witness :
  (keeps_array (@pure_callback nat is_even) /\
   filterAsync 5 [VNum 1; VNum 2; VNum 3; VNum 4; VNum 5]
     (pure_callback is_even) 0%nat
   = Some (Resolved (VArr [VNum 2; VNum 4]),
           ([VNum 1; VNum 2; VNum 3; VNum 4; VNum 5], 0%nat))) /\
  [VNum 2; VNum 4] `sublist_of` [VNum 1; VNum 2; VNum 3; VNum 4; VNum 5] /\
  (length [VNum 2; VNum 4]
   <= length [VNum 1; VNum 2; VNum 3; VNum 4; VNum 5])%nat.
Proof.
  split; [split; [apply keeps_array_pure|reflexivity]|].
  apply (filterAsync_result_is_subsequence (pure_callback is_even)
           [VNum 1; VNum 2; VNum 3; VNum 4; VNum 5] 5 0%nat
           [VNum 2; VNum 4]
           ([VNum 1; VNum 2; VNum 3; VNum 4; VNum 5], 0%nat)
           (keeps_array_pure is_even)).
  reflexivity.
Defined.




(** The tests of [reduceAsync] and [filterAsync]. *)
Example reduceAsync_test :
  reduceAsync 5 [VNum 1; VNum 2; VNum 3; VNum 4; VNum 5]
    (pure_reducer plus) (VNum 0) 0%nat
  = Some (Resolved (VNum 15),
          ([VNum 1; VNum 2; VNum 3; VNum 4; VNum 5], 0%nat)).
Proof. reflexivity. Qed.

Example filterAsync_test :
  filterAsync 5 [VNum 1; VNum 2; VNum 3; VNum 4; VNum 5]
    (pure_callback is_even) 0%nat
  = Some (Resolved (VArr [VNum 2; VNum 4]),
          ([VNum 1; VNum 2; VNum 3; VNum 4; VNum 5], 0%nat)).
Proof. reflexivity. Qed.

Lemma mapAsync_loop_grows {S : Type} (cb : callback S) :
  grows_array cb ->
  forall fuel i array result (s : S),
  (i < length array)%nat ->
  mapAsync_loop cb fuel i array result s = None.
Proof.
  intros Hgrow. induction fuel as [|fuel IH]; intros i array result s Hi;
    destruct (lookup_lt_is_Some_2 array i Hi) as [x Hx];
    cbn [mapAsync_loop]; rewrite Hx; [reflexivity|].
  destruct (Hgrow x i array s) as [Hres Hlen].
  destruct (cb x i array s) as [[v|e] [array' s']]; [|discriminate].
  cbn [fst snd] in Hlen. apply IH. lia.
Qed.

(** X21.  [mapAsync] and [forEachAsync] read [array.length] at every
    turn: with a callback that always succeeds and makes the array longer
    each time it is called, on a non-empty array, neither of them ever
    returns, however many turns they are given. *)
Theorem growing_array_never_ends
    {S : Type} (cb : callback S) (fuel : nat) (array : list value) (s : S) :
  grows_array cb -> array <> [] ->
  mapAsync fuel array cb s = None /\ forEachAsync fuel array cb s = None.
Proof.
  intros Hgrow Hne.
  assert (Hmap : mapAsync fuel array cb s = None).
  { apply mapAsync_loop_grows; [exact Hgrow|].
    destruct array; [congruence|cbn; lia]. }
  split; [exact Hmap|].
  unfold forEachAsync. rewrite (forEachAsync_loop_map cb fuel 0 array []).
  unfold mapAsync in Hmap. now rewrite Hmap.
Qed.

Lemma grows_array_pushing : grows_array pushing.
Proof.
  intros x i array s. split; [reflexivity|].
  cbn. rewrite length_app. cbn. lia.
Qed.

Lemma growing_array_witness :
  (grows_array pushing /\ [VNum 1] <> []) /\
  mapAsync 1000 [VNum 1] pushing 0%nat = None /\
  forEachAsync 1000 [VNum 1] pushing 0%nat = None.
Proof.
  split; [split; [apply grows_array_pushing|discriminate]|].
  apply (growing_array_never_ends pushing 1000 [VNum 1] 0%nat
           grows_array_pushing).
  discriminate.
Defined.

(** * Further properties of memoizeAsync and debounceAsync *)

Lemma memoized_calls_tally {S : Type} (stringify : list value -> string)
    (f : list value -> S -> invocation outcome * S)
    (calls : list (list value)) :
  forall (cache : gmap string outcome) (s : S) (c t : nat),
  let st' := snd (memoized_calls stringify (tallied f) calls
                    (cache, (s, (c, t)))) in
  (fst (snd (snd st')) + size cache + t
   = c + size (fst st') + snd (snd (snd st')))%nat /\
  (t <= snd (snd (snd st')))%nat /\
  dom (fst st') ⊆ dom cache ∪ list_to_set (map stringify calls) /\
  (snd (snd (snd st')) = t ->
   dom (fst st') = dom cache ∪ list_to_set (map stringify calls)).
Proof.
  induction calls as [|args rest IH]; intros cache s c t.
  - cbn. split; [lia|]. split; [lia|].
    rewrite union_empty_r_L. split; [reflexivity|]. intros _. reflexivity.
  - cbn [memoized_calls map list_to_set].
    destruct (cache !! stringify args) as [promise|] eqn:Hkey.
    + rewrite (memoized_hit stringify _ args (cache, (s, (c, t))) promise Hkey).
      specialize (IH cache s c t).
      destruct (memoized_calls stringify (tallied f) rest
                  (cache, (s, (c, t)))) as [rs st2].
      cbn [snd] in *. destruct IH as (Hcount & Hle & Hsub & Hdom).
      apply elem_of_dom_2 in Hkey.
      split; [exact Hcount|]. split; [exact Hle|]. split.
      * intros k Hk. apply Hsub in Hk.
        rewrite !elem_of_union in *. tauto.
      * intros Ht. rewrite (Hdom Ht). apply set_eq. intros k.
        rewrite !elem_of_union, elem_of_singleton.
        split; [tauto|].
        intros [Hk|[->|Hk]]; [now left|now left|now right].
    + destruct (f args s) as [[promise|error] s1] eqn:Hf.
      * rewrite (memoized_miss stringify _ args (cache, (s, (c, t)))
                   promise (s1, (Datatypes.S c, t)) Hkey
                   (tallied_returns f args s c t promise s1 Hf)).
        cbn [fst snd].
        specialize (IH (<[stringify args := promise]> cache) s1
                       (Datatypes.S c) t).
        destruct (memoized_calls stringify (tallied f) rest
                    (<[stringify args := promise]> cache,
                     (s1, (Datatypes.S c, t)))) as [rs st2].
        cbn [snd] in *. destruct IH as (Hcount & Hle & Hsub & Hdom).
        rewrite map_size_insert_None in Hcount by exact Hkey.
        rewrite dom_insert_L in Hsub, Hdom.
        split; [lia|]. split; [exact Hle|]. split.
        -- intros k Hk. apply Hsub in Hk.
           rewrite !elem_of_union, !elem_of_singleton in *. tauto.
        -- intros Ht. rewrite (Hdom Ht). apply set_eq. intros k.
           rewrite !elem_of_union, !elem_of_singleton. tauto.
      * rewrite (memoized_throw stringify _ args (cache, (s, (c, t)))
                   error (s1, (Datatypes.S c, Datatypes.S t)) Hkey
                   (tallied_throws f args s c t error s1 Hf)).
        cbn [fst snd].
        specialize (IH cache s1 (Datatypes.S c) (Datatypes.S t)).
        destruct (memoized_calls stringify (tallied f) rest
                    (cache, (s1, (Datatypes.S c, Datatypes.S t))))
          as [rs st2].
        cbn [snd] in *. destruct IH as (Hcount & Hle & Hsub & Hdom).
        split; [lia|]. split; [lia|]. split.
        -- intros k Hk. apply Hsub in Hk.
           rewrite !elem_of_union in *. tauto.
        -- intros Ht. lia.
Qed.

(** X22.  The wrapper of [memoizeAsync] invokes the function once per key
    it stores, and once more for every invocation that throws.  After any
    sequence of calls of a fresh wrapper, for every [f], the number of
    invocations of [f] is the number of entries of the cache plus the
    number of invocations that threw; the keys of the cache are among the
    serializations of the argument lists that were passed; and when no
    invocation threw they are exactly those serializations, so that [f]
    was invoked exactly once per distinct key. *)
Theorem memoized_invokes_once_per_key
    {S : Type} (stringify : list value -> string)
    (f : list value -> S -> invocation outcome * S)
    (calls : list (list value)) (s : S) :
  let st' := snd (memoized_calls stringify (tallied f) calls
                    (memoizeAsync (s, (0%nat, 0%nat)))) in
  let invocations := fst (snd (snd st')) in
  let thrown := snd (snd (snd st')) in
  invocations = (size (fst st') + thrown)%nat /\
  dom (fst st') ⊆ list_to_set (map stringify calls) /\
  (thrown = 0%nat -> dom (fst st') = list_to_set (map stringify calls)).
Proof.
  intros st' invocations thrown.
  destruct (memoized_calls_tally stringify f calls ∅ s 0%nat 0%nat)
    as (Hcount & _ & Hsub & Hdom).
  fold (memoizeAsync (s, (0%nat, 0%nat))) in Hcount, Hsub, Hdom.
  fold st' in Hcount, Hsub, Hdom. fold invocations in Hcount.
  fold thrown in Hcount, Hdom.
  rewrite map_size_empty in Hcount.
  rewrite dom_empty_L, union_empty_l_L in Hsub, Hdom.
  split; [lia|]. split; [exact Hsub|exact Hdom].
Qed.

(** Five calls, three distinct keys, three invocations; and three calls
    with one key of a function that throws: three invocations, nothing
    stored. *)
Example memoized_counts_keys :
  snd (snd (memoized_calls JSON_stringify (tallied (async doubling))
              [[VNum 1]; [VNum 2]; [VNum 1]; [VNum 3]; [VNum 2]]
              (memoizeAsync (0%nat, (0%nat, 0%nat)))))
  = (3%nat, (3%nat, 0%nat)) /\
  snd (memoized_calls JSON_stringify (tallied throwing)
         [[VNum 1]; [VNum 1]; [VNum 1]]
         (memoizeAsync (0%nat, (0%nat, 0%nat))))
  = (∅, (3%nat, (3%nat, 3%nat))).
Proof. split; vm_compute; reflexivity. Qed.

(** X23.  In every loop the debounced function can reach, a call made
    while the timeout of an earlier call is still scheduled (the variable
    [timer] holds its handle) leaves the promise of that earlier call
    pending for good: whatever calls and however much time follow, it
    never settles. *)
Theorem debounced_call_orphans_scheduled_call
    {S : Type} (fn : list value -> timed_operation S) (delay : nat) (s0 : S)
    (history later : list event) (args : list value) (h : nat) (t : timeout) :
  let st := run fn delay history (debounceAsync s0) in
  timer st = Some h -> t ∈ timeouts st -> handle t = h ->
  promises (run fn delay later (snd (debounced delay args st)))
    !! timeout_promise t = Some Pending.
Proof.
  intros st Htimer Ht Hh.
  apply (orphan_stays_pending fn delay [timeout_promise t]).
  - apply (debounced_orphans_previous delay [] args st h t);
      [apply reachable_inv|exact Htimer|exact Ht|exact Hh].
  - apply list_elem_of_singleton. reflexivity.
Qed.

Lemma debounced_call_orphans_witness :
  let st := run echo 100 (Call [VNum 1] :: replicate 50 Tick)
              (debounceAsync 0%nat) in
  (timer st = Some 0%nat /\
   mkTimeout 0 100 [VNum 1] 0 ∈ timeouts st /\
   handle (mkTimeout 0 100 [VNum 1] 0) = 0%nat) /\
  promises (run echo 100 (replicate 500 Tick)
              (snd (debounced 100 [VNum 2] st)))
    !! timeout_promise (mkTimeout 0 100 [VNum 1] 0) = Some Pending.
Proof.
  assert (Hin : mkTimeout 0 100 [VNum 1] 0
                ∈ timeouts (run echo 100 (Call [VNum 1] :: replicate 50 Tick)
                              (debounceAsync 0%nat))).
  { vm_compute. apply list_elem_of_singleton. reflexivity. }
  split; [split; [reflexivity|split; [exact Hin|reflexivity]]|].
  apply (debounced_call_orphans_scheduled_call echo 100 0%nat
           (Call [VNum 1] :: replicate 50 Tick) (replicate 500 Tick)
           [VNum 2] 0%nat (mkTimeout 0 100 [VNum 1] 0)
           eq_refl Hin eq_refl).
Defined.

(** * Further properties: timeout *)

(** The test of [timeout]: an operation that takes 100 ms against 500 ms,
    and one that takes 500 ms against 100 ms. *)
Example timeout_test :
  Timing.timeout (resolves_to "fn" 100 (VStr "Success")) 500 []
    = ((100%nat, Resolved (VStr "Success")), ["fn"]) /\
  Timing.timeout (resolves_to "fn" 500 (VStr "Success")) 100 []
    = ((100%nat, Rejected operation_timed_out), ["fn"]).
Proof. split; reflexivity. Qed.

Lemma firing_time_min a b :
  firing_time (Nat.min a b) = Nat.min (firing_time a) (firing_time b).
Proof. unfold firing_time. lia. Qed.

(** X24.  Nested timeouts collapse to the shorter one: for every
    operation and durations [a] and [b], [timeout(() => timeout(fn, a), b)]
    behaves exactly as [timeout(fn, min(a, b))]: same outcome, same
    settling time, same effect of the operation. *)
Theorem timeout_nested_is_shorter_timeout
    {S : Type} (fn : timed_operation S) (a b : nat) (s : S) :
  Timing.timeout (Timing.timeout fn a) b s
  = Timing.timeout fn (Nat.min a b) s.
Proof.
  unfold Timing.timeout. rewrite firing_time_min.
  destruct (fn s) as [[latency r] s'].
  destruct (Nat.ltb_spec latency (firing_time a)) as [Ha|Ha];
    destruct (Nat.ltb_spec latency
                (Nat.min (firing_time a) (firing_time b))) as [Hm|Hm].
  - destruct (Nat.ltb_spec latency (firing_time b)); [reflexivity|lia].
  - destruct (Nat.ltb_spec latency (firing_time b)); [lia|].
    do 2 f_equal. lia.
  - lia.
  - destruct (Nat.ltb_spec (firing_time a) (firing_time b)).
    + do 2 f_equal. lia.
    + do 2 f_equal. lia.
Qed.

(** * Further properties: throttleAsync *)

Lemma deferred_owners_single {S : Type} (st : throttle_state S) p :
  deferred_owners st = [p] ->
  (exists d, scheduled st = [d] /\ executing st = [] /\
             deferred_promise d = p) \/
  (exists a, scheduled st = [] /\ executing st = [a] /\
             awaiting_promise a = p).
Proof.
  unfold deferred_owners.
  destruct (scheduled st) as [|d [|d' l]], (executing st) as [|a [|a' l']];
    cbn; intros Heq; try discriminate.
  - right. exists a. injection Heq as <-. auto.
  - left. exists d. injection Heq as <-. auto.
Qed.

Lemma deferred_owners_nil {S : Type} (st : throttle_state S) :
  deferred_owners st = [] -> scheduled st = [] /\ executing st = [].
Proof.
  unfold deferred_owners.
  destruct (scheduled st), (executing st); cbn; intros Heq;
    try discriminate; auto.
Qed.

Section ThrottleInvariant.
Context {S : Type}.
Variable fn : list value -> timed_operation S.
Variable interval : nat.

Lemma throttle_inv_initial start (s : S) :
  throttle_inv (throttleAsync start s).
Proof.
  split; [cbn; lia|]. left. repeat split.
Qed.

(** A call keeps the invariant. *)
Lemma throttled_inv args (st : throttle_state S) :
  throttle_inv st -> throttle_inv (snd (throttled fn interval args st)).
Proof.
  intros Hinv. pose proof Hinv as [Hclock Hcases]. unfold throttled.
  destruct Hcases as [(Hnone & Hown & Hfail)
                     |[(q & Hq & Hown & Hpend & Hfail)
                      |(q & (Hq & Hpend & Hs & He) & Hfail)]].
  - rewrite Hnone. destruct (elapsed st >=? Z.of_nat interval).
    + destruct (fn args (throttle_world st)) as [[latency r] w]. cbn [snd].
      split; [cbn; lia|]. left.
      split; [reflexivity|]. split; [exact Hown|exact Hfail].
    + cbn [snd]. split; [exact Hclock|].
      apply deferred_owners_nil in Hown as [Hs He].
      right. left. exists (length (handed st)). split; [reflexivity|].
      split; [|split; [|exact Hfail]].
      * unfold deferred_owners. cbn [scheduled executing]. rewrite Hs, He.
        reflexivity.
      * cbn [handed]. now rewrite list_lookup_middle.
  - rewrite Hq. destruct (elapsed st >=? Z.of_nat interval); cbn [snd];
      [exact Hinv|].
    split; [exact Hclock|]. right. left. exists q.
    split; [reflexivity|]. split; [exact Hown|]. split; assumption.
  - rewrite Hq. destruct (elapsed st >=? Z.of_nat interval); cbn [snd];
      [exact Hinv|].
    split; [exact Hclock|]. right. right. exists q.
    split; [|exact Hfail]. split; [reflexivity|].
    split; [exact Hpend|]. split; assumption.
Qed.

(** Resuming the one running deferred execution. *)
Lemma throttle_resume_inv a (st : throttle_state S) :
  (lastCallTime st <= clock st)%nat ->
  pendingPromise st = Some (awaiting_promise a) ->
  handed st !! awaiting_promise a = Some Pending ->
  scheduled st = [] -> executing st = [] -> failed st = [] ->
  throttle_inv (throttle_resume a st).
Proof.
  intros Hclock Hp Hpend Hs He Hf. unfold throttle_resume.
  destruct (awaited a) as [v|e].
  - split; [exact Hclock|]. left. unfold deferred_owners.
    cbn [pendingPromise scheduled executing failed]. rewrite Hs, He.
    repeat split. exact Hf.
  - split; [exact Hclock|]. right. right. exists (awaiting_promise a).
    split; [repeat split; assumption|].
    cbn [failed]. rewrite Hf. discriminate.
Qed.

(** One millisecond keeps the invariant. *)
Lemma throttle_tick_inv (st : throttle_state S) :
  throttle_inv st -> throttle_inv (throttle_tick fn st).
Proof.
  intros [Hclock Hcases]. unfold throttle_tick.
  destruct Hcases as [(Hnone & Hown & Hfail)
                     |[(p & Hp & Hown & Hpend & Hfail)
                      |(p & (Hp & Hpend & Hs & He) & Hfail)]].
  - apply deferred_owners_nil in Hown as [Hs He]. rewrite Hs, He.
    cbn. split; [cbn; lia|]. left. unfold deferred_owners. cbn.
    split; [exact Hnone|]. split; [reflexivity|exact Hfail].
  - apply deferred_owners_single in Hown
      as [(d & Hs & He & Hd)|(a & Hs & He & Ha)]; subst p; rewrite He.
    + rewrite !filter_nil. cbn [foldl scheduled clock lastCallTime
        pendingPromise pendingArgs executing handed failed throttle_world].
      rewrite Hs, !filter_cons, !filter_nil.
      destruct (decide (deferred_due d <= Datatypes.S (clock st))%nat)
        as [Hdue|Hlater].
      * destruct (decide (~ (deferred_due d <= Datatypes.S (clock st))%nat))
          as [Hn|_]; [contradiction|].
        cbn [foldl]. unfold throttle_fire.
        cbn [clock lastCallTime pendingPromise pendingArgs scheduled
             executing handed failed throttle_world].
        destruct (fn (default (deferred_args d) (pendingArgs st))
                     (throttle_world st)) as [[[|l] r] w].
        -- apply throttle_resume_inv; cbn; try assumption; try lia;
             try reflexivity.
        -- split; [cbn; lia|]. right. left. eexists.
           unfold deferred_owners. cbn.
           repeat split; assumption.
      * destruct (decide (~ (deferred_due d <= Datatypes.S (clock st))%nat))
          as [_|Hn]; [|contradiction].
        cbn [foldl]. split; [cbn; lia|]. right. left. eexists.
        unfold deferred_owners. cbn. repeat split; assumption.
    + rewrite !filter_cons, !filter_nil.
      destruct (decide (settles_at a <= Datatypes.S (clock st))%nat)
        as [Hdue|Hlater].
      * destruct (decide (~ (settles_at a <= Datatypes.S (clock st))%nat))
          as [Hn|_]; [contradiction|].
        cbn [foldl].
        assert (Hinv : throttle_inv
                  (throttle_resume a
                     (mkThrottle (Datatypes.S (clock st)) (lastCallTime st)
                        (pendingPromise st) (pendingArgs st) (scheduled st)
                        [] (handed st) (failed st) (throttle_world st)))).
        { apply throttle_resume_inv; cbn; try assumption; try lia;
            reflexivity. }
        revert Hinv. unfold throttle_resume.
        cbn [clock lastCallTime pendingPromise pendingArgs scheduled
             executing handed failed throttle_world].
        rewrite Hs.
        destruct (awaited a); cbn; rewrite ?filter_nil; cbn; auto.
      * destruct (decide (~ (settles_at a <= Datatypes.S (clock st))%nat))
          as [_|Hn]; [|contradiction].
        cbn [foldl scheduled clock lastCallTime
          pendingPromise pendingArgs executing handed failed throttle_world].
        rewrite Hs, !filter_nil. cbn [foldl].
        split; [cbn; lia|]. right. left. eexists.
        unfold deferred_owners. cbn. repeat split; assumption.
  - rewrite He, Hs. cbn. split; [cbn; lia|]. right. right. exists p.
    split; [|exact Hfail]. repeat split; assumption.
Qed.

Lemma throttle_run_inv events : forall (st : throttle_state S),
  throttle_inv st -> throttle_inv (snd (throttle_run fn interval events st)).
Proof.
  induction events as [|[args|] events IH]; intros st Hinv; [exact Hinv| |].
  - cbn [throttle_run].
    pose proof (throttled_inv args st Hinv) as H1.
    destruct (throttled fn interval args st) as [r st1]. cbn [snd] in H1.
    specialize (IH st1 H1).
    destruct (throttle_run fn interval events st1) as [rs st2]. exact IH.
  - cbn [throttle_run]. apply IH. now apply throttle_tick_inv.
Qed.

(** A wedged wrapper stays wedged: a call is answered with the pending
    promise and runs nothing, and time changes nothing. *)
Lemma throttled_wedged p args (st : throttle_state S) :
  wedged p st ->
  replies_with p (fst (throttled fn interval args st)) = true /\
  wedged p (snd (throttled fn interval args st)) /\
  throttle_world (snd (throttled fn interval args st)) = throttle_world st /\
  failed (snd (throttled fn interval args st)) = failed st.
Proof.
  intros (Hp & Hpend & Hs & He). unfold throttled. rewrite Hp.
  destruct (elapsed st >=? Z.of_nat interval); cbn [fst snd replies_with];
    rewrite Nat.eqb_refl; repeat split; assumption.
Qed.

Lemma throttle_tick_wedged p (st : throttle_state S) :
  wedged p st ->
  wedged p (throttle_tick fn st) /\
  throttle_world (throttle_tick fn st) = throttle_world st /\
  failed (throttle_tick fn st) = failed st.
Proof.
  intros (Hp & Hpend & Hs & He). unfold throttle_tick.
  rewrite He, Hs. cbn. repeat split; assumption.
Qed.

Lemma throttle_run_wedged p events : forall (st : throttle_state S),
  wedged p st ->
  Forall (fun r => replies_with p r = true)
         (fst (throttle_run fn interval events st)) /\
  wedged p (snd (throttle_run fn interval events st)) /\
  throttle_world (snd (throttle_run fn interval events st))
    = throttle_world st /\
  failed (snd (throttle_run fn interval events st)) = failed st.
Proof.
  induction events as [|[args|] events IH]; intros st Hw.
  - cbn. split; [apply Forall_nil_2|]. split; [exact Hw|]. split; reflexivity.
  - cbn [throttle_run].
    destruct (throttled_wedged p args st Hw) as (Hr & Hw1 & Hworld & Hfail).
    destruct (throttled fn interval args st) as [r st1]. cbn [fst snd] in *.
    destruct (IH st1 Hw1) as (Hrs & Hw2 & Hworld2 & Hfail2).
    destruct (throttle_run fn interval events st1) as [rs st2].
    cbn [fst snd] in *. split; [now constructor|].
    split; [exact Hw2|]. split; congruence.
  - cbn [throttle_run].
    destruct (throttle_tick_wedged p st Hw) as (Hw1 & Hworld & Hfail).
    destruct (IH _ Hw1) as (Hrs & Hw2 & Hworld2 & Hfail2).
    split; [exact Hrs|]. split; [exact Hw2|]. split; congruence.
Qed.

End ThrottleInvariant.

Ltac settle_filters :=
  rewrite ?filter_cons, ?filter_nil;
  repeat match goal with
         | |- context [decide ?P] => destruct (decide P); try lia
         end.

Section ThrottleCycle.
Context {S : Type}.
Variable fn : list value -> timed_operation S.
Variable interval : nat.

Lemma throttle_run_app events1 : forall events2 (st : throttle_state S),
  throttle_run fn interval (events1 ++ events2) st
  = (fst (throttle_run fn interval events1 st)
       ++ fst (throttle_run fn interval events2
                 (snd (throttle_run fn interval events1 st))),
     snd (throttle_run fn interval events2
            (snd (throttle_run fn interval events1 st)))).
Proof.
  induction events1 as [|[a|] events1 IH]; intros events2 st.
  - cbn. now destruct (throttle_run fn interval events2 st).
  - cbn [app throttle_run].
    destruct (throttled fn interval a st) as [r st1]. rewrite IH.
    destruct (throttle_run fn interval events1 st1) as [rs st2].
    reflexivity.
  - cbn [app throttle_run]. apply IH.
Qed.

(** ** One millisecond, shape by shape *)

Lemma throttle_tick_idle T last pa ps (w : S) :
  throttle_tick fn (th_idle T last pa ps w)
  = th_idle (Datatypes.S T) last pa ps w.
Proof. reflexivity. Qed.

Lemma throttle_tick_concluded r p T last args ps (w : S) :
  throttle_tick fn (th_concluded r p T last args ps w)
  = th_concluded r p (Datatypes.S T) last args ps w.
Proof. destruct r; reflexivity. Qed.

Lemma throttle_tick_waiting_early T last args d ps (w : S) :
  (Datatypes.S T < deferred_due d)%nat ->
  throttle_tick fn (th_waiting T last args d ps w)
  = th_waiting (Datatypes.S T) last args d ps w.
Proof.
  intros Hearly. unfold throttle_tick, th_waiting.
  cbn [clock lastCallTime pendingPromise pendingArgs scheduled executing
       handed failed throttle_world].
  rewrite !filter_nil. cbn [foldl scheduled clock lastCallTime
    pendingPromise pendingArgs executing handed failed throttle_world].
  settle_filters. reflexivity.
Qed.

Lemma throttle_tick_waiting_fire T last args d ps (w : S) :
  (deferred_due d <= Datatypes.S T)%nat ->
  throttle_tick fn (th_waiting T last args d ps w)
  = let '((latency, r), w') := fn args w in
    match latency with
    | O =>
        th_concluded r (deferred_promise d) (Datatypes.S T) (Datatypes.S T)
          args ps w'
    | Datatypes.S _ =>
        th_running (Datatypes.S T) (Datatypes.S T) args
          (mkAwaiting (Datatypes.S T + latency) r (deferred_promise d)) ps w'
    end.
Proof.
  intros Hdue. unfold throttle_tick, th_waiting.
  cbn [clock lastCallTime pendingPromise pendingArgs scheduled executing
       handed failed throttle_world].
  rewrite !filter_nil. cbn [foldl scheduled clock lastCallTime
    pendingPromise pendingArgs executing handed failed throttle_world].
  settle_filters.
  cbn [foldl]. unfold throttle_fire.
  cbn [clock lastCallTime pendingPromise pendingArgs scheduled executing
       handed failed throttle_world default from_option id].
  destruct (fn args w) as [[[|m] r] w']; [|reflexivity].
  unfold throttle_resume. cbn [awaited awaiting_promise].
  destruct r; reflexivity.
Qed.

Lemma throttle_tick_running_early T last args a ps (w : S) :
  (Datatypes.S T < settles_at a)%nat ->
  throttle_tick fn (th_running T last args a ps w)
  = th_running (Datatypes.S T) last args a ps w.
Proof.
  intros Hearly. unfold throttle_tick, th_running.
  cbn [clock lastCallTime pendingPromise pendingArgs scheduled executing
       handed failed throttle_world].
  settle_filters. reflexivity.
Qed.

Lemma throttle_tick_running_settle T last args a ps (w : S) :
  (settles_at a <= Datatypes.S T)%nat ->
  throttle_tick fn (th_running T last args a ps w)
  = th_concluded (awaited a) (awaiting_promise a) (Datatypes.S T) last
      args ps w.
Proof.
  intros Hdue. unfold throttle_tick, th_running.
  cbn [clock lastCallTime pendingPromise pendingArgs scheduled executing
       handed failed throttle_world].
  settle_filters.
  cbn [foldl]. unfold throttle_resume.
  cbn [clock lastCallTime pendingPromise pendingArgs scheduled executing
       handed failed throttle_world].
  destruct (awaited a); reflexivity.
Qed.

(** ** Several milliseconds *)

Lemma throttle_ticks_idle n : forall T last pa ps (w : S),
  throttle_run fn interval (replicate n Tick) (th_idle T last pa ps w)
  = ([], th_idle (n + T) last pa ps w).
Proof.
  induction n as [|n IH]; intros T last pa ps w; [reflexivity|].
  cbn [replicate throttle_run]. rewrite throttle_tick_idle, IH.
  replace (n + Datatypes.S T)%nat with (Datatypes.S n + T)%nat by lia.
  reflexivity.
Qed.

Lemma throttle_ticks_concluded n : forall r p T last args ps (w : S),
  throttle_run fn interval (replicate n Tick)
    (th_concluded r p T last args ps w)
  = ([], th_concluded r p (n + T) last args ps w).
Proof.
  induction n as [|n IH]; intros r p T last args ps w; [reflexivity|].
  cbn [replicate throttle_run]. rewrite throttle_tick_concluded, IH.
  replace (n + Datatypes.S T)%nat with (Datatypes.S n + T)%nat by lia.
  reflexivity.
Qed.

Lemma throttle_ticks_waiting_early n : forall T last args d ps (w : S),
  (n + T < deferred_due d)%nat ->
  throttle_run fn interval (replicate n Tick)
    (th_waiting T last args d ps w)
  = ([], th_waiting (n + T) last args d ps w).
Proof.
  induction n as [|n IH]; intros T last args d ps w Hearly; [reflexivity|].
  cbn [replicate throttle_run].
  rewrite throttle_tick_waiting_early by lia. rewrite IH by lia.
  replace (n + Datatypes.S T)%nat with (Datatypes.S n + T)%nat by lia.
  reflexivity.
Qed.

Lemma throttle_ticks_running_through n : forall T last args a ps (w : S),
  (T < settles_at a)%nat -> (settles_at a <= n + T)%nat ->
  throttle_run fn interval (replicate n Tick)
    (th_running T last args a ps w)
  = ([], th_concluded (awaited a) (awaiting_promise a) (n + T) last
           args ps w).
Proof.
  induction n as [|n IH]; intros T last args a ps w Hlt Hle; [lia|].
  cbn [replicate throttle_run].
  destruct (decide (Datatypes.S T < settles_at a)%nat) as [Hearly|Hnow].
  - rewrite throttle_tick_running_early by lia. rewrite IH by lia.
    replace (n + Datatypes.S T)%nat with (Datatypes.S n + T)%nat by lia.
    reflexivity.
  - rewrite throttle_tick_running_settle by lia.
    rewrite throttle_ticks_concluded.
    replace (n + Datatypes.S T)%nat with (Datatypes.S n + T)%nat by lia.
    reflexivity.
Qed.

Lemma throttle_ticks_waiting_through n :
  forall T last args d ps (w w' : S) latency r,
  (T < deferred_due d)%nat ->
  fn args w = ((latency, r), w') ->
  (deferred_due d + latency <= n + T)%nat ->
  throttle_run fn interval (replicate n Tick)
    (th_waiting T last args d ps w)
  = ([], th_concluded r (deferred_promise d) (n + T) (deferred_due d)
           args ps w').
Proof.
  induction n as [|n IH]; intros T last args d ps w w' latency r Hlt Hfn Hle;
    [lia|].
  cbn [replicate throttle_run].
  destruct (decide (Datatypes.S T < deferred_due d)%nat) as [Hearly|Hnow].
  - rewrite throttle_tick_waiting_early by lia.
    rewrite (IH _ _ _ _ _ _ w' latency r) by (assumption || lia).
    replace (n + Datatypes.S T)%nat with (Datatypes.S n + T)%nat by lia.
    reflexivity.
  - assert (Hdue : deferred_due d = Datatypes.S T) by lia.
    rewrite throttle_tick_waiting_fire by lia. rewrite Hfn, Hdue.
    destruct latency as [|l].
    + rewrite throttle_ticks_concluded.
      replace (n + Datatypes.S T)%nat with (Datatypes.S n + T)%nat by lia.
      reflexivity.
    + rewrite throttle_ticks_running_through by (cbn; lia).
      replace (n + Datatypes.S T)%nat with (Datatypes.S n + T)%nat by lia.
      reflexivity.
Qed.

(** ** A call, shape by shape *)

Lemma throttled_idle_outside args T last pa ps (w : S) :
  (last + interval <= T)%nat ->
  throttled fn interval args (th_idle T last pa ps w)
  = let '((latency, r), w') := fn args w in
    (Executed (T + latency) r, th_idle T T pa ps w').
Proof.
  intros Hout. unfold throttled, elapsed, th_idle.
  cbn [clock lastCallTime pendingPromise pendingArgs scheduled executing
       handed failed throttle_world].
  assert (Hge : (Z.of_nat T - Z.of_nat last >=? Z.of_nat interval) = true)
    by (rewrite Z.geb_leb; apply Z.leb_le; lia).
  rewrite Hge. reflexivity.
Qed.

Lemma throttled_idle_inside args T last pa ps (w : S) :
  (last <= T)%nat -> (T < last + interval)%nat ->
  throttled fn interval args (th_idle T last pa ps w)
  = (Shared (length ps),
     th_waiting T last args
       (mkDeferred (last + interval) args (length ps)) (ps ++ [Pending]) w).
Proof.
  intros Hle Hin. unfold throttled, elapsed, th_idle, th_waiting.
  cbn [clock lastCallTime pendingPromise pendingArgs scheduled executing
       handed failed throttle_world deferred_promise].
  assert (Hge : (Z.of_nat T - Z.of_nat last >=? Z.of_nat interval) = false)
    by (rewrite Z.geb_leb; apply Z.leb_gt; lia).
  rewrite Hge. cbn [app].
  replace (T + Z.to_nat (Z.of_nat interval - (Z.of_nat T - Z.of_nat last)))%nat
    with (last + interval)%nat by lia.
  reflexivity.
Qed.

Lemma throttled_waiting args T last args0 d ps (w : S) :
  (T < last + interval)%nat ->
  throttled fn interval args (th_waiting T last args0 d ps w)
  = (Shared (deferred_promise d), th_waiting T last args d ps w).
Proof.
  intros Hin. unfold throttled, elapsed, th_waiting.
  cbn [clock lastCallTime pendingPromise pendingArgs scheduled executing
       handed failed throttle_world].
  assert (Hge : (Z.of_nat T - Z.of_nat last >=? Z.of_nat interval) = false)
    by (rewrite Z.geb_leb; apply Z.leb_gt; lia).
  rewrite Hge. reflexivity.
Qed.

Lemma throttle_run_call_ticks a k events (st : throttle_state S) :
  throttle_run fn interval (Call a :: replicate k Tick ++ events) st
  = let st1 := snd (throttled fn interval a st) in
    let st2 := snd (throttle_run fn interval (replicate k Tick) st1) in
    (fst (throttled fn interval a st)
       :: fst (throttle_run fn interval (replicate k Tick) st1)
       ++ fst (throttle_run fn interval events st2),
     snd (throttle_run fn interval events st2)).
Proof.
  cbn [throttle_run]. destruct (throttled fn interval a st) as [r st1].
  rewrite throttle_run_app. reflexivity.
Qed.

(** From a scheduled deferred execution: more calls before the interval
    boundary, the last one followed by enough time for the execution to
    settle. *)
Lemma throttle_cycle_waiting earlier :
  forall T last args0 d ps (w w' : S) args wait latency r,
  deferred_due d = (last + interval)%nat ->
  (T + sum_list_with snd earlier < last + interval)%nat ->
  fn args w = ((latency, r), w') ->
  (last + interval + latency <= T + sum_list_with snd earlier + wait)%nat ->
  throttle_run fn interval (cycle_events (earlier ++ [(args, wait)]))
    (th_waiting T last args0 d ps w)
  = (replicate (Datatypes.S (length earlier)) (Shared (deferred_promise d)),
     th_concluded r (deferred_promise d)
       (T + sum_list_with snd earlier + wait) (last + interval) args ps w').
Proof.
  induction earlier as [|[a k] earlier IH];
    intros T last args0 d ps w w' args wait latency r Hd Hin Hfn Hlong.
  - cbn [app sum_list_with length] in *.
    rewrite cycle_events_cons, throttle_run_call_ticks.
    rewrite throttled_waiting by lia. cbn [fst snd].
    rewrite (throttle_ticks_waiting_through _ _ _ _ _ _ _ w' latency r)
      by (assumption || lia).
    cbn [fst snd cycle_events map concat throttle_run app replicate].
    rewrite Hd.
    replace (T + 0 + wait)%nat with (wait + T)%nat by lia. reflexivity.
  - cbn [app sum_list_with length snd] in *.
    rewrite cycle_events_cons, throttle_run_call_ticks.
    rewrite throttled_waiting by lia. cbn [fst snd].
    rewrite throttle_ticks_waiting_early by lia. cbn [fst snd app].
    rewrite (IH _ _ _ _ _ _ w' _ _ latency r) by (assumption || lia).
    cbn [replicate].
    replace (k + T + sum_list_with snd earlier + wait)%nat
      with (T + (k + sum_list_with snd earlier) + wait)%nat by lia.
    reflexivity.
Qed.

(** The same from an idle wrapper that executed less than [interval]
    milliseconds ago. *)
Lemma throttle_cycle_idle earlier :
  forall T last pa ps (w w' : S) args wait latency r,
  (last <= T)%nat ->
  (T + sum_list_with snd earlier < last + interval)%nat ->
  fn args w = ((latency, r), w') ->
  (last + interval + latency <= T + sum_list_with snd earlier + wait)%nat ->
  throttle_run fn interval (cycle_events (earlier ++ [(args, wait)]))
    (th_idle T last pa ps w)
  = (replicate (Datatypes.S (length earlier)) (Shared (length ps)),
     th_concluded r (length ps)
       (T + sum_list_with snd earlier + wait) (last + interval) args
       (ps ++ [Pending]) w').
Proof.
  intros T last pa ps w w' args wait latency r Hle Hin Hfn Hlong.
  destruct earlier as [|[a k] earlier].
  - cbn [app sum_list_with length] in *.
    rewrite cycle_events_cons, throttle_run_call_ticks.
    rewrite throttled_idle_inside by lia. cbn [fst snd].
    rewrite (throttle_ticks_waiting_through _ _ _ _ _ _ _ w' latency r)
      by (assumption || (cbn; lia)).
    cbn [fst snd cycle_events map concat throttle_run app replicate
         deferred_promise deferred_due].
    replace (T + 0 + wait)%nat with (wait + T)%nat by lia. reflexivity.
  - cbn [app sum_list_with length snd] in *.
    rewrite cycle_events_cons, throttle_run_call_ticks.
    rewrite throttled_idle_inside by lia. cbn [fst snd].
    rewrite throttle_ticks_waiting_early by (cbn; lia). cbn [fst snd app].
    rewrite (throttle_cycle_waiting earlier _ _ _ _ _ _ w' _ _ latency r)
      by (reflexivity || assumption || lia).
    cbn [replicate deferred_promise].
    replace (k + T + sum_list_with snd earlier + wait)%nat
      with (T + (k + sum_list_with snd earlier) + wait)%nat by lia.
    reflexivity.
Qed.

Lemma invoke_all_returning_cons (op : timed_operation S)
    (fns : list (callable S)) (s : S) :
  invoke_all (returning op :: fns) s
  = match invoke_all fns (snd (op s)) with
    | (Throws error, s2) => (Throws error, s2)
    | (Returns ps, s2) => (Returns (fst (op s) :: ps), s2)
    end.
Proof. reflexivity. Qed.

(** Calls at least [interval] milliseconds apart all execute at once. *)
Lemma throttle_spaced_calls calls :
  forall T last pa ps (w : S),
  (last + interval <= T)%nat ->
  Forall (fun c => (interval <= snd c)%nat) calls ->
  let run := throttle_run fn interval (cycle_events calls)
               (th_idle T last pa ps w) in
  let direct := invoke_all ((fun c => returning (fn (fst c))) <$> calls) w in
  exists results,
    fst direct = Returns results /\
    Forall2 (fun reply result => exists t, reply = Executed t (snd result))
            (fst run) results /\
    snd run = th_idle (T + sum_list_with snd calls)
                (match calls with
                 | [] => last
                 | _ => T + sum_list_with snd calls
                          - snd (List.last calls ([], 0%nat))
                 end) pa ps (snd direct).
Proof.
  induction calls as [|[a k] calls IH]; intros T last pa ps w Hout Hall.
  - cbn. exists []. split; [reflexivity|]. split; [constructor|].
    now rewrite Nat.add_0_r.
  - apply Forall_cons in Hall as [Hk Hall]. cbn [snd] in Hk.
    cbn zeta. rewrite cycle_events_cons, throttle_run_call_ticks.
    rewrite throttled_idle_outside by lia.
    rewrite fmap_cons. cbn [fst]. rewrite !invoke_all_returning_cons.
    destruct (fn a w) as [[latency r] w1]. cbn [fst snd].
    rewrite throttle_ticks_idle. cbn [fst snd app].
    specialize (IH (k + T)%nat T pa ps w1 ltac:(lia) Hall).
    cbn zeta in IH. destruct IH as (results & Hres & IHr & IHs).
    destruct (invoke_all
                ((fun c : list value * nat => returning (fn (fst c)))
                   <$> calls) w1) as [direct w2].
    cbn [fst snd] in *. subst direct.
    exists ((latency, r) :: results). split; [reflexivity|]. split.
    + constructor; [now exists (T + latency)%nat|exact IHr].
    + rewrite IHs. cbn [sum_list_with snd].
      destruct calls as [|c calls].
      * cbn. f_equal; lia.
      * f_equal; [lia|].
        change (List.last ((a, k) :: c :: calls) ([], 0%nat))
          with (List.last (c :: calls) ([], 0%nat)).
        lia.
Qed.

End ThrottleCycle.

(** The test of [throttleAsync], interval 100 ms: two calls in a row, the
    second awaited; 200 ms; two more calls in a row, the second awaited.
    The first and third calls execute at once, the second and fourth are
    deferred to the interval boundary, and the promise of the fourth
    resolves with 4. *)
Example throttle_test :
  let events :=
    [Call []; Call []] ++ replicate 100 Tick ++ replicate 200 Tick
    ++ [Call []; Call []] ++ replicate 100 Tick in
  let run := throttle_run counting 100 events (throttleAsync 1000 0%nat) in
  fst run = [Executed 1000 (Resolved (VNum 1)); Shared 0%nat;
             Executed 1300 (Resolved (VNum 3)); Shared 1%nat] /\
  handed (snd run) = [Fulfilled (VNum 2); Fulfilled (VNum 4)] /\
  throttle_world (snd run) = 4%nat.
Proof. vm_compute. split; [reflexivity|split; reflexivity]. Qed.

(** X26.  A deferred execution that fails wedges the wrapper.  In every
    state the wrapper can reach in which a deferred execution has rejected
    (the rejection is thrown inside the timer callback, before
    [pendingPromise = null] and [resolve]), the pending promise [p] is
    unresolved, and whatever happens next, every call is answered with
    [p], [fn] is not invoked again (the world stays as it is, for every
    [fn]), and [p] stays pending. *)
Theorem throttle_failed_deferred_execution_wedges
    {S : Type} (fn : list value -> timed_operation S) (interval start : nat)
    (s : S) (history later : list event) :
  let st := snd (throttle_run fn interval history (throttleAsync start s)) in
  failed st <> [] ->
  exists p,
    pendingPromise st = Some p /\
    handed st !! p = Some Pending /\
    let after := throttle_run fn interval later st in
    Forall (fun r => replies_with p r = true) (fst after) /\
    throttle_world (snd after) = throttle_world st /\
    handed (snd after) !! p = Some Pending.
Proof.
  intros st Hfailed.
  pose proof (throttle_run_inv fn interval history _
                (throttle_inv_initial start s)) as [_ Hcases].
  fold st in Hcases.
  destruct Hcases as [(_ & _ & Hnil)|[(p & _ & _ & _ & Hnil)|(p & Hw & _)]];
    try contradiction.
  exists p.
  destruct (throttle_run_wedged fn interval p later st Hw)
    as (Hreplies & Hw' & Hworld & _).
  destruct Hw as (Hp & Hpend & _). destruct Hw' as (_ & Hpend' & _).
  split; [exact Hp|]. split; [exact Hpend|].
  cbv zeta. split; [exact Hreplies|]. split; [exact Hworld|exact Hpend'].
Qed.

Lemma throttle_wedge_witness :
  let history := Call [VNum 1] :: Call [VNum 2] :: replicate 200 Tick in
  let later := replicate 500 Tick ++ [Call [VNum 3]; Tick; Call [VNum 4]] in
  let st := snd (throttle_run failing 100 history
                   (throttleAsync 1000 0%nat)) in
  failed st <> [] /\
  exists p,
    pendingPromise st = Some p /\
    handed st !! p = Some Pending /\
    let after := throttle_run failing 100 later st in
    Forall (fun r => replies_with p r = true) (fst after) /\
    throttle_world (snd after) = throttle_world st /\
    handed (snd after) !! p = Some Pending.
Proof.
  cbv zeta. split; [vm_compute; discriminate|].
  apply (throttle_failed_deferred_execution_wedges failing 100 1000 0%nat
           (Call [VNum 1] :: Call [VNum 2] :: replicate 200 Tick)
           (replicate 500 Tick ++ [Call [VNum 3]; Tick; Call [VNum 4]])).
  vm_compute. discriminate.
Defined.

(** X27.  Calls inside the interval are coalesced.  Take a wrapper with
    nothing pending whose last execution was at [last], less than
    [interval] milliseconds ago.  If every call of a burst arrives before
    [last + interval] and the last call is followed by enough time for the
    execution to settle, then every call of the burst is handed the same
    new promise, [fn] is invoked exactly once, at [last + interval], with
    the arguments of the last call of the burst, and the promise resolves
    with its value; if that invocation rejects the promise stays pending
    and the wrapper keeps it as its pending promise. *)
Theorem throttle_coalesces_calls_inside_interval
    {S : Type} (fn : list value -> timed_operation S) (interval : nat)
    (T last : nat) (pa : option (list value)) (ps : list promise_state)
    (w w' : S) (earlier : list (list value * nat)) (args : list value)
    (wait latency : nat) (r : outcome) :
  (last <= T)%nat ->
  (T + sum_list_with snd earlier < last + interval)%nat ->
  fn args w = ((latency, r), w') ->
  (last + interval + latency <= T + sum_list_with snd earlier + wait)%nat ->
  let p := length ps in
  let run := throttle_run fn interval
               (cycle_events (earlier ++ [(args, wait)]))
               (th_idle T last pa ps w) in
  fst run = replicate (Datatypes.S (length earlier)) (Shared p) /\
  throttle_world (snd run) = w' /\
  lastCallTime (snd run) = (last + interval)%nat /\
  scheduled (snd run) = [] /\ executing (snd run) = [] /\
  match r with
  | Resolved v =>
      handed (snd run) !! p = Some (Fulfilled v) /\
      pendingPromise (snd run) = None
  | Rejected e =>
      handed (snd run) !! p = Some Pending /\
      pendingPromise (snd run) = Some p /\
      failed (snd run) = [(p, e)]
  end.
Proof.
  intros Hle Hin Hfn Hlong p run. subst run.
  rewrite (throttle_cycle_idle fn interval earlier T last pa ps w w' args
             wait latency r Hle Hin Hfn Hlong).
  cbn [fst snd]. fold p.
  assert (Hpend : (ps ++ [Pending]) !! p = Some Pending)
    by (subst p; now rewrite list_lookup_middle).
  destruct r as [v|e]; cbn.
  - split; [reflexivity|]. split; [reflexivity|]. split; [reflexivity|].
    split; [reflexivity|]. split; [reflexivity|].
    split; [now apply resolve_promise_pending|reflexivity].
  - split; [reflexivity|]. split; [reflexivity|]. split; [reflexivity|].
    split; [reflexivity|]. split; [reflexivity|].
    split; [exact Hpend|]. split; reflexivity.
Qed.

Lemma throttle_coalesces_witness :
  let st0 := snd (throttle_run echo 100 [Call [VNum 0]]
                    (throttleAsync 1000 0%nat)) in
  let run := throttle_run echo 100
               (cycle_events ([([VNum 1], 20%nat); ([VNum 2], 30%nat)]
                              ++ [([VNum 3], 200%nat)])) st0 in
  st0 = th_idle 1000 1000 None [] 1%nat /\
  fst run = [Shared 0%nat; Shared 0%nat; Shared 0%nat] /\
  throttle_world (snd run) = 2%nat /\
  lastCallTime (snd run) = 1100%nat /\
  scheduled (snd run) = [] /\ executing (snd run) = [] /\
  handed (snd run) !! 0%nat = Some (Fulfilled (VNum 3)) /\
  pendingPromise (snd run) = None.
Proof.
  cbv zeta. split; [reflexivity|].
  change (snd (throttle_run echo 100 [Call [VNum 0]]
                 (throttleAsync 1000 0%nat)))
    with (th_idle 1000 1000 None [] 1%nat).
  apply (throttle_coalesces_calls_inside_interval echo 100 1000 1000 None []
           1%nat 2%nat [([VNum 1], 20%nat); ([VNum 2], 30%nat)] [VNum 3]
           200 30 (Resolved (VNum 3))).
  - lia.
  - cbn. lia.
  - reflexivity.
  - cbn. lia.
Defined.

(** X28.  At most one deferred execution exists at any time: in every
    state the wrapper can reach, the scheduled timers and the running
    deferred executions are at most one together, and each belongs to the
    pending promise. *)
Theorem throttle_at_most_one_deferred_execution
    {S : Type} (fn : list value -> timed_operation S) (interval start : nat)
    (s : S) (history : list event) :
  let st := snd (throttle_run fn interval history (throttleAsync start s)) in
  (length (scheduled st) + length (executing st) <= 1)%nat /\
  Forall (fun d => pendingPromise st = Some (deferred_promise d))
         (scheduled st) /\
  Forall (fun a => pendingPromise st = Some (awaiting_promise a))
         (executing st).
Proof.
  intros st.
  pose proof (throttle_run_inv fn interval history _
                (throttle_inv_initial start s)) as [_ Hcases].
  fold st in Hcases.
  destruct Hcases as [(_ & Hown & _)
                     |[(p & Hp & Hown & _)|(p & (_ & _ & Hs & He) & _)]].
  - apply deferred_owners_nil in Hown as [Hs He]. rewrite Hs, He.
    split; [cbn; lia|]. split; constructor.
  - apply deferred_owners_single in Hown
      as [(d & Hs & He & Hd)|(a & Hs & He & Ha)]; rewrite Hs, He.
    + split; [cbn; lia|]. split; [|constructor].
      constructor; [congruence|constructor].
    + split; [cbn; lia|]. split; [constructor|].
      constructor; [congruence|constructor].
  - rewrite Hs, He. split; [cbn; lia|]. split; constructor.
Qed.

(** X29.  Calls that are at least [interval] milliseconds apart pass
    straight through: each one invokes [fn] at once with its own
    arguments and gets the outcome of that invocation, so the replies are
    those of calling [fn] directly on each argument list in turn, the
    world ends as after those direct calls, and the wrapper never creates
    a promise or a timer of its own. *)
Theorem throttle_spaced_calls_pass_through
    {S : Type} (fn : list value -> timed_operation S) (interval start : nat)
    (s : S) (calls : list (list value * nat)) :
  (interval <= start)%nat ->
  Forall (fun c => (interval <= snd c)%nat) calls ->
  let run := throttle_run fn interval (cycle_events calls)
               (throttleAsync start s) in
  let direct := invoke_all ((fun c => returning (fn (fst c))) <$> calls) s in
  exists results,
    fst direct = Returns results /\
    Forall2 (fun reply result => exists t, reply = Executed t (snd result))
            (fst run) results /\
    throttle_world (snd run) = snd direct /\
    handed (snd run) = [] /\
    scheduled (snd run) = [] /\
    pendingPromise (snd run) = None.
Proof.
  intros Hstart Hall run direct.
  destruct (throttle_spaced_calls fn interval calls start 0%nat None [] s
              ltac:(lia) Hall) as (results & Hres & Hreplies & Hstate).
  change (th_idle start 0 None [] s) with (throttleAsync start s)
    in Hreplies, Hstate.
  fold run in Hreplies, Hstate. fold direct in Hres, Hstate.
  exists results. split; [exact Hres|]. split; [exact Hreplies|].
  rewrite Hstate.
  split; [reflexivity|]. split; [reflexivity|]. split; reflexivity.
Qed.

Lemma throttle_spaced_calls_witness :
  let calls := [([VNum 1], 100%nat); ([VNum 2], 150%nat); ([VNum 3], 100%nat)] in
  let run := throttle_run echo 100 (cycle_events calls)
               (throttleAsync 1000 0%nat) in
  let direct :=
    invoke_all ((fun c => returning (echo (fst c))) <$> calls) 0%nat in
  exists results,
    fst direct = Returns results /\
    Forall2 (fun reply result => exists t, reply = Executed t (snd result))
            (fst run) results /\
    throttle_world (snd run) = snd direct /\
    handed (snd run) = [] /\
    scheduled (snd run) = [] /\
    pendingPromise (snd run) = None.
Proof.
  cbv zeta.
  apply (throttle_spaced_calls_pass_through echo 100 1000 0%nat
           [([VNum 1], 100%nat); ([VNum 2], 150%nat); ([VNum 3], 100%nat)]).
  - lia.
  - repeat constructor.
Defined.
